(** * pyMOR tutorial: model order reduction with artificial neural networks

    A shallow embedding of the tutorial script (two versions of the same
    tutorial) and of the library behaviour the tutorial text describes.
    Numbers are real numbers: the script's literals [0.1], [1e-5], [1/100]
    are read as the rationals they denote.  The cells that compute the
    errors are given on binary64 numbers as well. *)

From Stdlib Require Import Reals Lra List String Ascii ZArith Lia Bool Arith.
From Stdlib Require PrimFloat Uint63.
Import ListNotations.

Set Warnings "-register-all".

Open Scope string_scope.
Open Scope list_scope.
Open Scope R_scope.

(** ** Parameter values

    pyMOR's [Mu] is a dictionary from parameter names to arrays of numbers;
    the tutorial has the single parameter ['mu'] of dimension one. *)

Definition Mu := list (string * list R).

Fixpoint mu_get (mu : Mu) (key : string) : option (list R) :=
  match mu with
  | [] => None
  | (k, v) :: rest => if String.eqb k key then Some v else mu_get rest key
  end.

(** [mu.to_numpy()]: the values of all parameters, one after the other. *)
Definition mu_to_numpy (mu : Mu) : list R := List.concat (map snd mu).

(** ** Expressions of an [ExpressionFunction]

    [ExpressionFunction('1 - x', 1, ())] holds a Python expression in the
    coordinate [x].  The expression is kept as the string of the script and
    parsed into a syntax tree when the function is evaluated. *)

Module Expr.

Inductive token : Type :=
| TNum (digits : Z) (decimals : nat)
| TVar (name : string)
| TPlus | TMinus | TStar | TSlash | TPow | TLParen | TRParen.

Inductive expr : Type :=
| Num (digits : Z) (decimals : nat)
| Var (name : string)
| Neg (e : expr)
| Add (a b : expr)
| Sub (a b : expr)
| Mul (a b : expr)
| Div (a b : expr)
| Pow (a b : expr).

Definition is_digit (c : ascii) : bool :=
  let n := nat_of_ascii c in (48 <=? n)%nat && (n <=? 57)%nat.

Definition is_alpha (c : ascii) : bool :=
  let n := nat_of_ascii c in
  ((65 <=? n)%nat && (n <=? 90)%nat) || ((97 <=? n)%nat && (n <=? 122)%nat)
  || (n =? 95)%nat.

Definition is_space (c : ascii) : bool :=
  let n := nat_of_ascii c in (n =? 32)%nat || (n =? 9)%nat.

Definition digit_value (c : ascii) : Z := Z.of_nat (nat_of_ascii c - 48).

(** The digits of a literal's integer part, from [acc]. *)
Fixpoint lex_int (s : list ascii) (acc : Z) : Z * list ascii :=
  match s with
  | c :: rest => if is_digit c then lex_int rest (10 * acc + digit_value c)%Z
                 else (acc, s)
  | [] => (acc, [])
  end.

(** The digits after the decimal point: the literal is [acc / 10 ^ k]. *)
Fixpoint lex_frac (s : list ascii) (acc : Z) (k : nat) : Z * nat * list ascii :=
  match s with
  | c :: rest => if is_digit c then lex_frac rest (10 * acc + digit_value c)%Z (S k)
                 else (acc, k, s)
  | [] => (acc, k, [])
  end.

Fixpoint lex_ident (s : list ascii) (acc : string) : string * list ascii :=
  match s with
  | c :: rest => if is_alpha c || is_digit c
                 then lex_ident rest (acc ++ String c EmptyString)%string
                 else (acc, s)
  | [] => (acc, [])
  end.

Definition dot : ascii := "."%char.

Fixpoint lex (fuel : nat) (s : list ascii) : option (list token) :=
  match fuel with
  | O => match s with [] => Some [] | _ => None end
  | S fuel' =>
    match s with
    | [] => Some []
    | c :: rest =>
      if is_space c then lex fuel' rest
      else if is_digit c then
        let '(n, after) := lex_int s 0%Z in
        match after with
        | d :: after' =>
          if Ascii.eqb d dot then
            let '(m, k, after'') := lex_frac after' n 0 in
            option_map (cons (TNum m k)) (lex fuel' after'')
          else option_map (cons (TNum n 0)) (lex fuel' after)
        | [] => Some [TNum n 0]
        end
      else if is_alpha c then
        let '(name, after) := lex_ident s EmptyString in
        option_map (cons (TVar name)) (lex fuel' after)
      else if Ascii.eqb c "+"%char then option_map (cons TPlus) (lex fuel' rest)
      else if Ascii.eqb c "-"%char then option_map (cons TMinus) (lex fuel' rest)
      else if Ascii.eqb c "/"%char then option_map (cons TSlash) (lex fuel' rest)
      else if Ascii.eqb c "("%char then option_map (cons TLParen) (lex fuel' rest)
      else if Ascii.eqb c ")"%char then option_map (cons TRParen) (lex fuel' rest)
      else if Ascii.eqb c "*"%char then
        match rest with
        | c' :: rest' =>
          if Ascii.eqb c' "*"%char then option_map (cons TPow) (lex fuel' rest')
          else option_map (cons TStar) (lex fuel' rest)
        | [] => Some [TStar]
        end
      else None
    end
  end.

(** Python's precedence: [**] binds tighter than unary minus on its left,
    then [*] and [/], then [+] and [-]; [**] associates to the right. *)
Fixpoint parse_sum (fuel : nat) (ts : list token) : option (expr * list token) :=
  match fuel with
  | O => None
  | S fuel' =>
    let atom (ts : list token) : option (expr * list token) :=
      match ts with
      | TNum n k :: rest => Some (Num n k, rest)
      | TVar v :: rest => Some (Var v, rest)
      | TLParen :: rest =>
        match parse_sum fuel' rest with
        | Some (e, TRParen :: rest') => Some (e, rest')
        | _ => None
        end
      | _ => None
      end in
    let fix factor (n : nat) (ts : list token) : option (expr * list token) :=
      match n with
      | O => None
      | S n' =>
        match ts with
        | TMinus :: rest =>
          match factor n' rest with
          | Some (e, rest') => Some (Neg e, rest')
          | None => None
          end
        | _ =>
          match atom ts with
          | Some (a, TPow :: rest) =>
            match factor n' rest with
            | Some (b, rest') => Some (Pow a b, rest')
            | None => None
            end
          | r => r
          end
        end
      end in
    let fix product_tail (n : nat) (acc : expr) (ts : list token)
      : option (expr * list token) :=
      match n with
      | O => None
      | S n' =>
        match ts with
        | TStar :: rest =>
          match factor fuel' rest with
          | Some (b, rest') => product_tail n' (Mul acc b) rest'
          | None => None
          end
        | TSlash :: rest =>
          match factor fuel' rest with
          | Some (b, rest') => product_tail n' (Div acc b) rest'
          | None => None
          end
        | _ => Some (acc, ts)
        end
      end in
    let product (ts : list token) : option (expr * list token) :=
      match factor fuel' ts with
      | Some (a, rest) => product_tail fuel' a rest
      | None => None
      end in
    let fix sum_tail (n : nat) (acc : expr) (ts : list token)
      : option (expr * list token) :=
      match n with
      | O => None
      | S n' =>
        match ts with
        | TPlus :: rest =>
          match product rest with
          | Some (b, rest') => sum_tail n' (Add acc b) rest'
          | None => None
          end
        | TMinus :: rest =>
          match product rest with
          | Some (b, rest') => sum_tail n' (Sub acc b) rest'
          | None => None
          end
        | _ => Some (acc, ts)
        end
      end in
    match product ts with
    | Some (a, rest) => sum_tail fuel' a rest
    | None => None
    end
  end.

Definition parse (s : string) : option expr :=
  match lex (S (String.length s)) (list_ascii_of_string s) with
  | Some ts =>
    match parse_sum (S (S (List.length ts))) ts with
    | Some (e, []) => Some e
    | _ => None
    end
  | None => None
  end.

(** A literal with [k] decimals is [digits / 10 ^ k]. *)
Definition literal (digits : Z) (decimals : nat) : R :=
  IZR digits / 10 ^ decimals.

(** Python's [a ** b] for the exponents that are literals without decimals;
    other exponents are outside this evaluator. *)
Definition power (a : R) (b : expr) : option R :=
  match b with
  | Num n O => if (0 <=? n)%Z then Some (a ^ Z.to_nat n) else None
  | _ => None
  end.

Definition lift2 (f : R -> R -> R) (a b : option R) : option R :=
  match a, b with
  | Some u, Some v => Some (f u v)
  | _, _ => None
  end.

(** The value of an expression where the only free name is the coordinate
    [x]; any other name raises Python's [NameError]. *)
Fixpoint eval (e : expr) (x : R) : option R :=
  match e with
  | Num n k => Some (literal n k)
  | Var v => if String.eqb v "x" then Some x else None
  | Neg a => option_map Ropp (eval a x)
  | Add a b => lift2 Rplus (eval a x) (eval b x)
  | Sub a b => lift2 Rminus (eval a x) (eval b x)
  | Mul a b => lift2 Rmult (eval a x) (eval b x)
  | Div a b => lift2 Rdiv (eval a x) (eval b x)
  | Pow a b => match eval a x with
               | Some u => power u b
               | None => None
               end
  end.

End Expr.

(** ** Functions and parameter functionals of the analytical problem *)

(** A coefficient of a [LincombFunction]: a parameter functional or a plain
    number such as [1.] *)
Inductive Coefficient : Type :=
| ProjectionParameterFunctional (parameter : string)
| Number (value : R).

Inductive Function : Type :=
| ExpressionFunction (expression : string) (dim_domain : nat) (shape_range : list nat)
| ConstantFunction (value : R) (dim_domain : nat)
| LincombFunction (functions : list Function) (coefficients : list Coefficient).

(** Modelled from the spec: [ProjectionParameterFunctional.evaluate] is not
    in the tutorial sources.  The functional projects the parameter values
    onto the named component, here a parameter of dimension one. *)
Definition evaluate_coefficient (c : Coefficient) (mu : Mu) : option R :=
  match c with
  | ProjectionParameterFunctional p =>
    match mu_get mu p with
    | Some [v] => Some v
    | _ => None
    end
  | Number v => Some v
  end.

(** Modelled from the spec: the [evaluate] methods of the function classes
    are not in the tutorial sources.  An expression function evaluates its
    expression at [x]; a constant function returns its value; a
    [LincombFunction] sums coefficient times function, pairing the two
    lists in order and starting from Python's [sum] start value [0].  Lists
    of different lengths fail the constructor's assertion. *)
Fixpoint evaluate (f : Function) (x : R) (mu : Mu) {struct f} : option R :=
  match f with
  | ExpressionFunction e _ _ =>
    match Expr.parse e with
    | Some t => Expr.eval t x
    | None => None
    end
  | ConstantFunction v _ => Some v
  | LincombFunction fs cs =>
    (fix lincomb (fs : list Function) (cs : list Coefficient) (acc : R)
       {struct fs} : option R :=
       match fs, cs with
       | [], [] => Some acc
       | g :: fs', c :: cs' =>
         match evaluate_coefficient c mu, evaluate g x mu with
         | Some cv, Some gv => lincomb fs' cs' (acc + cv * gv)
         | _, _ => None
         end
       | _, _ => None
       end) fs cs 0
  end.

(** ** The analytical problem *)

Inductive BoundaryType : Type := dirichlet | neumann | robin.

Record LineDomainT : Type := {
  interval : R * R;
  left : BoundaryType;
  right : BoundaryType
}.

(** Modelled from the spec: the defaults of [LineDomain()] are not in the
    tutorial sources; the tutorial text gives the domain as the interval
    (0, 1) with Dirichlet conditions on both ends. *)
Definition LineDomain : LineDomainT :=
  {| interval := (0, 1); left := dirichlet; right := dirichlet |}.

Record StationaryProblemT : Type := StationaryProblem {
  domain : LineDomainT;
  rhs : Function;
  diffusion : Function;
  dirichlet_data : Function;
  name : option string
}.

(** First version of the tutorial: the problem is written inline and the
    mesh diameter is [1/100]. *)
Module V1.

Definition problem : StationaryProblemT :=
  StationaryProblem
    LineDomain
    (ExpressionFunction "(x - 0.5)**2 * 1000" 1 [])
    (LincombFunction
       [ExpressionFunction "1 - x" 1 [];
        ExpressionFunction "x" 1 []]
       [ProjectionParameterFunctional "mu";
        Number 1])
    (ConstantFunction 0 1)
    None.

Definition diameter : R := 1 / 100.

End V1.

(** Second version of the tutorial: the parts are bound to names first, the
    problem is given the name ['1DProblem'] and the diameter is [1./N]. *)
Module V2.

Definition domain : LineDomainT := LineDomain.

Definition N : R := 100.

Definition f : Function := ExpressionFunction "(x - 0.5)**2 * 1000" 1 [].

Definition d0 : Function := ExpressionFunction "1 - x" 1 [].
Definition d1 : Function := ExpressionFunction "x" 1 [].

Definition v0 : Coefficient := ProjectionParameterFunctional "mu".
Definition v1 : Coefficient := Number 1.

Definition diffusion : Function := LincombFunction [d0; d1] [v0; v1].

Definition problem : StationaryProblemT :=
  StationaryProblem
    domain
    f
    diffusion
    (ConstantFunction 0 1)
    (Some "1DProblem").

Definition diameter : R := 1 / N.

End V2.

(** The data functions of the problem description: the diffusion
    coefficient sigma and the right-hand side f. *)
Definition sigma (x mu : R) : R := (1 - x) * mu + x.

Definition f_rhs (x : R) : R := 1000 * (x - 0.5) ^ 2.

(** The parameter values with the single component ['mu']. *)
Definition mu_of (v : R) : Mu := [("mu", [v])].

(** A problem without its display name. *)
Definition analytical_data (p : StationaryProblemT)
  : LineDomainT * Function * Function * Function :=
  (domain p, rhs p, diffusion p, dirichlet_data p).

Definition with_name (n : option string) (p : StationaryProblemT) : StationaryProblemT :=
  StationaryProblem (domain p) (rhs p) (diffusion p) (dirichlet_data p) n.

(** ** Vectors and vector arrays

    A solution is a vector of degrees of freedom; a [VectorArray] is a
    list of vectors and [l2_norm], [-] and [/] work entry by entry.  The
    array classes of pyMOR and NumPy are not in the tutorial sources; their
    operations are modelled by what they compute on exact numbers. *)

Definition Vector := list R.
Definition VectorArray := list Vector.

Fixpoint zip_with {A B C : Type} (f : A -> B -> C) (xs : list A) (ys : list B) : list C :=
  match xs, ys with
  | x :: xs', y :: ys' => f x y :: zip_with f xs' ys'
  | _, _ => []
  end.

Definition vadd (u v : Vector) : Vector := zip_with Rplus u v.
Definition vsub (u v : Vector) : Vector := zip_with Rminus u v.
Definition scal (a : R) (v : Vector) : Vector := map (Rmult a) v.

Definition rsum (xs : list R) : R := fold_left Rplus xs 0.

Definition dot_product (u v : Vector) : R := rsum (zip_with Rmult u v).

(** Modelled from the spec: [VectorArray.l2_norm] is not in the tutorial
    sources; the l2 norm of a vector is the square root of the sum of the
    squares of its entries. *)
Definition l2_norm (v : Vector) : R := sqrt (dot_product v v).

Fixpoint same_shape (U V : VectorArray) : bool :=
  match U, V with
  | [], [] => true
  | u :: U', v :: V' => (List.length u =? List.length v)%nat && same_shape U' V'
  | _, _ => false
  end.

(** Modelled from the spec: [VectorArray.__sub__] is not in the tutorial
    sources.  [U - V] on vector arrays of one shape is the array of the
    differences of the vectors; arrays of different shapes raise. *)
Definition va_sub (U V : VectorArray) : option VectorArray :=
  if same_shape U V then Some (zip_with vsub U V) else None.

(** Modelled from the spec: [U.l2_norm()] is the array of the l2 norms of
    the vectors of [U]. *)
Definition va_l2_norm (U : VectorArray) : list R := map l2_norm U.

(** Modelled from the spec: NumPy's [a / b] on arrays of numbers divides
    entry by entry; arrays of different lengths raise. *)
Definition np_divide (a b : list R) : option (list R) :=
  if (List.length a =? List.length b)%nat then Some (zip_with Rdiv a b) else None.

(** Modelled from the spec: NumPy's [np.average] is the sum of the entries
    over their number. *)
Definition np_average (a : list R) : R := rsum a / INR (List.length a).

(** Modelled from the spec: NumPy's [np.median] sorts the entries and
    returns the middle one, or the mean of the two middle ones. *)
Fixpoint insert_sorted (x : R) (xs : list R) : list R :=
  match xs with
  | [] => [x]
  | y :: ys => if Rle_dec x y then x :: xs else y :: insert_sorted x ys
  end.

Definition sort (xs : list R) : list R := fold_right insert_sorted [] xs.

Definition np_median (a : list R) : R :=
  let sorted := sort a in
  let n := List.length a in
  if Nat.even n
  then (nth (n / 2 - 1) sorted 0 + nth (n / 2) sorted 0) / 2
  else nth (n / 2) sorted 0.

(** ** The interpreter state of the notebook

    The cells run one after the other.  A cell that raises stops the run;
    the state keeps the calls made up to there.  [time.time()] reads a
    clock, and random sampling advances the random state. *)

Inductive AnnMse : Type :=
| ann_mse_None
| ann_mse_tol (tol : R)
| ann_mse_like_basis.

Section Notebook.

Context {Reductor Rom RandomState : Type}.

(** The library calls of the script, with the objects they are made on and
    what they return ([None]: the call raised). *)
Inductive Call : Type :=
| discretize_call (p : StationaryProblemT) (diameter : R)
| sample_call (count : nat) (sample : list Mu)
| reductor_call (training_set validation_set : list Mu) (l2_err : R) (ann_mse : AnnMse)
    (reductor : Reductor)
| reduce_call (reductor : Reductor) (rom : option Rom) (reductor' : Reductor)
| fom_solve_call (mu : Mu) (U : Vector)
| rom_solve_call (rom : Rom) (mu : Mu) (U_red : option Vector)
| reconstruct_call (reductor : Reductor) (U_red : Vector) (U_recon : option Vector)
| visualize_call (Us : VectorArray)
| time_call (t : R).

Record World : Type := {
  trace : list Call;
  ticks : nat;
  random_state : RandomState
}.

(** A fresh kernel: no call made yet. *)
Definition start_world (seed : RandomState) : World :=
  {| trace := []; ticks := 0; random_state := seed |}.

Definition M (A : Type) : Type := World -> option A * World.

Definition ret {A : Type} (a : A) : M A := fun w => (Some a, w).

Definition bind {A B : Type} (m : M A) (k : A -> M B) : M B :=
  fun w => match m w with
           | (Some a, w') => k a w'
           | (None, w') => (None, w')
           end.

Definition raise {A : Type} : M A := fun w => (None, w).

Definition log (c : Call) : M unit :=
  fun w => (Some tt, {| trace := trace w ++ [c];
                        ticks := ticks w;
                        random_state := random_state w |}).

Definition from_option {A : Type} (o : option A) : M A :=
  match o with
  | Some a => ret a
  | None => raise
  end.

(** [for x in xs: state = body(x, state)] *)
Fixpoint for_each {A T : Type} (xs : list A) (body : A -> T -> M T) (state : T) : M T :=
  match xs with
  | [] => ret state
  | x :: xs' => bind (body x state) (for_each xs' body)
  end.

End Notebook.

Arguments Call : clear implicits.
Arguments World : clear implicits.
Arguments M : clear implicits.

Declare Scope script_scope.
Delimit Scope script_scope with script.

Notation "x <- m ;; k" := (bind m (fun x => k))
  (at level 61, m at next level, right associativity) : script_scope.
Notation "m ;;; k" := (bind m (fun _ => k))
  (at level 61, right associativity) : script_scope.

(** What the last cells of the tutorial display. *)
Record Results : Type := {
  U_full : VectorArray;
  U_reduced : VectorArray;
  speedups : list R;
  absolute_errors : list R;
  relative_errors : list R;
  average_absolute_error : R;
  average_relative_error : R;
  median_speedup : R
}.

(** The cells that compute the errors:
    [absolute_errors = (U - U_red).l2_norm()] and
    [relative_errors = (U - U_red).l2_norm() / U.l2_norm()]. *)
Definition error_cells (U U_red : VectorArray) : option (list R * list R) :=
  match va_sub U U_red with
  | Some D =>
    let absolute_errors := va_l2_norm D in
    match np_divide (va_l2_norm D) (va_l2_norm U) with
    | Some relative_errors => Some (absolute_errors, relative_errors)
    | None => None
    end
  | None => None
  end.

(** ** The tutorial script

    The library is taken as it is called: the discretizer, the full-order
    model's [solve], the samplers of the parameter space, the reductor with
    [reduce] and [reconstruct], and the reduced model's [solve].  [reduce]
    changes the reductor object (it keeps the reduced basis) and returns a
    reduced model or none. *)

Section Tutorial.

Context {Fom Reductor Rom ParameterSpace RandomState : Type}.

Variable discretize_stationary_cg : StationaryProblemT -> R -> Fom.
Variable fom_solve : Fom -> Mu -> Vector.
Variable space : Fom -> R * R -> ParameterSpace.
Variable sample_uniformly : ParameterSpace -> nat -> list Mu.
Variable sample_randomly : ParameterSpace -> nat -> RandomState -> list Mu * RandomState.
Variable NeuralNetworkReductor : Fom -> list Mu -> list Mu -> R -> AnnMse -> Reductor.
Variable reduce : Reductor -> option Rom * Reductor.
Variable rom_solve : Rom -> Mu -> option Vector.
Variable reconstruct : Reductor -> Vector -> option Vector.
Variable clock : nat -> R.

Local Open Scope script_scope.

Let Script := M Reductor Rom RandomState.

Definition time_time : Script R :=
  fun w => let t := clock (ticks w) in
           (Some t, {| trace := trace w ++ [time_call t];
                       ticks := S (ticks w);
                       random_state := random_state w |}).

Definition do_sample_randomly (ps : ParameterSpace) (count : nat) : Script (list Mu) :=
  fun w => let '(sample, rs) := sample_randomly ps count (random_state w) in
           (Some sample, {| trace := trace w ++ [sample_call count sample];
                            ticks := ticks w;
                            random_state := rs |}).

Definition do_sample_uniformly (ps : ParameterSpace) (count : nat) : Script (list Mu) :=
  let sample := sample_uniformly ps count in
  log (sample_call count sample) ;;; ret sample.

Definition do_discretize (p : StationaryProblemT) (diameter : R) : Script Fom :=
  log (discretize_call p diameter) ;;; ret (discretize_stationary_cg p diameter).

Definition do_reductor (fom : Fom) (training_set validation_set : list Mu)
    (l2_err : R) (ann_mse : AnnMse) : Script Reductor :=
  let reductor := NeuralNetworkReductor fom training_set validation_set l2_err ann_mse in
  log (reductor_call training_set validation_set l2_err ann_mse reductor) ;;;
  ret reductor.

(** [rom = reductor.reduce()]: the reductor object is updated in place, so
    the name [reductor] refers to the updated object from here on. *)
Definition do_reduce (reductor : Reductor) : Script (option Rom * Reductor) :=
  let '(rom, reductor') := reduce reductor in
  log (reduce_call reductor rom reductor') ;;; ret (rom, reductor').

Definition do_fom_solve (fom : Fom) (mu : Mu) : Script Vector :=
  let U := fom_solve fom mu in
  log (fom_solve_call mu U) ;;; ret U.

(** [rom.solve(mu)]: when [reduce] returned no model, [rom] is [None] and
    looking up [solve] raises before any call is made. *)
Definition do_rom_solve (rom : option Rom) (mu : Mu) : Script Vector :=
  match rom with
  | None => raise
  | Some r =>
    let U_red := rom_solve r mu in
    log (rom_solve_call r mu U_red) ;;; from_option U_red
  end.

Definition do_reconstruct (reductor : Reductor) (U_red : Vector) : Script Vector :=
  let U_recon := reconstruct reductor U_red in
  log (reconstruct_call reductor U_red U_recon) ;;; from_option U_recon.

Definition do_visualize (Us : VectorArray) : Script unit :=
  log (visualize_call Us).

(** Python's float division raises on a zero divisor. *)
Definition py_div (a b : R) : Script R :=
  if Req_dec_T b 0 then raise else ret (a / b).

(** [reductor.reconstruct(rom.solve(mu))] as a value. *)
Definition reduced_solution (reductor : Reductor) (rom : option Rom) (mu : Mu)
  : option Vector :=
  match rom with
  | Some r =>
    match rom_solve r mu with
    | Some U_red => reconstruct reductor U_red
    | None => None
    end
  | None => None
  end.

(** The body of the loop over the test set.  [append] adds the vector at
    the end of the array; that the vector lies in the solution space is
    not checked here, and arrays of different shapes raise when they are
    subtracted in the error cells. *)
Definition test_step (fom : Fom) (reductor : Reductor) (rom : option Rom) (mu : Mu)
    (state : VectorArray * VectorArray * list R)
  : Script (VectorArray * VectorArray * list R) :=
  let '(U, U_red, speedups) := state in
  tic <- time_time ;;
  u <- do_fom_solve fom mu ;;
  let U := U ++ [u] in
  toc <- time_time ;;
  let time_fom := toc - tic in
  tic <- time_time ;;
  u_red <- do_rom_solve rom mu ;;
  u_recon <- do_reconstruct reductor u_red ;;
  let U_red := U_red ++ [u_recon] in
  toc <- time_time ;;
  let time_red := toc - tic in
  speedup <- py_div time_fom time_red ;;
  ret (U, U_red, speedups ++ [speedup]).

(** The script from the discretization on; the two versions of the
    tutorial differ in how [problem] and [diameter] are written. *)
Definition tutorial (problem : StationaryProblemT) (diameter : R) : Script Results :=
  fom <- do_discretize problem diameter ;;
  let parameter_space := space fom (0.1, 1) in
  training_set <- do_sample_uniformly parameter_space 100 ;;
  validation_set <- do_sample_randomly parameter_space 20 ;;
  reductor <- do_reductor fom training_set validation_set (1 / 100000)
                (ann_mse_tol (1 / 100000)) ;;
  reduced <- do_reduce reductor ;;
  let '(rom, reductor) := reduced in
  sample <- do_sample_randomly parameter_space 1 ;;
  mu <- from_option (nth_error sample 0) ;;
  U <- do_fom_solve fom mu ;;
  U_red <- do_rom_solve rom mu ;;
  U_red_recon <- do_reconstruct reductor U_red ;;
  do_visualize [U; U_red_recon] ;;;
  test_set <- do_sample_randomly parameter_space 10 ;;
  let U := [] in
  let U_red := [] in
  let speedups := [] in
  state <- for_each test_set (test_step fom reductor rom) (U, U_red, speedups) ;;
  let '(U, U_red, speedups) := state in
  errors <- from_option (error_cells U U_red) ;;
  let '(absolute_errors, relative_errors) := errors in
  ret {| U_full := U;
         U_reduced := U_red;
         speedups := speedups;
         absolute_errors := absolute_errors;
         relative_errors := relative_errors;
         average_absolute_error := np_average absolute_errors;
         average_relative_error := np_average relative_errors;
         median_speedup := np_median speedups |}.

(** The objects of a run: the model, and what [reduce] returns on the
    reductor constructed from the model, the training set and the
    validation set. *)
Definition run_fom (problem : StationaryProblemT) (diameter : R) : Fom :=
  discretize_stationary_cg problem diameter.

Definition run_reduce (problem : StationaryProblemT) (diameter : R) (seed : RandomState)
  : option Rom * Reductor :=
  let fom := run_fom problem diameter in
  let ps := space fom (0.1, 1) in
  reduce (NeuralNetworkReductor fom (sample_uniformly ps 100)
            (fst (sample_randomly ps 20 seed)) (1 / 100000) (ann_mse_tol (1 / 100000))).

Definition tutorial_v1 : Script Results := tutorial V1.problem V1.diameter.
Definition tutorial_v2 : Script Results := tutorial V2.problem V2.diameter.

End Tutorial.

(** ** Feedforward neural networks *)

(** Modelled from the spec: the network class is not in the tutorial
    sources.  A layer holds, for each of its neurons, the weights of the
    connections into it and its bias. *)
Record Layer : Type := {
  weights : list (list R);
  bias : list R
}.

(** Modelled from the spec: a network is its layers and the activation
    function, which can be chosen. *)
Record NeuralNetwork : Type := {
  layers : list Layer;
  activation_function : R -> R
}.

(** Modelled from the spec: the weights into a neuron are multiplied with
    the respective values of the input and summed up, and the bias is
    added. *)
Definition affine (l : Layer) (x : list R) : list R :=
  zip_with (fun row b => dot_product row x + b) (weights l) (bias l).

(** Modelled from the spec: before the values are passed to the following
    layer the activation function is applied, and these steps are repeated
    layer by layer.  The values of the last layer are passed on to no layer
    and are the output. *)
Fixpoint forward_layers (rho : R -> R) (ls : list Layer) (x : list R) : list R :=
  match ls with
  | [] => x
  | [l] => affine l x
  | l :: ls' => forward_layers rho ls' (map rho (affine l x))
  end.

(** Modelled from the spec: the forward pass of an input through the
    network. *)
Definition forward (net : NeuralNetwork) (x : list R) : list R :=
  forward_layers (activation_function net) (layers net) x.

(** ** Linear combinations and coefficients in a basis *)

(** Modelled from the spec: [VectorArray.lincomb] is not in the tutorial
    sources.  The linear combination is the sum of coefficient times basis
    vector, accumulated from [acc]. *)
Fixpoint lincomb_from (acc : Vector) (basis : VectorArray) (coefficients : list R) : Vector :=
  match basis, coefficients with
  | b :: basis', c :: coefficients' => lincomb_from (vadd acc (scal c b)) basis' coefficients'
  | _, _ => acc
  end.

Definition zero_vector (dim : nat) : Vector := repeat 0 dim.

Definition va_dim (basis : VectorArray) : nat :=
  match basis with
  | b :: _ => List.length b
  | [] => O
  end.

(** Modelled from the spec: [basis.lincomb(coefficients)] starts from the
    zero vector and takes one coefficient per basis vector, or raises. *)
Definition lincomb (basis : VectorArray) (coefficients : list R) : option Vector :=
  if (List.length basis =? List.length coefficients)%nat
  then Some (lincomb_from (zero_vector (va_dim basis)) basis coefficients)
  else None.

(** Modelled from the spec: [basis.inner(u)], the coefficients of [u] in
    the basis, is the inner product of [u] with each basis vector. *)
Definition inner (basis : VectorArray) (u : Vector) : list R :=
  map (fun b => dot_product b u) basis.

(** The linear combination written as a sum, entry by entry: entry [j] is
    the sum over the basis vectors of coefficient times entry [j] of the
    vector. *)
Fixpoint lincomb_entry (basis : VectorArray) (coefficients : list R) (j : nat) : R :=
  match basis, coefficients with
  | b :: basis', c :: coefficients' => c * nth j b 0 + lincomb_entry basis' coefficients' j
  | _, _ => 0
  end.

(** ** The reductor

    [NeuralNetworkReductor] and the reduced model it returns are not in
    the tutorial sources.  The tutorial text describes them:
    - [reduce] computes a reduced basis via POD from snapshots of the
      training parameters and then trains the neural network on the
      coefficients of the solutions in that basis;
    - with a prescribed [ann_mse] the training is aborted when a network
      that guarantees the tolerance is found, and when the maximal number
      of restarts is reached without one, no reduced model is returned;
    - with [ann_mse = None] several networks with different initial
      weights are trained and the one with the best result on the
      validation set is selected;
    - with [ann_mse = 'like_basis'] the tolerance is the error of the
      reduced basis;
    - the reduced model's [solve] is a forward pass of the parameter
      values through the network, and [reconstruct] is the linear
      combination of the reduced basis with the reduced coefficients;
    - the reductor only calls [solve] of the full-order model.
    The POD routine and the training of one network from given initial
    weights are numerical kernels of other libraries and are taken as they
    are called. *)

Module Reductor.

(** Modelled from the spec: what [reduce] does, in order: it calls
    [solve] of the full-order model, runs POD on snapshots, and trains a
    network from the initial weights of a run. *)
Inductive Step : Type :=
| solve_step (mu : Mu)
| pod_step (snapshots : VectorArray)
| train_step (run : nat).

Definition Samples := list (Mu * list R).

(** Modelled from the spec: the loss measures how accurately the network
    reproduces the output of a sample given its input; the mean squared
    error is the mean over the samples of the squared distance. *)
Definition squared_error (net : NeuralNetwork) (sample : Mu * list R) : R :=
  let d := vsub (forward net (mu_to_numpy (fst sample))) (snd sample) in
  dot_product d d.

(** Modelled from the spec: the mean squared error of a network on
    samples. *)
Definition mse (net : NeuralNetwork) (samples : Samples) : R :=
  np_average (map (squared_error net) samples).

(** Modelled from the spec: the reduced model holds the trained network. *)
Record RomT : Type := {
  neural_network : NeuralNetwork
}.

(** Modelled from the spec: [rom.solve(mu)] is a forward pass of the
    parameter values through the network and returns the approximated
    reduced coordinates. *)
Definition rom_solve (rom : RomT) (mu : Mu) : Vector :=
  forward (neural_network rom) (mu_to_numpy mu).

Section Reduce.

Context {Fom : Type}.

Variable solve : Fom -> Mu -> Vector.
Variable pod : VectorArray -> R -> VectorArray * R.
Variable train : Samples -> Samples -> nat -> NeuralNetwork.
Variable restarts : nat.

(** Modelled from the spec: the reductor is constructed from the model,
    the training set, the validation set and the two tolerances, and holds
    the reduced basis once [reduce] has computed it. *)
Record ReductorT : Type := {
  fom : Fom;
  training_set : list Mu;
  validation_set : list Mu;
  l2_err : R;
  ann_mse : AnnMse;
  reduced_basis : option VectorArray
}.

(** Modelled from the spec: the constructor of the reductor. *)
Definition NeuralNetworkReductor (fom : Fom) (training_set validation_set : list Mu)
    (l2_err : R) (ann_mse : AnnMse) : ReductorT :=
  {| fom := fom;
     training_set := training_set;
     validation_set := validation_set;
     l2_err := l2_err;
     ann_mse := ann_mse;
     reduced_basis := None |}.

(** Modelled from the spec: the snapshots are the full-order solutions of
    the training parameters. *)
Definition snapshots (r : ReductorT) : VectorArray :=
  map (solve (fom r)) (training_set r).

(** Modelled from the spec: the first stage of [reduce] solves for the
    snapshots of the training parameters and runs POD on them; POD returns
    the basis and the mean squared error of the basis. *)
Definition build_basis (r : ReductorT) : (VectorArray * R) * list Step :=
  (pod (snapshots r) (l2_err r),
   map solve_step (training_set r) ++ [pod_step (snapshots r)]).

(** Modelled from the spec: the network approximates the mapping from the
    parameters to the coefficients of the respective solution in the
    reduced basis, so a sample pairs the two. *)
Definition samples_of (r : ReductorT) (basis : VectorArray) (mus : list Mu) : Samples :=
  map (fun mu => (mu, inner basis (solve (fom r) mu))) mus.

(** Modelled from the spec: the tolerance a network has to meet: none
    for [ann_mse = None], the prescribed one, or the error of the reduced
    basis for ['like_basis']. *)
Definition tolerance (r : ReductorT) (mse_basis : R) : option R :=
  match ann_mse r with
  | ann_mse_None => None
  | ann_mse_tol tol => Some tol
  | ann_mse_like_basis => Some mse_basis
  end.

(** Modelled from the spec: a network guarantees the tolerance when its
    mean squared error on the training samples is at most the tolerance. *)
Definition fulfils (target : option R) (net : NeuralNetwork) (training_data : Samples) : bool :=
  match target with
  | Some tol => if Rle_dec (mse net training_data) tol then true else false
  | None => false
  end.

(** Modelled from the spec: of two networks the one with the smaller
    error on the validation samples is the better one. *)
Definition better (net : NeuralNetwork) (best : option NeuralNetwork)
    (validation_data : Samples) : NeuralNetwork :=
  match best with
  | None => net
  | Some b => if Rlt_dec (mse net validation_data) (mse b validation_data) then net else b
  end.

(** Modelled from the spec: the training runs.  Run [run] is trained now
    and [restarts_left] restarts remain; the training is aborted when the
    network of a run fulfils the tolerance.  Returns that network, if one
    was found, the best network on the validation set among those trained,
    and the runs made. *)
Fixpoint training_runs (target : option R) (training_data validation_data : Samples)
    (run restarts_left : nat) (best : option NeuralNetwork)
  : option NeuralNetwork * NeuralNetwork * list Step :=
  let net := train training_data validation_data run in
  let best' := better net best validation_data in
  if fulfils target net training_data then (Some net, best', [train_step run])
  else
    match restarts_left with
    | O => (None, best', [train_step run])
    | S k =>
      let '(found, b, steps) :=
        training_runs target training_data validation_data (S run) k (Some best') in
      (found, b, train_step run :: steps)
    end.

(** Modelled from the spec: the second stage of [reduce] prepares the
    training and validation samples and makes the training runs.  With a
    tolerance it returns the network that fulfils it, or none when the
    maximal number of restarts was reached without one; without a tolerance
    it returns the best network on the validation set. *)
Definition train_network (r : ReductorT) (basis : VectorArray) (mse_basis : R)
  : option NeuralNetwork * list Step :=
  let training_data := samples_of r basis (training_set r) in
  let validation_data := samples_of r basis (validation_set r) in
  let target := tolerance r mse_basis in
  let '(found, best, runs) :=
    training_runs target training_data validation_data 0 restarts None in
  (match target with
   | Some _ => found
   | None => Some best
   end,
   map solve_step (validation_set r) ++ runs).

(** Modelled from the spec: [reduce], with the steps it made: the basis
    via POD, then the training.  The reductor keeps the basis; the returned
    model holds the selected network. *)
Definition reduce_steps (r : ReductorT) : option RomT * ReductorT * list Step :=
  let '((basis, mse_basis), steps1) := build_basis r in
  let '(net, steps2) := train_network r basis mse_basis in
  (option_map (fun n => {| neural_network := n |}) net,
   {| fom := fom r;
      training_set := training_set r;
      validation_set := validation_set r;
      l2_err := l2_err r;
      ann_mse := ann_mse r;
      reduced_basis := Some basis |},
   steps1 ++ steps2).

(** Modelled from the spec: [reductor.reduce()] returns the reduced model,
    or none, and leaves the reductor updated. *)
Definition reduce (r : ReductorT) : option RomT * ReductorT := fst (reduce_steps r).

(** The quantities of a reduction, by name: the POD basis and its error,
    and the samples the networks are trained and validated on. *)
Definition pod_basis (r : ReductorT) : VectorArray := fst (pod (snapshots r) (l2_err r)).
Definition mse_basis (r : ReductorT) : R := snd (pod (snapshots r) (l2_err r)).
Definition training_data (r : ReductorT) : Samples :=
  samples_of r (pod_basis r) (training_set r).
Definition validation_data (r : ReductorT) : Samples :=
  samples_of r (pod_basis r) (validation_set r).

(** Modelled from the spec: [reconstruct] computes the linear combination
    of the reduced basis defined by the reduced coefficients; a reductor
    that has not reduced yet has no basis and raises. *)
Definition reconstruct (r : ReductorT) (u : Vector) : option Vector :=
  match reduced_basis r with
  | Some basis => lincomb basis u
  | None => None
  end.

End Reduce.

End Reductor.

(** ** The call sequence of the interface

    A monitor reads the calls of a run in order.  It records the reductor
    object once it is constructed, the model that [reduce] returned, and
    the reduced coordinates that [rom.solve] has returned so far. *)

Section Monitor.

Context {Reductor Rom : Type}.

Record Protocol : Type := {
  the_reductor : option Reductor;
  the_rom : option Rom;
  reduced_coordinates : list Vector
}.

Definition protocol_start : Protocol :=
  {| the_reductor := None; the_rom := None; reduced_coordinates := [] |}.

Definition record_coordinates (U_red : option Vector) (known : list Vector) : list Vector :=
  match U_red with
  | Some u => u :: known
  | None => known
  end.

Inductive protocol_step : Protocol -> Call Reductor Rom -> Protocol -> Prop :=
| step_discretize : forall s p d,
    protocol_step s (discretize_call p d) s
| step_sample : forall s n sample,
    protocol_step s (sample_call n sample) s
| step_reductor : forall s tr va l2 a r,
    protocol_step s (reductor_call tr va l2 a r)
      {| the_reductor := Some r; the_rom := None; reduced_coordinates := [] |}
| step_reduce : forall s r rom r',
    the_reductor s = Some r ->
    protocol_step s (reduce_call r rom r')
      {| the_reductor := Some r'; the_rom := rom; reduced_coordinates := [] |}
| step_fom_solve : forall s mu u,
    protocol_step s (fom_solve_call mu u) s
| step_rom_solve : forall s rom mu u,
    the_rom s = Some rom ->
    protocol_step s (rom_solve_call rom mu u)
      {| the_reductor := the_reductor s; the_rom := the_rom s;
         reduced_coordinates := record_coordinates u (reduced_coordinates s) |}
| step_reconstruct : forall s r u v,
    the_reductor s = Some r ->
    the_rom s <> None ->
    In u (reduced_coordinates s) ->
    protocol_step s (reconstruct_call r u v) s
| step_visualize : forall s Us,
    protocol_step s (visualize_call Us) s
| step_time : forall s t,
    protocol_step s (time_call t) s.

(** [accepts t s]: the monitor reads the whole of [t] and ends in [s]. *)
Inductive accepts : list (Call Reductor Rom) -> Protocol -> Prop :=
| accepts_nil : accepts [] protocol_start
| accepts_snoc : forall t s c s',
    accepts t s -> protocol_step s c s' -> accepts (t ++ [c]) s'.

(** A run from a state whose calls so far the monitor accepts in a state
    where [P] holds ends with calls the monitor accepts, in a state where
    [Q] holds of a returned value. *)
Definition triple {S A : Type} (P : Protocol -> Prop) (m : M Reductor Rom S A)
    (Q : A -> Protocol -> Prop) : Prop :=
  forall (w : World Reductor Rom S) (s : Protocol),
    accepts (trace w) s -> P s ->
    exists s', accepts (trace (snd (m w))) s' /\
               match fst (m w) with
               | Some a => Q a s'
               | None => True
               end.

(** The monitor state after [reduce]: the reductor is the updated object
    and the model is what [reduce] returned. *)
Definition reduced_state (reductor : Reductor) (rom : option Rom) (s : Protocol) : Prop :=
  the_reductor s = Some reductor /\ the_rom s = rom.

End Monitor.

Arguments Protocol : clear implicits.

(** ** A small library for examples

    A model whose solution is the vector of the parameter values, samplers
    that return the parameter value 1, a reductor whose reduced model
    returns the parameter values and whose [reconstruct] returns its
    argument, and a clock that counts its readings. *)

Module Example.

Definition discretize (p : StationaryProblemT) (diameter : R) : unit := tt.
Definition fom_solve (fom : unit) (mu : Mu) : Vector := mu_to_numpy mu.
Definition space (fom : unit) (ranges : R * R) : unit := tt.
Definition sample_uniformly (ps : unit) (count : nat) : list Mu :=
  repeat (mu_of 1) count.
Definition sample_randomly (ps : unit) (count : nat) (rs : unit) : list Mu * unit :=
  (repeat (mu_of 1) count, rs).
Definition reductor (fom : unit) (training_set validation_set : list Mu) (l2_err : R)
    (ann_mse : AnnMse) : unit := tt.
Definition reduce (r : unit) : option unit * unit := (Some tt, r).
Definition rom_solve (rom : unit) (mu : Mu) : option Vector := Some (mu_to_numpy mu).
Definition reconstruct (r : unit) (u : Vector) : option Vector := Some u.
Definition clock (n : nat) : R := INR n.

(** A discretizer that keeps the analytical data and the diameter and
    names the model after the problem, as pyMOR does: the name of the
    problem, or the name of its class when it has none, followed by
    [_CG]. *)
Definition discretize_named (p : StationaryProblemT) (diameter : R)
  : LineDomainT * Function * Function * Function * R * string :=
  (analytical_data p, diameter,
   (match name p with
    | Some n => n
    | None => "StationaryProblem"
    end ++ "_CG")%string).

(** A POD routine that returns the one-vector basis of the line, and
    networks of one neuron with weight [w] and no bias: run 1 of [train]
    gives the weight 1, every other run and every run of [train_zero] the
    weight 0. *)
Definition pod (snapshots : VectorArray) (l2_err : R) : VectorArray * R := ([[1]], 0).

Definition network (w : R) : NeuralNetwork :=
  {| layers := [{| weights := [[w]]; bias := [0] |}];
     activation_function := fun x => x |}.

Definition train (training_data validation_data : Reductor.Samples) (run : nat)
  : NeuralNetwork :=
  network (if (run =? 1)%nat then 1 else 0).

Definition train_zero (training_data validation_data : Reductor.Samples) (run : nat)
  : NeuralNetwork :=
  network 0.

End Example.

(** The first version of the tutorial on the example library. *)
Abbreviation example_run :=
  (tutorial Example.discretize Example.fom_solve Example.space Example.sample_uniformly
     Example.sample_randomly Example.reductor Example.reduce Example.rom_solve
     Example.reconstruct Example.clock V1.problem V1.diameter).

(** ** The test set and the speedups of a run *)

Section TestSet.

Context {Fom ParameterSpace RandomState : Type}.

Variable discretize_stationary_cg : StationaryProblemT -> R -> Fom.
Variable space : Fom -> R * R -> ParameterSpace.
Variable sample_randomly : ParameterSpace -> nat -> RandomState -> list Mu * RandomState.

(** The parameter of the single test: the first of the sample of one,
    drawn after the validation set. *)
Definition run_single_sample (problem : StationaryProblemT) (diameter : R)
    (seed : RandomState) : list Mu * RandomState :=
  let ps := space (run_fom discretize_stationary_cg problem diameter) (0.1, 1) in
  sample_randomly ps 1 (snd (sample_randomly ps 20 seed)).

(** The test set of a run: the sample of ten, drawn after the validation
    set and the parameter of the single test. *)
Definition run_test_set (problem : StationaryProblemT) (diameter : R)
    (seed : RandomState) : list Mu :=
  let ps := space (run_fom discretize_stationary_cg problem diameter) (0.1, 1) in
  fst (sample_randomly ps 10 (snd (run_single_sample problem diameter seed))).

End TestSet.

(** The speedup measured in round [i] of the test loop, when the loop
    starts at clock reading number [k]: each round reads the clock four
    times, around the full solve and around the reduced solve. *)
Definition measured_speedup (clock : nat -> R) (k i : nat) : R :=
  (clock (k + 4 * i + 1)%nat - clock (k + 4 * i)%nat)
  / (clock (k + 4 * i + 3)%nat - clock (k + 4 * i + 2)%nat).

(** The calls of the offline phase: they build the model and the reduced
    model. *)
Definition offline {Reductor Rom : Type} (c : Call Reductor Rom) : bool :=
  match c with
  | discretize_call _ _ => true
  | reductor_call _ _ _ _ _ => true
  | reduce_call _ _ _ => true
  | _ => false
  end.

(** [keeps_offline m]: a run of [m] makes no call of the offline phase. *)
Definition keeps_offline {Reductor Rom S A : Type} (m : M Reductor Rom S A) : Prop :=
  forall w, filter offline (trace (snd (m w))) = filter offline (trace w).

(** Every entry of a list is at most the later ones. *)
Fixpoint ascending (xs : list R) : Prop :=
  match xs with
  | [] => True
  | x :: xs' => (forall y, In y xs' -> x <= y) /\ ascending xs'
  end.

(** ** Expressions over the array of coordinates

    The expression functions of the heat notebook index the array [x] of
    coordinates, as in [x[...,0]], compare the coordinate with a number and
    multiply the truth value by [1.].  Numbers may have a decimal point and
    an exponent, as in [1e-10].  The evaluation of an expression function
    is not in the sources; the expression is kept as the string of the
    notebook and is parsed and evaluated as Python and NumPy do it for
    this part of the syntax. *)

Module ArrayExpr.

Inductive token : Type :=
| TNum (mantissa exponent : Z) (is_float : bool)
| TName (name : string)
| TPlus | TMinus | TStar
| TLt | TLe | TGt | TGe
| TLParen | TRParen | TLBracket | TRBracket | TComma | TEllipsis.

Inductive subscript : Type :=
| SEllipsis
| SIndex (i : Z).

Inductive comparison : Type := Lt | Le | Gt | Ge.

Inductive expr : Type :=
| Num (mantissa exponent : Z)
| Var (name : string)
| Index (a : expr) (subscripts : list subscript)
| Neg (a : expr)
| Add (a b : expr)
| Sub (a b : expr)
| Mul (a b : expr)
| Compare (op : comparison) (a b : expr).

(** The exponent of a literal, after [e]: an optional sign and digits. *)
Definition lex_exponent (s : list ascii) : option (Z * list ascii) :=
  match s with
  | c :: rest =>
    if Ascii.eqb c "-"%char then
      match rest with
      | d :: _ => if Expr.is_digit d
                  then let '(n, after) := Expr.lex_int rest 0%Z in Some ((- n)%Z, after)
                  else None
      | [] => None
      end
    else if Ascii.eqb c "+"%char then
      match rest with
      | d :: _ => if Expr.is_digit d then Some (Expr.lex_int rest 0%Z) else None
      | [] => None
      end
    else if Expr.is_digit c then Some (Expr.lex_int s 0%Z)
    else None
  | [] => None
  end.

(** A number literal from its first digit: the digits, an optional decimal
    point with more digits, an optional exponent.  The literal is
    [mantissa * 10 ^ exponent]; it is a float when it has a point or an
    exponent. *)
Definition lex_number (s : list ascii) : option (token * list ascii) :=
  let '(n, after) := Expr.lex_int s 0%Z in
  let '(m, k, after, has_point) :=
    match after with
    | d :: after' =>
      if Ascii.eqb d Expr.dot
      then let '(m, k, after'') := Expr.lex_frac after' n 0 in (m, k, after'', true)
      else (n, O, after, false)
    | [] => (n, O, after, false)
    end in
  match after with
  | e :: after' =>
    if Ascii.eqb e "e"%char || Ascii.eqb e "E"%char then
      match lex_exponent after' with
      | Some (x, rest) => Some (TNum m (x - Z.of_nat k)%Z true, rest)
      | None => None
      end
    else Some (TNum m (- Z.of_nat k)%Z has_point, after)
  | [] => Some (TNum m (- Z.of_nat k)%Z has_point, after)
  end.

Fixpoint lex (fuel : nat) (s : list ascii) : option (list token) :=
  match fuel with
  | O => match s with [] => Some [] | _ => None end
  | S fuel' =>
    match s with
    | [] => Some []
    | c :: rest =>
      if Expr.is_space c then lex fuel' rest
      else if Expr.is_digit c then
        match lex_number s with
        | Some (t, after) => option_map (cons t) (lex fuel' after)
        | None => None
        end
      else if Expr.is_alpha c then
        let '(name, after) := Expr.lex_ident s EmptyString in
        option_map (cons (TName name)) (lex fuel' after)
      else if Ascii.eqb c Expr.dot then
        match rest with
        | d1 :: d2 :: rest' =>
          if Ascii.eqb d1 Expr.dot && Ascii.eqb d2 Expr.dot
          then option_map (cons TEllipsis) (lex fuel' rest')
          else None
        | _ => None
        end
      else if Ascii.eqb c "<"%char then
        match rest with
        | c' :: rest' =>
          if Ascii.eqb c' "="%char then option_map (cons TLe) (lex fuel' rest')
          else option_map (cons TLt) (lex fuel' rest)
        | [] => Some [TLt]
        end
      else if Ascii.eqb c ">"%char then
        match rest with
        | c' :: rest' =>
          if Ascii.eqb c' "="%char then option_map (cons TGe) (lex fuel' rest')
          else option_map (cons TGt) (lex fuel' rest)
        | [] => Some [TGt]
        end
      else if Ascii.eqb c "+"%char then option_map (cons TPlus) (lex fuel' rest)
      else if Ascii.eqb c "-"%char then option_map (cons TMinus) (lex fuel' rest)
      else if Ascii.eqb c "*"%char then option_map (cons TStar) (lex fuel' rest)
      else if Ascii.eqb c "("%char then option_map (cons TLParen) (lex fuel' rest)
      else if Ascii.eqb c ")"%char then option_map (cons TRParen) (lex fuel' rest)
      else if Ascii.eqb c "["%char then option_map (cons TLBracket) (lex fuel' rest)
      else if Ascii.eqb c "]"%char then option_map (cons TRBracket) (lex fuel' rest)
      else if Ascii.eqb c ","%char then option_map (cons TComma) (lex fuel' rest)
      else None
    end
  end.

(** The subscripts between [[] and []]: [...] or an integer literal,
    separated by commas. *)
Fixpoint parse_subscripts (ts : list token) : option (list subscript * list token) :=
  match ts with
  | TEllipsis :: rest =>
    match rest with
    | TComma :: rest' =>
      match parse_subscripts rest' with
      | Some (ss, after) => Some (SEllipsis :: ss, after)
      | None => None
      end
    | _ => Some ([SEllipsis], rest)
    end
  | TNum i 0%Z false :: rest =>
    match rest with
    | TComma :: rest' =>
      match parse_subscripts rest' with
      | Some (ss, after) => Some (SIndex i :: ss, after)
      | None => None
      end
    | _ => Some ([SIndex i], rest)
    end
  | _ => None
  end.

(** Python's precedence: subscription binds tightest, then unary minus,
    then [*], then [+] and [-], then the comparisons.  A comparison is not
    chained here. *)
Fixpoint parse_comparison (fuel : nat) (ts : list token) : option (expr * list token) :=
  match fuel with
  | O => None
  | S fuel' =>
    let atom (ts : list token) : option (expr * list token) :=
      match ts with
      | TNum m e _ :: rest => Some (Num m e, rest)
      | TName v :: rest => Some (Var v, rest)
      | TLParen :: rest =>
        match parse_comparison fuel' rest with
        | Some (e, TRParen :: rest') => Some (e, rest')
        | _ => None
        end
      | _ => None
      end in
    let postfix (ts : list token) : option (expr * list token) :=
      match atom ts with
      | Some (a, TLBracket :: rest) =>
        match parse_subscripts rest with
        | Some (ss, TRBracket :: rest') => Some (Index a ss, rest')
        | _ => None
        end
      | r => r
      end in
    let fix factor (n : nat) (ts : list token) : option (expr * list token) :=
      match n with
      | O => None
      | S n' =>
        match ts with
        | TMinus :: rest =>
          match factor n' rest with
          | Some (e, rest') => Some (Neg e, rest')
          | None => None
          end
        | _ => postfix ts
        end
      end in
    let fix product_tail (n : nat) (acc : expr) (ts : list token)
      : option (expr * list token) :=
      match n with
      | O => None
      | S n' =>
        match ts with
        | TStar :: rest =>
          match factor fuel' rest with
          | Some (b, rest') => product_tail n' (Mul acc b) rest'
          | None => None
          end
        | _ => Some (acc, ts)
        end
      end in
    let product (ts : list token) : option (expr * list token) :=
      match factor fuel' ts with
      | Some (a, rest) => product_tail fuel' a rest
      | None => None
      end in
    let fix sum_tail (n : nat) (acc : expr) (ts : list token)
      : option (expr * list token) :=
      match n with
      | O => None
      | S n' =>
        match ts with
        | TPlus :: rest =>
          match product rest with
          | Some (b, rest') => sum_tail n' (Add acc b) rest'
          | None => None
          end
        | TMinus :: rest =>
          match product rest with
          | Some (b, rest') => sum_tail n' (Sub acc b) rest'
          | None => None
          end
        | _ => Some (acc, ts)
        end
      end in
    let sum (ts : list token) : option (expr * list token) :=
      match product ts with
      | Some (a, rest) => sum_tail fuel' a rest
      | None => None
      end in
    let compare (op : comparison) (a : expr) (rest : list token)
      : option (expr * list token) :=
      match sum rest with
      | Some (b, rest') => Some (Compare op a b, rest')
      | None => None
      end in
    match sum ts with
    | Some (a, TLt :: rest) => compare Lt a rest
    | Some (a, TLe :: rest) => compare Le a rest
    | Some (a, TGt :: rest) => compare Gt a rest
    | Some (a, TGe :: rest) => compare Ge a rest
    | r => r
    end
  end.

Definition parse (s : string) : option expr :=
  match lex (S (String.length s)) (list_ascii_of_string s) with
  | Some ts =>
    match parse_comparison (S (S (List.length ts))) ts with
    | Some (e, []) => Some e
    | _ => None
    end
  | None => None
  end.

(** What an expression evaluates to at one point: a number, a truth value,
    or the point itself, the array of its coordinates. *)
Inductive value : Type :=
| VNum (r : R)
| VBool (b : bool)
| VPoint (coordinates : list R).

Definition literal (mantissa exponent : Z) : R := IZR mantissa * powerRZ 10 exponent.

(** In arithmetic a truth value counts as 1 or 0. *)
Definition as_num (v : value) : option R :=
  match v with
  | VNum r => Some r
  | VBool b => Some (if b then 1 else 0)
  | VPoint _ => None
  end.

Definition arith (f : R -> R -> R) (a b : option value) : option value :=
  match a, b with
  | Some u, Some v =>
    match as_num u, as_num v with
    | Some x, Some y => Some (VNum (f x y))
    | _, _ => None
    end
  | _, _ => None
  end.

Definition holds (op : comparison) (a b : R) : bool :=
  match op with
  | Lt => if Rlt_dec a b then true else false
  | Le => if Rle_dec a b then true else false
  | Gt => if Rlt_dec b a then true else false
  | Ge => if Rle_dec b a then true else false
  end.

(** [x[...,i]] is coordinate [i] of the point; other subscripts are
    outside this evaluator, and an index past the last coordinate raises. *)
Definition index (v : value) (ss : list subscript) : option value :=
  match v, ss with
  | VPoint p, [SEllipsis; SIndex i] =>
    if (0 <=? i)%Z then option_map VNum (nth_error p (Z.to_nat i)) else None
  | _, _ => None
  end.

(** The value of an expression at the point [x]; the only free name is
    [x]. *)
Fixpoint eval (e : expr) (x : list R) : option value :=
  match e with
  | Num m k => Some (VNum (literal m k))
  | Var v => if String.eqb v "x" then Some (VPoint x) else None
  | Index a ss =>
    match eval a x with
    | Some v => index v ss
    | None => None
    end
  | Neg a => arith Rminus (Some (VNum 0)) (eval a x)
  | Add a b => arith Rplus (eval a x) (eval b x)
  | Sub a b => arith Rminus (eval a x) (eval b x)
  | Mul a b => arith Rmult (eval a x) (eval b x)
  | Compare op a b =>
    match eval a x, eval b x with
    | Some (VNum u), Some (VNum v) => Some (VBool (holds op u v))
    | _, _ => None
    end
  end.

(** The functions of a problem at a point: an expression function parses
    and evaluates its expression where the point has [dim_domain]
    coordinates, a constant function returns its value, a
    [LincombFunction] sums coefficient times function. *)
Fixpoint evaluate (f : Function) (x : list R) (mu : Mu) {struct f} : option R :=
  match f with
  | ExpressionFunction e dim_domain _ =>
    if (List.length x =? dim_domain)%nat then
      match parse e with
      | Some t =>
        match eval t x with
        | Some v => as_num v
        | None => None
        end
      | None => None
      end
    else None
  | ConstantFunction v _ => Some v
  | LincombFunction fs cs =>
    (fix lincomb (fs : list Function) (cs : list Coefficient) (acc : R)
       {struct fs} : option R :=
       match fs, cs with
       | [], [] => Some acc
       | g :: fs', c :: cs' =>
         match evaluate_coefficient c mu, evaluate g x mu with
         | Some cv, Some gv => lincomb fs' cs' (acc + cv * gv)
         | _, _ => None
         end
       | _, _ => None
       end) fs cs 0
  end.

End ArrayExpr.

(** The analytical problem of the heat notebook. *)
Module HeatProblem.

Record StationaryProblemT : Type := StationaryProblem {
  domain : LineDomainT;
  diffusion : Function;
  robin_data : Function * Function;
  outputs : list (string * Function)
}.

Record InstationaryProblemT : Type := InstationaryProblem {
  stationary_part : StationaryProblemT;
  initial_data : Function;
  T : R
}.

Definition p : InstationaryProblemT :=
  InstationaryProblem
    (StationaryProblem
       {| interval := (0, 1); left := robin; right := robin |}
       (LincombFunction
          [ExpressionFunction "(x[...,0] <= 0.5) * 1." 1 [];
           ExpressionFunction "(0.5 < x[...,0]) * 1." 1 []]
          [Number 1;
           ProjectionParameterFunctional "diffusion"])
       (ConstantFunction 1 1, ExpressionFunction "(x[...,0] < 1e-10) * 1." 1 [])
       [("l2_boundary", ExpressionFunction "(x[...,0] > (1 - 1e-10)) * 1." 1 [])])
    (ConstantFunction 0 1)
    3.

Definition diameter : R := 1 / 100.
Definition nt : nat := 100.

End HeatProblem.

(** ** The notebook on the parametric heat equation

    The notebook builds a linear time-invariant model [lti] of a heat
    equation with one parameter, plots its norms over the parameter, and
    compares four reductors through the function [reduction_errors] that it
    defines.  The models, the reductors and the plotting library are taken
    as they are called; a call that raises returns [None]. *)

Module Heat.

Inductive ReductorClass : Type :=
| BTReductor
| IRKAReductor
| TSIAReductor
| OneSidedIRKAReductor.

(** The three norm methods of a model. *)
Inductive Norm : Type := h2_norm | hinf_norm | hankel_norm.

(** Keyword arguments, as in [version='V']. *)
Definition Kwargs : Type := list (string * string).

Section Script.

Context {Lti Reductor Num : Type}.

Inductive Call : Type :=
| reductor_call (reductor : ReductorClass) (lti : Lti) (mu : Num) (kwargs : Kwargs)
    (result : option Reductor)
| reduce_call (reductor : Reductor) (r : nat) (rom : option Lti)
| sub_call (lti rom : Lti) (result : option Lti)
| norm_call (norm : Norm) (model : Lti) (mu : Num) (result : option Num)
| freq_resp_call (lti : Lti) (w : list Num) (mu : Num)
    (result : option (list (list (list Num))))
| subplots_call
| plot_call (x y : list Num) (label : string)
| semilogy_call (x y : list Num) (fmt label : string)
| set_xlabel_call (xlabel : string)
| set_title_call (title : string)
| legend_call
| show_call.

(** A cell runs on the calls made so far and returns a value or raises. *)
Definition M (A : Type) : Type := list Call -> option A * list Call.

Definition ret {A : Type} (a : A) : M A := fun t => (Some a, t).

Definition bind {A B : Type} (m : M A) (k : A -> M B) : M B :=
  fun t => match m t with
           | (Some a, t') => k a t'
           | (None, t') => (None, t')
           end.

Definition raise {A : Type} : M A := fun t => (None, t).

Definition log (c : Call) : M unit := fun t => (Some tt, t ++ [c]).

Definition from_option {A : Type} (o : option A) : M A :=
  match o with
  | Some a => ret a
  | None => raise
  end.

(** [for x in xs: state = body(x, state)] *)
Fixpoint for_each {A T : Type} (xs : list A) (body : A -> T -> M T) (state : T) : M T :=
  match xs with
  | [] => ret state
  | x :: xs' => bind (body x state) (for_each xs' body)
  end.

(** [[f(x) for x in xs]] *)
Fixpoint comprehension {A B : Type} (xs : list A) (f : A -> M B) : M (list B) :=
  match xs with
  | [] => ret []
  | x :: xs' => bind (f x) (fun y => bind (comprehension xs' f) (fun ys => ret (y :: ys)))
  end.

End Script.

Arguments Call : clear implicits.
Arguments M : clear implicits.

Declare Scope heat_scope.
Delimit Scope heat_scope with heat.

Notation "x <- m ;; k" := (bind m (fun x => k))
  (at level 61, m at next level, right associativity) : heat_scope.
Notation "m ;;; k" := (bind m (fun _ => k))
  (at level 61, right associativity) : heat_scope.

Section Notebook.

Context {Lti Reductor Num : Type}.

(** [config.HAVE_SLYCOT] *)
Variable HAVE_SLYCOT : bool.

(** Calling a reductor class, [reductor.reduce(r)], [lti - rom], the norm
    methods of a model, the division of two norms, and [np.logspace]. *)
Variable construct : ReductorClass -> Lti -> Num -> Kwargs -> option Reductor.
Variable reduce : Reductor -> nat -> option Lti.
Variable sub : Lti -> Lti -> option Lti.
Variable norm : Norm -> Lti -> Num -> option Num.
Variable truediv : Num -> Num -> option Num.
Variable logspace : Z -> Z -> nat -> list Num.

Local Open Scope heat_scope.

Let Script := M Lti Reductor Num.

Definition do_reductor (reductor : ReductorClass) (lti : Lti) (mu : Num) (kwargs : Kwargs)
  : Script Reductor :=
  let result := construct reductor lti mu kwargs in
  log (reductor_call reductor lti mu kwargs result) ;;; from_option result.

Definition do_reduce (reductor : Reductor) (r : nat) : Script Lti :=
  let rom := reduce reductor r in
  log (reduce_call reductor r rom) ;;; from_option rom.

Definition do_sub (lti rom : Lti) : Script Lti :=
  let result := sub lti rom in
  log (sub_call lti rom result) ;;; from_option result.

Definition do_norm (which : Norm) (model : Lti) (mu : Num) : Script Num :=
  let result := norm which model mu in
  log (norm_call which model mu result) ;;; from_option result.

(** [(lti - rom_mu).norm(mu=mu) / lti.norm(mu=mu)] for one of the norms:
    the left operand is evaluated first. *)
Definition relative_error (which : Norm) (lti rom_mu : Lti) (mu : Num) : Script Num :=
  err <- do_sub lti rom_mu ;;
  a <- do_norm which err mu ;;
  b <- do_norm which lti mu ;;
  from_option (truediv a b).

(** The body of the loop of [reduction_errors]. *)
Definition reduction_errors_step (lti : Lti) (r : nat) (reductor : ReductorClass)
    (kwargs : Kwargs) (mu : Num) (state : list Num * list Num * list Num)
  : Script (list Num * list Num * list Num) :=
  let '(h2_err_mu, hinf_err_mu, hankel_err_mu) := state in
  red <- do_reductor reductor lti mu kwargs ;;
  rom_mu <- do_reduce red r ;;
  e <- relative_error h2_norm lti rom_mu mu ;;
  let h2_err_mu := h2_err_mu ++ [e] in
  hinf_err_mu <- (if HAVE_SLYCOT
                  then e <- relative_error hinf_norm lti rom_mu mu ;;
                       ret (hinf_err_mu ++ [e])
                  else ret hinf_err_mu) ;;
  e <- relative_error hankel_norm lti rom_mu mu ;;
  ret (h2_err_mu, hinf_err_mu, hankel_err_mu ++ [e]).

(** [def reduction_errors(lti, r, mu_fine, reductor, **kwargs)] *)
Definition reduction_errors (lti : Lti) (r : nat) (mu_fine : list Num)
    (reductor : ReductorClass) (kwargs : Kwargs)
  : Script (list Num * list Num * list Num) :=
  let h2_err_mu := [] in
  let hinf_err_mu := [] in
  let hankel_err_mu := [] in
  for_each mu_fine (reduction_errors_step lti r reductor kwargs)
    (h2_err_mu, hinf_err_mu, hankel_err_mu).

(** The relative error of the reduced model for one parameter value, as a
    value: the reductor is constructed and reduces, and the norm of the
    error system is divided by the norm of the model. *)
Definition reduction_error (lti : Lti) (r : nat) (reductor : ReductorClass)
    (kwargs : Kwargs) (which : Norm) (mu : Num) : option Num :=
  match construct reductor lti mu kwargs with
  | Some red =>
    match reduce red r with
    | Some rom_mu =>
      match sub lti rom_mu with
      | Some err =>
        match norm which err mu, norm which lti mu with
        | Some a, Some b => truediv a b
        | _, _ => None
        end
      | None => None
      end
    | None => None
    end
  | None => None
  end.

(** Matplotlib is not in the sources; of [ax.plot(x, y, ...)] and
    [ax.semilogy(x, y, ...)] the model keeps that they raise when [x] and
    [y] have different lengths. *)
Definition do_plot (x y : list Num) (label : string) : Script unit :=
  if (List.length x =? List.length y)%nat then log (plot_call x y label) else raise.

Definition do_semilogy (x y : list Num) (fmt label : string) : Script unit :=
  if (List.length x =? List.length y)%nat then log (semilogy_call x y fmt label) else raise.

(** The cell that plots the three norms of the model over the parameter. *)
Definition system_norms_cell (lti : Lti) : Script unit :=
  log subplots_call ;;;
  let mu_fine := logspace (-1) 1 20 in
  h2_norm_mu <- comprehension mu_fine (fun mu => do_norm h2_norm lti mu) ;;
  do_plot mu_fine h2_norm_mu "$\mathcal{H}_2$-norm" ;;;
  (if HAVE_SLYCOT
   then hinf_norm_mu <- comprehension mu_fine (fun mu => do_norm hinf_norm lti mu) ;;
        do_plot mu_fine hinf_norm_mu "$\mathcal{H}_\infty$-norm"
   else ret tt) ;;;
  hankel_norm_mu <- comprehension mu_fine (fun mu => do_norm hankel_norm lti mu) ;;
  do_plot mu_fine hankel_norm_mu "Hankel norm" ;;;
  log (set_xlabel_call "$\mu$") ;;;
  log (set_title_call "System norms") ;;;
  log legend_call ;;;
  log show_call.

(** The cells that plot the errors of one reductor; they differ in the
    title. *)
Definition errors_plot_cell (mu_fine : list Num) (errors : list Num * list Num * list Num)
    (title : string) : Script unit :=
  let '(h2_err_mu, hinf_err_mu, hankel_err_mu) := errors in
  log subplots_call ;;;
  do_semilogy mu_fine h2_err_mu ".-" "$\mathcal{H}_2$" ;;;
  (if HAVE_SLYCOT
   then do_semilogy mu_fine hinf_err_mu ".-" "$\mathcal{H}_\infty$"
   else ret tt) ;;;
  do_semilogy mu_fine hankel_err_mu ".-" "Hankel" ;;;
  log (set_xlabel_call "$\mu$") ;;;
  log (set_title_call title) ;;;
  log legend_call ;;;
  log show_call.

(** The cells from "Balanced truncation" to "One-sided IRKA": [r] and
    [mu_fine] are set once, and each reductor is followed by its plot. *)
Definition model_reduction_cells (lti : Lti) : Script unit :=
  let r := 5%nat in
  let mu_fine := logspace (-1) 1 10 in
  bt_err_mu <- reduction_errors lti r mu_fine BTReductor [] ;;
  errors_plot_cell mu_fine bt_err_mu "Balanced truncation errors" ;;;
  irka_err_mu <- reduction_errors lti r mu_fine IRKAReductor [] ;;
  errors_plot_cell mu_fine irka_err_mu "IRKA errors" ;;;
  tsia_err_mu <- reduction_errors lti r mu_fine TSIAReductor [] ;;
  errors_plot_cell mu_fine tsia_err_mu "TSIA errors" ;;;
  osirka_err_mu <- reduction_errors lti r mu_fine OneSidedIRKAReductor [("version", "V")] ;;
  errors_plot_cell mu_fine osirka_err_mu "One-sided IRKA errors".

(** [lti.freq_resp(w, mu=mu)] returns matrices, each a list of rows, and
    [spla.norm(..., axis=(1, 2))] the norm of each of these matrices. *)
Variable freq_resp : Lti -> list Num -> Num -> option (list (list (list Num))).
Variable matrix_norm : list (list Num) -> Num.
Variable zero : Num.

Definition do_freq_resp (lti : Lti) (w : list Num) (mu : Num)
  : Script (list (list (list Num))) :=
  let result := freq_resp lti w mu in
  log (freq_resp_call lti w mu result) ;;; from_option result.

(** NumPy is not in the sources.  A two-dimensional array is modelled by
    its shape and its entries, [np.zeros((n, c))] has the entry zero
    everywhere. *)
Record Array2 : Type := {
  nrows : nat;
  ncols : nat;
  entry : nat -> nat -> Num
}.

Definition np_zeros (n c : nat) : Array2 :=
  {| nrows := n; ncols := c; entry := fun _ _ => zero |}.

(** [a[:, i] = v] as NumPy does it: the column must exist; [v] has one
    entry per row, or a single entry that is broadcast to all rows; other
    lengths raise. *)
Definition set_column (a : Array2) (i : nat) (v : list Num) : option Array2 :=
  if (i <? ncols a)%nat then
    if (List.length v =? nrows a)%nat then
      Some {| nrows := nrows a; ncols := ncols a;
              entry := fun j k => if (k =? i)%nat then nth j v zero else entry a j k |}
    else if (List.length v =? 1)%nat then
      Some {| nrows := nrows a; ncols := ncols a;
              entry := fun j k => if (k =? i)%nat then nth 0 v zero else entry a j k |}
    else None
  else None.

(** [enumerate(xs)] from the index [i]. *)
Fixpoint enumerate_from {A : Type} (i : nat) (xs : list A) : list (nat * A) :=
  match xs with
  | [] => []
  | x :: xs' => (i, x) :: enumerate_from (S i) xs'
  end.

(** The cell that fills the matrix of the norms of the frequency response
    over frequency and parameter.  It reads the frequencies from [w], the
    name that the cell of the magnitude plots has set, not from its own
    [w_list]. *)
Definition frequency_response_cell (lti : Lti) (w : list Num) : Script Array2 :=
  let w_list := logspace (-1) 3 100 in
  let mu_list := logspace (-1) 1 20 in
  let lti_w_mu := np_zeros (List.length w_list) (List.length mu_list) in
  for_each (enumerate_from 0 mu_list)
    (fun '(i, mu) lti_w_mu =>
       resp <- do_freq_resp lti w mu ;;
       from_option (set_column lti_w_mu i (map matrix_norm resp)))
    lti_w_mu.

End Notebook.

(** The calls of the H-infinity norm, which need SLYCOT. *)
Definition is_hinf_norm {Lti Reductor Num : Type} (c : Call Lti Reductor Num) : bool :=
  match c with
  | norm_call hinf_norm _ _ _ => true
  | _ => false
  end.

Definition is_reduce {Lti Reductor Num : Type} (c : Call Lti Reductor Num) : bool :=
  match c with
  | reduce_call _ _ _ => true
  | _ => false
  end.

Definition is_sub {Lti Reductor Num : Type} (c : Call Lti Reductor Num) : bool :=
  match c with
  | sub_call _ _ _ => true
  | _ => false
  end.

Definition is_norm {Lti Reductor Num : Type} (c : Call Lti Reductor Num) : bool :=
  match c with
  | norm_call _ _ _ _ => true
  | _ => false
  end.

Definition is_reductor {Lti Reductor Num : Type} (c : Call Lti Reductor Num) : bool :=
  match c with
  | reductor_call _ _ _ _ _ => true
  | _ => false
  end.

(** The number of calls of a kind among the calls made. *)
Definition count {Lti Reductor Num : Type} (p : Call Lti Reductor Num -> bool)
    (t : list (Call Lti Reductor Num)) : nat :=
  List.length (filter p t).

(** [keeps p m]: no run of [m] makes a call of the kind [p]. *)
Definition keeps {Lti Reductor Num A : Type} (p : Call Lti Reductor Num -> bool)
    (m : M Lti Reductor Num A) : Prop :=
  forall t, filter p (snd (m t)) = filter p t.

(** [adds p n m]: a run of [m] that returns makes [n] calls of the kind
    [p]. *)
Definition adds {Lti Reductor Num A : Type} (p : Call Lti Reductor Num -> bool) (n : nat)
    (m : M Lti Reductor Num A) : Prop :=
  forall t a t', m t = (Some a, t') -> count p t' = (count p t + n)%nat.

End Heat.

(** ** A small library for examples of the heat notebook

    A library without SLYCOT: models, reductors and reduced models are
    plain tokens, the H2 and the Hankel norm of every model are 1 and the
    H-infinity norm raises, numbers are natural numbers and division by
    zero raises, [np.logspace] counts from 0, and the frequency response
    at a frequency is the one-by-one matrix of that frequency. *)

Module HeatExample.

Definition construct (reductor : Heat.ReductorClass) (lti : unit) (mu : nat)
    (kwargs : Heat.Kwargs) : option unit := Some tt.
Definition reduce (reductor : unit) (r : nat) : option unit := Some tt.
Definition sub (lti rom : unit) : option unit := Some tt.
Definition norm (which : Heat.Norm) (model : unit) (mu : nat) : option nat :=
  match which with
  | Heat.hinf_norm => None
  | _ => Some 1%nat
  end.
Definition truediv (a b : nat) : option nat :=
  if (b =? 0)%nat then None else Some (a / b)%nat.
Definition logspace (start stop : Z) (num : nat) : list nat := seq 0 num.
Definition freq_resp (lti : unit) (w : list nat) (mu : nat)
  : option (list (list (list nat))) :=
  Some (map (fun f => [[f]]) w).
Definition matrix_norm (m : list (list nat)) : nat :=
  match m with
  | [[f]] => f
  | _ => 0%nat
  end.

End HeatExample.

(** ** The calls of the test loop *)

Section TestRound.

Context {Fom Reductor Rom : Type}.

Variable fom_solve : Fom -> Mu -> Vector.
Variable clock : nat -> R.

(** The calls of one round of the test loop that returns, from clock
    reading number [k]: the first two readings are taken around
    [fom.solve(mu)], the last two around
    [reductor.reconstruct(rom.solve(mu))], which returns the reduced
    coordinates [u_red] and then the vector [u_recon]. *)
Definition round_calls (fom : Fom) (reductor : Reductor) (rom : Rom) (k : nat) (mu : Mu)
    (u_red u_recon : Vector) : list (Call Reductor Rom) :=
  [time_call (clock k);
   fom_solve_call mu (fom_solve fom mu);
   time_call (clock (k + 1));
   time_call (clock (k + 2));
   rom_solve_call rom mu (Some u_red);
   reconstruct_call reductor u_red (Some u_recon);
   time_call (clock (k + 3))].

(** The calls of the rounds over a test set, each round four clock
    readings after the one before. *)
Fixpoint loop_calls (fom : Fom) (reductor : Reductor) (rom : Rom) (k : nat)
    (test_set : list Mu) (coordinates reduced : list Vector) : list (Call Reductor Rom) :=
  match test_set, coordinates, reduced with
  | mu :: test_set', u_red :: coordinates', u_recon :: reduced' =>
    round_calls fom reductor rom k mu u_red u_recon
    ++ loop_calls fom reductor rom (k + 4) test_set' coordinates' reduced'
  | _, _, _ => []
  end.

End TestRound.

(** ** The error cells in binary64

    NumPy computes on binary64 numbers.  The cells that compute the errors
    are written here on the binary64 numbers of the kernel, with NumPy's
    entry-by-entry subtraction and division as the IEEE operations.
    pyMOR's [l2_norm] of a vector and NumPy's summation are not in the
    sources and are taken as they are called. *)

Module Binary64.

Definition Vector : Type := list PrimFloat.float.
Definition VectorArray : Type := list Vector.

Definition vsub (u v : Vector) : Vector := zip_with PrimFloat.sub u v.

Fixpoint same_shape (U V : VectorArray) : bool :=
  match U, V with
  | [], [] => true
  | u :: U', v :: V' => (List.length u =? List.length v)%nat && same_shape U' V'
  | _, _ => false
  end.

(** The number of entries of an array as a binary64 number. *)
Definition count (n : nat) : PrimFloat.float :=
  PrimFloat.of_uint63 (Uint63.of_Z (Z.of_nat n)).

Record Errors : Type := {
  absolute_errors : list PrimFloat.float;
  relative_errors : list PrimFloat.float;
  average_absolute_error : PrimFloat.float;
  average_relative_error : PrimFloat.float
}.

Section ErrorCells.

Variable l2_norm : Vector -> PrimFloat.float.
Variable np_sum : list PrimFloat.float -> PrimFloat.float.

(** [U - V]: arrays of different shapes raise. *)
Definition va_sub (U V : VectorArray) : option VectorArray :=
  if same_shape U V then Some (zip_with vsub U V) else None.

Definition va_l2_norm (U : VectorArray) : list PrimFloat.float := map l2_norm U.

(** [a / b] on arrays of numbers of one length; a zero divisor gives an
    infinity or a NaN and does not raise. *)
Definition np_divide (a b : list PrimFloat.float) : option (list PrimFloat.float) :=
  if (List.length a =? List.length b)%nat
  then Some (zip_with PrimFloat.div a b)
  else None.

(** [np.average(a)]: the sum of the entries over their number. *)
Definition np_average (a : list PrimFloat.float) : PrimFloat.float :=
  PrimFloat.div (np_sum a) (count (List.length a)).

(** The cells [absolute_errors = (U - U_red).l2_norm()],
    [relative_errors = (U - U_red).l2_norm() / U.l2_norm()],
    [np.average(absolute_errors)] and [np.average(relative_errors)]. *)
Definition error_cells (U U_red : VectorArray) : option Errors :=
  match va_sub U U_red with
  | Some D =>
    let absolute_errors := va_l2_norm D in
    match np_divide (va_l2_norm D) (va_l2_norm U) with
    | Some relative_errors =>
      Some {| absolute_errors := absolute_errors;
              relative_errors := relative_errors;
              average_absolute_error := np_average absolute_errors;
              average_relative_error := np_average relative_errors |}
    | None => None
    end
  | None => None
  end.

End ErrorCells.

(** For examples: the norm as the square root of the sum of the squares,
    and the sum, both added up from the left.  On a vector of one entry
    every order of summation gives the same. *)
Definition sum_left (a : list PrimFloat.float) : PrimFloat.float :=
  fold_left PrimFloat.add a PrimFloat.zero.

Definition sqrt_sum_squares (v : Vector) : PrimFloat.float :=
  PrimFloat.sqrt (sum_left (zip_with PrimFloat.mul v v)).

End Binary64.

(** * Theorems *)

(** ** The analytical problem *)

Lemma parse_one_minus_x :
  Expr.parse "1 - x" = Some (Expr.Sub (Expr.Num 1 0) (Expr.Var "x")).
Proof. vm_compute. reflexivity. Qed.

Lemma parse_x : Expr.parse "x" = Some (Expr.Var "x").
Proof. vm_compute. reflexivity. Qed.

Lemma parse_rhs :
  Expr.parse "(x - 0.5)**2 * 1000"
  = Some (Expr.Mul (Expr.Pow (Expr.Sub (Expr.Var "x") (Expr.Num 5 1)) (Expr.Num 2 0))
                   (Expr.Num 1000 0)).
Proof. vm_compute. reflexivity. Qed.

Lemma evaluate_one_minus_x (x : R) (mu : Mu) :
  evaluate (ExpressionFunction "1 - x" 1 []) x mu = Some (1 - x).
Proof.
  cbn [evaluate]. rewrite parse_one_minus_x.
  cbn [Expr.eval Expr.lift2 String.eqb Ascii.eqb Bool.eqb].
  unfold Expr.literal. f_equal. simpl. lra.
Qed.

Lemma evaluate_x (x : R) (mu : Mu) :
  evaluate (ExpressionFunction "x" 1 []) x mu = Some x.
Proof.
  cbn [evaluate]. rewrite parse_x. reflexivity.
Qed.

Lemma evaluate_projection_mu (m : R) :
  evaluate_coefficient (ProjectionParameterFunctional "mu") (mu_of m) = Some m.
Proof. reflexivity. Qed.

(** X1: the right-hand side of the script, in both versions, evaluates at
    every coordinate x and for every parameter value to
    f(x) = 1000 * (x - 0.5)^2, the data function of the problem
    description. *)
Theorem rhs_evaluates_to_f (x : R) (mu : Mu) :
  evaluate (rhs V1.problem) x mu = Some (f_rhs x)
  /\ evaluate V2.f x mu = Some (f_rhs x)
  /\ f_rhs x = 1000 * (x - 0.5) ^ 2.
Proof.
  assert (H : evaluate (ExpressionFunction "(x - 0.5)**2 * 1000" 1 []) x mu
              = Some (f_rhs x)).
  { cbn [evaluate]. rewrite parse_rhs.
    cbn [Expr.eval Expr.lift2 Expr.power String.eqb Ascii.eqb Bool.eqb Z.leb Z.compare].
    unfold Expr.literal, f_rhs. f_equal.
    change (Z.to_nat 2) with 2%nat. simpl. lra. }
  split; [exact H|]. split; [exact H | reflexivity].
Qed.

(** C7: for every coordinate x (so for every x of the domain (0, 1)) and
    every value m of the parameter ['mu'], the diffusion coefficient built
    in the script evaluates to (1 - x) * m + x, the data function sigma of
    the problem description: the parameter functional multiplies the
    [1 - x] term and the coefficient [1.] multiplies the [x] term. *)
Theorem diffusion_evaluates_to_sigma (x m : R) :
  evaluate (diffusion V1.problem) x (mu_of m) = Some (sigma x m)
  /\ sigma x m = (1 - x) * m + x
  /\ evaluate (LincombFunction [ExpressionFunction "1 - x" 1 []]
                               [ProjectionParameterFunctional "mu"]) x (mu_of m)
     = Some (0 + m * (1 - x))
  /\ evaluate (LincombFunction [ExpressionFunction "x" 1 []] [Number 1]) x (mu_of m)
     = Some (0 + 1 * x).
Proof.
  split; [| split; [reflexivity | split]].
  - change (diffusion V1.problem)
      with (LincombFunction [ExpressionFunction "1 - x" 1 []; ExpressionFunction "x" 1 []]
                            [ProjectionParameterFunctional "mu"; Number 1]).
    cbn [evaluate]. rewrite evaluate_projection_mu.
    fold (evaluate (ExpressionFunction "1 - x" 1 []) x (mu_of m)).
    rewrite evaluate_one_minus_x.
    fold (evaluate (ExpressionFunction "x" 1 []) x (mu_of m)).
    rewrite evaluate_x. cbn [evaluate_coefficient].
    unfold sigma. f_equal. ring.
  - cbn [evaluate]. rewrite evaluate_projection_mu.
    fold (evaluate (ExpressionFunction "1 - x" 1 []) x (mu_of m)).
    rewrite evaluate_one_minus_x. reflexivity.
  - cbn [evaluate evaluate_coefficient].
    fold (evaluate (ExpressionFunction "x" 1 []) x (mu_of m)).
    rewrite evaluate_x. reflexivity.
Qed.

(** The two versions of the tutorial write the same analytical data. *)
Lemma versions_same_data :
  analytical_data V1.problem = analytical_data V2.problem.
Proof. reflexivity. Qed.

Lemma versions_same_diameter : V1.diameter = V2.diameter.
Proof. reflexivity. Qed.

Lemma versions_differ_in_name : V1.problem <> V2.problem.
Proof. intro H. apply (f_equal name) in H. discriminate H. Qed.

(** C8: the inline construction of the first version and the step-by-step
    construction of the second give the same problem data: the line domain,
    the right-hand side ['(x - 0.5)**2 * 1000'], the diffusion that combines
    ['1 - x'] and ['x'] with the coefficients ['mu'] and [1.], and zero
    Dirichlet data; both use the mesh diameter 1/100.  The second problem is
    the first with the name ['1DProblem'].  So for every discretizer the
    two models are built from the same data and the same diameter and
    differ at most in what the discretizer makes of the name of the
    problem: they are equal up to the name, and not equal in general. *)
Theorem versions_same_up_to_name {Fom : Type}
    (discretize_stationary_cg : StationaryProblemT -> R -> Fom) :
  analytical_data V1.problem = analytical_data V2.problem
  /\ analytical_data V2.problem
     = (LineDomain,
        ExpressionFunction "(x - 0.5)**2 * 1000" 1 [],
        LincombFunction [ExpressionFunction "1 - x" 1 []; ExpressionFunction "x" 1 []]
                        [ProjectionParameterFunctional "mu"; Number 1],
        ConstantFunction 0 1)
  /\ V1.diameter = V2.diameter
  /\ V1.diameter = 1 / 100
  /\ name V1.problem = None
  /\ name V2.problem = Some "1DProblem"
  /\ V2.problem = with_name (Some "1DProblem") V1.problem
  /\ exists build : LineDomainT * Function * Function * Function -> R -> option string
                    -> Fom,
       (forall p d, discretize_stationary_cg p d = build (analytical_data p) d (name p))
       /\ discretize_stationary_cg V1.problem V1.diameter
          = build (analytical_data V1.problem) (1 / 100) None
       /\ discretize_stationary_cg V2.problem V2.diameter
          = build (analytical_data V1.problem) (1 / 100) (Some "1DProblem").
Proof.
  split; [exact versions_same_data|].
  split; [reflexivity|].
  split; [exact versions_same_diameter|].
  split; [reflexivity|].
  split; [reflexivity|].
  split; [reflexivity|].
  split; [reflexivity|].
  exists (fun data d n =>
            let '(dom, f, sigma, g) := data in
            discretize_stationary_cg (StationaryProblem dom f sigma g n) d).
  split.
  - intros [dom f sigma g n] d. reflexivity.
  - split; reflexivity.
Qed.

(** The models of the two versions under a discretizer that names the
    model after the problem: the same data and diameter, the names
    ['StationaryProblem_CG'] and ['1DProblem_CG'], and so two different
    models. *)
Lemma versions_models_differ :
  Example.discretize_named V1.problem V1.diameter
  = (analytical_data V1.problem, 1 / 100, "StationaryProblem_CG")
  /\ Example.discretize_named V2.problem V2.diameter
     = (analytical_data V1.problem, 1 / 100, "1DProblem_CG")
  /\ Example.discretize_named V1.problem V1.diameter
     <> Example.discretize_named V2.problem V2.diameter.
Proof.
  split; [reflexivity|]. split; [reflexivity|].
  intros H. apply (f_equal snd) in H. discriminate H.
Qed.

(** ** Rules for the call-sequence monitor *)

Section MonitorRules.

Context {Reductor Rom S : Type}.

Abbreviation Assertion := (Protocol Reductor Rom -> Prop).
Abbreviation Script := (M Reductor Rom S).

Lemma triple_ret {A : Type} (P : Assertion) (Q : A -> Assertion) (a : A) :
  (forall s, P s -> Q a s) ->
  triple P (ret a : Script A) Q.
Proof.
  intros HPQ w s Hacc HP. exists s. simpl. auto.
Qed.

Lemma triple_raise {A : Type} (P : Assertion) (Q : A -> Assertion) :
  triple P (raise : Script A) Q.
Proof.
  intros w s Hacc HP. exists s. simpl. auto.
Qed.

Lemma triple_bind {A B : Type} (P : Assertion) (Q : A -> Assertion) (R : B -> Assertion)
    (m : Script A) (k : A -> Script B) :
  triple P m Q ->
  (forall a, triple (Q a) (k a) R) ->
  triple P (bind m k) R.
Proof.
  intros Hm Hk w s Hacc HP. unfold bind.
  destruct (Hm w s Hacc HP) as [s1 [Hacc1 Hq]].
  destruct (m w) as [[a|] w1]; simpl in *.
  - apply (Hk a w1 s1 Hacc1 Hq).
  - exists s1. auto.
Qed.

Lemma triple_log (P : Assertion) (Q : unit -> Assertion) (c : Call Reductor Rom) :
  (forall s, P s -> exists s', protocol_step s c s' /\ Q tt s') ->
  triple P (log c : Script unit) Q.
Proof.
  intros Hstep w s Hacc HP.
  destruct (Hstep s HP) as [s' [Hs HQ]].
  exists s'. simpl. split; [|assumption].
  eapply accepts_snoc; eassumption.
Qed.

(** A call that leaves the monitor where it is. *)
Lemma triple_log_skip (P : Assertion) (c : Call Reductor Rom) :
  (forall s, protocol_step s c s) ->
  triple P (log c : Script unit) (fun _ => P).
Proof.
  intros Hstep. apply triple_log. intros s HP. exists s. split; [apply Hstep | exact HP].
Qed.

Lemma triple_from_option {A : Type} (P : Assertion) (Q : A -> Assertion) (o : option A) :
  (forall a s, o = Some a -> P s -> Q a s) ->
  triple P (from_option o : Script A) Q.
Proof.
  intros HPQ. destruct o as [a|]; simpl.
  - apply triple_ret. intros s HP. apply HPQ; auto.
  - apply triple_raise.
Qed.

(** A loop keeps what every round keeps. *)
Lemma triple_for_each {A T : Type} (Inv : Assertion) (body : A -> T -> Script T)
    (xs : list A) :
  (forall x st, triple Inv (body x st) (fun _ => Inv)) ->
  forall st, triple Inv (for_each xs body st) (fun _ => Inv).
Proof.
  intros Hbody. induction xs as [|x xs IH]; intros st; simpl.
  - apply triple_ret. auto.
  - eapply triple_bind; [apply Hbody|]. intros st'. apply IH.
Qed.

End MonitorRules.

(** What an accepted sequence of calls holds, read off the monitor state:
    the model was returned by an earlier [reduce] that left the reductor
    as the monitor holds it; every recorded value was returned by an
    earlier [solve] of that model; and a reductor was constructed. *)
Lemma accepts_history {Reductor Rom : Type} (t : list (Call Reductor Rom))
    (s : Protocol Reductor Rom) :
  accepts t s ->
  (forall rom, the_rom s = Some rom ->
     exists r0 r', the_reductor s = Some r' /\ In (reduce_call r0 (Some rom) r') t)
  /\ (forall u, In u (reduced_coordinates s) ->
       exists rom mu, the_rom s = Some rom /\ In (rom_solve_call rom mu (Some u)) t)
  /\ (forall r, the_reductor s = Some r ->
       exists tr va l2 a r0, In (reductor_call tr va l2 a r0) t).
Proof.
  induction 1 as [|t s c s' Hacc [IHrom [IHu IHr]] Hstep].
  - repeat split; simpl; intros; try discriminate; contradiction.
  - assert (Hmono : forall x, In x t -> In x (t ++ [c]))
      by (intros x Hx; apply in_or_app; left; exact Hx).
    assert (Hlast : In c (t ++ [c]))
      by (apply in_or_app; right; left; reflexivity).
    inversion Hstep; subst; simpl.
    all: try (repeat split;
              [ intros rom0 Hq; destruct (IHrom rom0 Hq) as (r0 & r1 & Hr & Hin);
                exists r0, r1; auto
              | intros u0 Hq; destruct (IHu u0 Hq) as (rom0 & mu0 & Hr & Hin);
                exists rom0, mu0; auto
              | intros r1 Hq; destruct (IHr r1 Hq) as (tr0 & va0 & l0 & a0 & r0 & Hin);
                exists tr0, va0, l0, a0, r0; auto ]; fail).
    + repeat split; try discriminate; try contradiction.
      intros r1 _. eexists _, _, _, _, _. exact Hlast.
    + repeat split; try contradiction.
      * intros rom0 ->. exists r, r'. auto.
      * intros r1 _. destruct (IHr r H) as (tr0 & va0 & l0 & a0 & r0 & Hin).
        exists tr0, va0, l0, a0, r0. auto.
    + repeat split.
      * intros rom0 H0. destruct (IHrom rom0 H0) as (r0 & r1 & Hr & Hin).
        exists r0, r1. auto.
      * intros u0 H0. destruct u as [u|]; simpl in H0.
        -- destruct H0 as [<- | H0].
           ++ exists rom, mu. auto.
           ++ destruct (IHu u0 H0) as (rom0 & mu0 & Hr & Hin). exists rom0, mu0. auto.
        -- destruct (IHu u0 H0) as (rom0 & mu0 & Hr & Hin). exists rom0, mu0. auto.
      * intros r1 H0. destruct (IHr r1 H0) as (tr0 & va0 & l0 & a0 & r0 & Hin).
        exists tr0, va0, l0, a0, r0. auto.
Qed.

(** The monitor accepts every prefix of what it accepts, and the call
    after a prefix is a step from the state the prefix leads to. *)
Lemma accepts_split {Reductor Rom : Type} (t1 t2 : list (Call Reductor Rom))
    (c : Call Reductor Rom) (s : Protocol Reductor Rom) :
  accepts (t1 ++ c :: t2) s ->
  exists s1 s1', accepts t1 s1 /\ protocol_step s1 c s1'.
Proof.
  revert s. induction t2 as [|d t2 IH] using rev_ind; intros s Hacc.
  - inversion Hacc as [Hnil | t s0 c0 s' Hacc0 Hstep Heq].
    + destruct t1; discriminate.
    + apply app_inj_tail in Heq. destruct Heq as [-> ->].
      exists s0, s. auto.
  - inversion Hacc as [Hnil | t s0 c0 s' Hacc0 Hstep Heq].
    + destruct t1; discriminate.
    + change (t1 ++ c :: t2 ++ [d]) with (t1 ++ (c :: t2) ++ [d]) in Heq.
      rewrite app_assoc in Heq.
      apply app_inj_tail in Heq. destruct Heq as [-> ->].
      apply (IH s0 Hacc0).
Qed.

Section TutorialCalls.

Context {Fom Reductor Rom ParameterSpace RandomState : Type}.

Variable discretize_stationary_cg : StationaryProblemT -> R -> Fom.
Variable fom_solve : Fom -> Mu -> Vector.
Variable space : Fom -> R * R -> ParameterSpace.
Variable sample_uniformly : ParameterSpace -> nat -> list Mu.
Variable sample_randomly : ParameterSpace -> nat -> RandomState -> list Mu * RandomState.
Variable NeuralNetworkReductor : Fom -> list Mu -> list Mu -> R -> AnnMse -> Reductor.
Variable reduce : Reductor -> option Rom * Reductor.
Variable rom_solve : Rom -> Mu -> option Vector.
Variable reconstruct : Reductor -> Vector -> option Vector.
Variable clock : nat -> R.

Abbreviation Assertion := (Protocol Reductor Rom -> Prop).
Abbreviation Script := (M Reductor Rom RandomState).

Lemma triple_time_time (P : Assertion) :
  triple P (time_time clock : Script R) (fun _ => P).
Proof.
  intros w s Hacc HP. exists s. simpl. split; [|assumption].
  eapply accepts_snoc; [eassumption | constructor].
Qed.

Lemma triple_sample_randomly (P : Assertion) (ps : ParameterSpace) (n : nat) :
  triple P (do_sample_randomly sample_randomly ps n : Script (list Mu)) (fun _ => P).
Proof.
  intros w s Hacc HP. exists s. unfold do_sample_randomly.
  destruct (sample_randomly ps n (random_state w)) as [sample rs]. simpl.
  split; [|assumption].
  eapply accepts_snoc; [eassumption | constructor].
Qed.

Lemma triple_sample_uniformly (P : Assertion) (ps : ParameterSpace) (n : nat) :
  triple P (do_sample_uniformly sample_uniformly ps n : Script (list Mu)) (fun _ => P).
Proof.
  unfold do_sample_uniformly.
  eapply triple_bind with (Q := fun _ => P).
  - apply triple_log_skip. constructor.
  - intros _. apply triple_ret. auto.
Qed.

Lemma triple_discretize (P : Assertion) (p : StationaryProblemT) (d : R) :
  triple P (do_discretize discretize_stationary_cg p d : Script Fom) (fun _ => P).
Proof.
  unfold do_discretize.
  eapply triple_bind with (Q := fun _ => P).
  - apply triple_log_skip. constructor.
  - intros _. apply triple_ret. auto.
Qed.

Lemma triple_fom_solve (P : Assertion) (fom : Fom) (mu : Mu) :
  triple P (do_fom_solve fom_solve fom mu : Script Vector) (fun _ => P).
Proof.
  unfold do_fom_solve.
  eapply triple_bind with (Q := fun _ => P).
  - apply triple_log_skip. constructor.
  - intros _. apply triple_ret. auto.
Qed.

Lemma triple_visualize (P : Assertion) (Us : VectorArray) :
  triple P (do_visualize Us : Script unit) (fun _ => P).
Proof.
  apply triple_log_skip. constructor.
Qed.

Lemma triple_py_div (P : Assertion) (a b : R) :
  triple P (py_div a b : Script R) (fun _ => P).
Proof.
  unfold py_div. destruct (Req_dec_T b 0).
  - apply triple_raise.
  - apply triple_ret. auto.
Qed.

(** Constructing the reductor: afterwards the monitor holds it. *)
Lemma triple_reductor (P : Assertion) (fom : Fom) (tr va : list Mu) (l2 : R) (a : AnnMse) :
  triple P (do_reductor NeuralNetworkReductor fom tr va l2 a : Script Reductor)
    (fun r s => the_reductor s = Some r).
Proof.
  unfold do_reductor.
  eapply triple_bind
    with (Q := fun _ s => the_reductor s = Some (NeuralNetworkReductor fom tr va l2 a)).
  - apply triple_log. intros s HP. eexists. split; [constructor | reflexivity].
  - intros _. apply triple_ret. auto.
Qed.

(** [reduce] is made on the constructed reductor; afterwards the monitor
    holds the updated reductor and what [reduce] returned. *)
Lemma triple_reduce (reductor : Reductor) :
  triple (fun s => the_reductor s = Some reductor)
    (do_reduce reduce reductor : Script (option Rom * Reductor))
    (fun r s => reduced_state (snd r) (fst r) s).
Proof.
  unfold do_reduce. destruct (reduce reductor) as [rom reductor'].
  eapply triple_bind with (Q := fun _ s => reduced_state reductor' rom s).
  - apply triple_log. intros s HP. eexists. split.
    + constructor. exact HP.
    + split; reflexivity.
  - intros _. apply triple_ret. auto.
Qed.

(** [rom.solve] is made on the model that [reduce] returned, and the value
    it returns is recorded. *)
Lemma triple_rom_solve (reductor : Reductor) (rom : option Rom) (mu : Mu) :
  triple (reduced_state reductor rom)
    (do_rom_solve rom_solve rom mu : Script Vector)
    (fun u s => reduced_state reductor rom s /\ rom <> None
                /\ In u (reduced_coordinates s)).
Proof.
  unfold do_rom_solve. destruct rom as [r|]; [|apply triple_raise].
  eapply triple_bind
    with (Q := fun _ s => reduced_state reductor (Some r) s
                          /\ forall u, rom_solve r mu = Some u ->
                                       In u (reduced_coordinates s)).
  - apply triple_log. intros s [Hr Hm]. eexists. split.
    + constructor. exact Hm.
    + split; [split; assumption|]. simpl. intros u ->. simpl. auto.
  - intros _. apply triple_from_option. intros u s Hu [Hs Hin].
    split; [exact Hs|]. split; [discriminate|]. apply Hin. exact Hu.
Qed.

(** [reconstruct] is made on the reductor that reduced, with a model
    there, and on a value that [rom.solve] returned. *)
Lemma triple_reconstruct (reductor : Reductor) (rom : option Rom) (u : Vector) :
  triple (fun s => reduced_state reductor rom s /\ rom <> None
                   /\ In u (reduced_coordinates s))
    (do_reconstruct reconstruct reductor u : Script Vector)
    (fun _ => reduced_state reductor rom).
Proof.
  unfold do_reconstruct.
  eapply triple_bind with (Q := fun _ => reduced_state reductor rom).
  - apply triple_log. intros s [[Hr Hm] [Hrom Hin]]. exists s. split.
    + constructor; [assumption | congruence | assumption].
    + split; assumption.
  - intros _. apply triple_from_option. auto.
Qed.

(** One round of the test loop keeps the monitor in the reduced state. *)
Lemma triple_test_step (fom : Fom) (reductor : Reductor) (rom : option Rom) (mu : Mu)
    (state : VectorArray * VectorArray * list R) :
  triple (reduced_state reductor rom)
    (test_step fom_solve rom_solve reconstruct clock fom reductor rom mu state
     : Script (VectorArray * VectorArray * list R))
    (fun _ => reduced_state reductor rom).
Proof.
  unfold test_step. destruct state as [[U U_red] sp].
  eapply triple_bind; [apply triple_time_time|]. intros tic.
  eapply triple_bind; [apply triple_fom_solve|]. intros u.
  eapply triple_bind; [apply triple_time_time|]. intros toc.
  eapply triple_bind; [apply triple_time_time|]. intros tic'.
  eapply triple_bind; [apply triple_rom_solve|]. intros u_red.
  eapply triple_bind; [apply triple_reconstruct|]. intros u_recon.
  eapply triple_bind; [apply triple_time_time|]. intros toc'.
  eapply triple_bind; [apply triple_py_div|]. intros speedup.
  apply triple_ret. auto.
Qed.

(** The whole script, from any state the monitor accepts. *)
Lemma triple_tutorial (problem : StationaryProblemT) (diameter : R) :
  triple (fun _ => True)
    (tutorial discretize_stationary_cg fom_solve space sample_uniformly sample_randomly
       NeuralNetworkReductor reduce rom_solve reconstruct clock problem diameter)
    (fun _ _ => True).
Proof.
  unfold tutorial.
  eapply triple_bind; [apply triple_discretize|]. intros fom.
  eapply triple_bind; [apply triple_sample_uniformly|]. intros training_set.
  eapply triple_bind; [apply triple_sample_randomly|]. intros validation_set.
  eapply triple_bind; [apply triple_reductor|]. intros reductor.
  eapply triple_bind; [apply triple_reduce|]. intros [rom reductor'].
  cbn [fst snd].
  eapply triple_bind; [apply triple_sample_randomly|]. intros sample.
  eapply triple_bind with (Q := fun _ => reduced_state reductor' rom);
    [apply triple_from_option; auto|].
  intros mu.
  eapply triple_bind; [apply triple_fom_solve|]. intros U.
  eapply triple_bind; [apply triple_rom_solve|]. intros U_red.
  eapply triple_bind; [apply triple_reconstruct|]. intros U_red_recon.
  eapply triple_bind; [apply triple_visualize|]. intros [].
  eapply triple_bind; [apply triple_sample_randomly|]. intros test_set.
  eapply triple_bind.
  { apply triple_for_each. intros x st. apply triple_test_step. }
  intros [[U' U_red'] sp].
  eapply triple_bind with (Q := fun _ _ => True);
    [apply triple_from_option; auto|].
  intros [abs rel].
  apply triple_ret. auto.
Qed.

End TutorialCalls.

Section CallSequence.

Context {Fom Reductor Rom ParameterSpace RandomState : Type}.

Variable discretize_stationary_cg : StationaryProblemT -> R -> Fom.
Variable fom_solve : Fom -> Mu -> Vector.
Variable space : Fom -> R * R -> ParameterSpace.
Variable sample_uniformly : ParameterSpace -> nat -> list Mu.
Variable sample_randomly : ParameterSpace -> nat -> RandomState -> list Mu * RandomState.
Variable NeuralNetworkReductor : Fom -> list Mu -> list Mu -> R -> AnnMse -> Reductor.
Variable reduce : Reductor -> option Rom * Reductor.
Variable rom_solve : Rom -> Mu -> option Vector.
Variable reconstruct : Reductor -> Vector -> option Vector.
Variable clock : nat -> R.

(** C9: in every run of the tutorial script, whatever the library returns
    and wherever the run stops, the calls follow the sequence of the
    interface.  Every [reconstruct] is made on the reductor as an earlier
    [reduce] left it, that [reduce] returned a model, and the argument was
    returned by an earlier [solve] of that model; every [rom.solve] is made
    on a model an earlier [reduce] returned; every [reduce] comes after the
    construction of a reductor. *)
Theorem tutorial_call_sequence (problem : StationaryProblemT) (diameter : R)
    (seed : RandomState) :
  let t := trace (snd (tutorial discretize_stationary_cg fom_solve space sample_uniformly
                         sample_randomly NeuralNetworkReductor reduce rom_solve
                         reconstruct clock problem diameter (start_world seed))) in
  (forall t1 r u v t2, t = t1 ++ reconstruct_call r u v :: t2 ->
     exists rom r0 mu, In (reduce_call r0 (Some rom) r) t1
                       /\ In (rom_solve_call rom mu (Some u)) t1)
  /\ (forall t1 rom mu u t2, t = t1 ++ rom_solve_call rom mu u :: t2 ->
        exists r0 r', In (reduce_call r0 (Some rom) r') t1)
  /\ (forall t1 r rom r' t2, t = t1 ++ reduce_call r rom r' :: t2 ->
        exists tr va l2 a r0, In (reductor_call tr va l2 a r0) t1)
  /\ exists s, accepts t s.
Proof.
  intros t.
  assert (Hacc : exists s, accepts t s).
  { destruct (triple_tutorial discretize_stationary_cg fom_solve space sample_uniformly
                sample_randomly NeuralNetworkReductor reduce rom_solve reconstruct clock
                problem diameter (start_world seed) protocol_start) as [s [Hs _]].
    - simpl. constructor.
    - exact I.
    - exists s. exact Hs. }
  destruct Hacc as [s Hacc].
  split; [|split; [|split]].
  - intros t1 r u v t2 Ht. rewrite Ht in Hacc.
    destruct (accepts_split _ _ _ _ Hacc) as (s1 & s1' & Hacc1 & Hstep).
    destruct (accepts_history _ _ Hacc1) as (Hrom & Hu & _).
    inversion Hstep as [| | | | | | s0 r0 u0 v0 Hr Hm Hin | |]; subst.
    destruct (Hu u Hin) as (rom & mu & Hrom1 & Hsolve).
    destruct (Hrom rom Hrom1) as (r0 & r' & Hr' & Hred).
    assert (r' = r) by congruence. subst r'.
    exists rom, r0, mu. auto.
  - intros t1 rom mu u t2 Ht. rewrite Ht in Hacc.
    destruct (accepts_split _ _ _ _ Hacc) as (s1 & s1' & Hacc1 & Hstep).
    destruct (accepts_history _ _ Hacc1) as (Hrom & _ & _).
    inversion Hstep as [| | | | | s0 rom0 mu0 u0 Hm | | |]; subst.
    destruct (Hrom rom Hm) as (r0 & r' & _ & Hred).
    exists r0, r'. exact Hred.
  - intros t1 r rom r' t2 Ht. rewrite Ht in Hacc.
    destruct (accepts_split _ _ _ _ Hacc) as (s1 & s1' & Hacc1 & Hstep).
    destruct (accepts_history _ _ Hacc1) as (_ & _ & Hred).
    inversion Hstep as [| | | s0 r0 rom0 r0' Hr | | | | |]; subst.
    apply (Hred r Hr).
  - exists s. exact Hacc.
Qed.

End CallSequence.

(** ** Vector arrays and the error cells *)

Lemma length_zip_with {A B C : Type} (f : A -> B -> C) (xs : list A) (ys : list B) :
  List.length (zip_with f xs ys) = Nat.min (List.length xs) (List.length ys).
Proof.
  revert ys. induction xs as [|x xs IH]; intros [|y ys]; simpl; auto.
Qed.

Lemma nth_zip_with {A B C : Type} (f : A -> B -> C) (xs : list A) (ys : list B)
    (i : nat) (a : A) (b : B) (c : C) :
  (i < List.length xs)%nat -> (i < List.length ys)%nat ->
  nth i (zip_with f xs ys) c = f (nth i xs a) (nth i ys b).
Proof.
  revert ys i. induction xs as [|x xs IH]; intros [|y ys] [|i] Hx Hy; simpl in *;
    try lia; auto.
  apply IH; lia.
Qed.

Lemma same_shape_length (U V : VectorArray) :
  same_shape U V = true -> List.length U = List.length V.
Proof.
  revert V. induction U as [|u U IH]; intros [|v V] H; simpl in *;
    try discriminate; auto.
  apply andb_true_iff in H. destruct H as [_ H]. f_equal. apply IH. exact H.
Qed.

(** What the error cells return when they return: the two arrays, entry by
    entry. *)
Lemma error_cells_spec (U U_red : VectorArray) (abs rel : list R) :
  error_cells U U_red = Some (abs, rel) ->
  List.length U_red = List.length U
  /\ abs = map l2_norm (zip_with vsub U U_red)
  /\ rel = zip_with Rdiv abs (map l2_norm U)
  /\ List.length abs = List.length U
  /\ List.length rel = List.length U.
Proof.
  unfold error_cells, va_sub, np_divide, va_l2_norm.
  destruct (same_shape U U_red) eqn:Hshape; [|discriminate].
  apply same_shape_length in Hshape.
  destruct (_ =? _)%nat; [|discriminate].
  intros H. injection H as <- <-.
  rewrite !length_zip_with, !length_map, !length_zip_with, <- Hshape, Nat.min_id.
  repeat split; auto using Nat.min_id.
Qed.

(** The error cells return whenever the two arrays have the same shape. *)
Lemma error_cells_total (U U_red : VectorArray) :
  same_shape U U_red = true ->
  exists abs rel, error_cells U U_red = Some (abs, rel).
Proof.
  intros Hshape. unfold error_cells, va_sub, np_divide, va_l2_norm. rewrite Hshape.
  rewrite !length_map, length_zip_with, <- (same_shape_length _ _ Hshape), Nat.min_id.
  rewrite Nat.eqb_refl. eauto.
Qed.

(** ** The error cells in binary64 *)

Section Binary64Errors.

Import PrimFloat.

Variable l2_norm : Binary64.Vector -> float.
Variable np_sum : list float -> float.

Lemma binary64_same_shape_length (U V : Binary64.VectorArray) :
  Binary64.same_shape U V = true -> List.length U = List.length V.
Proof.
  revert V. induction U as [|u U IH]; intros [|v V] H; simpl in *;
    try discriminate; auto.
  apply andb_true_iff in H. destruct H as [_ H]. f_equal. apply IH. exact H.
Qed.

(** C6: the error cells on binary64 numbers.  For arrays [U] and [U_red]
    of one shape the cells return; there is one absolute and one relative
    error per test parameter; the absolute error is the l2 norm of the
    difference of the two solutions, taken entry by entry, and the relative
    error is the binary64 quotient of the absolute error by the l2 norm of
    the full solution, also where that norm is zero; the two averages are
    the sums of these values divided by their number.  Multiplying the
    relative error by the norm again is not part of this: the quotient is
    rounded, and the product gives the absolute error back only up to that
    rounding. *)
Theorem relative_error_is_quotient (U U_red : Binary64.VectorArray) :
  Binary64.same_shape U U_red = true ->
  exists e,
    Binary64.error_cells l2_norm np_sum U U_red = Some e
    /\ List.length (Binary64.absolute_errors e) = List.length U
    /\ List.length (Binary64.relative_errors e) = List.length U
    /\ (forall i, (i < List.length U)%nat ->
          nth i (Binary64.absolute_errors e) zero
          = l2_norm (Binary64.vsub (nth i U []) (nth i U_red []))
          /\ nth i (Binary64.relative_errors e) zero
             = div (nth i (Binary64.absolute_errors e) zero) (l2_norm (nth i U [])))
    /\ Binary64.average_absolute_error e
       = div (np_sum (Binary64.absolute_errors e)) (Binary64.count (List.length U))
    /\ Binary64.average_relative_error e
       = div (np_sum (Binary64.relative_errors e)) (Binary64.count (List.length U)).
Proof.
  intros Hshape.
  pose proof (binary64_same_shape_length _ _ Hshape) as Hlen.
  unfold Binary64.error_cells, Binary64.va_sub, Binary64.np_divide, Binary64.va_l2_norm.
  rewrite Hshape.
  assert (HlenD : List.length (map l2_norm (zip_with Binary64.vsub U U_red))
                  = List.length U).
  { rewrite length_map, length_zip_with, <- Hlen. apply Nat.min_id. }
  rewrite HlenD, length_map, Nat.eqb_refl.
  eexists. split; [reflexivity|].
  cbn [Binary64.absolute_errors Binary64.relative_errors Binary64.average_absolute_error
       Binary64.average_relative_error].
  assert (Habs : forall i, (i < List.length U)%nat ->
            nth i (map l2_norm (zip_with Binary64.vsub U U_red)) zero
            = l2_norm (Binary64.vsub (nth i U []) (nth i U_red []))).
  { intros i Hi.
    rewrite (nth_indep _ zero (l2_norm []))
      by (rewrite length_map, length_zip_with; lia).
    rewrite map_nth. f_equal. apply nth_zip_with; lia. }
  split; [exact HlenD|].
  split; [rewrite length_zip_with, HlenD, length_map; apply Nat.min_id|].
  split.
  - intros i Hi. split; [apply Habs; exact Hi|].
    rewrite (nth_zip_with div _ (map l2_norm U) i zero (l2_norm []) zero)
      by (rewrite ?HlenD, ?length_map; lia).
    rewrite map_nth. reflexivity.
  - unfold Binary64.np_average.
    rewrite HlenD, length_zip_with, HlenD, length_map, Nat.min_id.
    split; reflexivity.
Qed.

End Binary64Errors.

Section Binary64Examples.

Import PrimFloat.

(** Two test parameters with the full solutions (49) and (3, 4) and the
    reduced solutions (48) and (0, 0): the absolute errors are 1 and 5, the
    norms of the full solutions 49 and 5, and the relative errors the
    quotients 1/49 and 1. *)
Lemma relative_error_is_quotient_witness :
  exists e,
    Binary64.error_cells Binary64.sqrt_sum_squares Binary64.sum_left
      [[49%float]; [3%float; 4%float]] [[48%float]; [0%float; 0%float]] = Some e
    /\ Binary64.absolute_errors e = [1%float; 5%float]
    /\ Binary64.relative_errors e = [div 1%float 49%float; 1%float]
    /\ nth 0 (Binary64.relative_errors e) zero
       = div (nth 0 (Binary64.absolute_errors e) zero) (Binary64.sqrt_sum_squares [49%float]).
Proof.
  destruct (relative_error_is_quotient Binary64.sqrt_sum_squares Binary64.sum_left
              [[49%float]; [3%float; 4%float]] [[48%float]; [0%float; 0%float]] eq_refl)
    as (e & Hrun & _ & _ & Hentry & _).
  exists e. split; [exact Hrun|].
  assert (He : Some e = Some {| Binary64.absolute_errors := [1%float; 5%float];
                                Binary64.relative_errors := [div 1%float 49%float; 1%float];
                                Binary64.average_absolute_error := 3%float;
                                Binary64.average_relative_error
                                  := div (add (div 1%float 49%float) 1%float) 2%float |}).
  { rewrite <- Hrun. vm_compute. reflexivity. }
  injection He as He.
  split; [rewrite He; reflexivity|].
  split; [rewrite He; reflexivity|].
  exact (proj2 (Hentry 0%nat ltac:(simpl; lia))).
Defined.

(** The identity of the claim fails on binary64 numbers: for the full
    solution (49) and the reduced solution (48) the norm of the full
    solution is 49, not zero, the absolute error is 1 and the relative
    error is the rounded quotient 1/49, and 1/49 times 49 is not 1. *)
Lemma relative_error_times_norm_fails :
  exists e abs rel,
    Binary64.error_cells Binary64.sqrt_sum_squares Binary64.sum_left
      [[49%float]] [[48%float]] = Some e
    /\ Binary64.absolute_errors e = [abs]
    /\ Binary64.relative_errors e = [rel]
    /\ eqb (Binary64.sqrt_sum_squares [49%float]) zero = false
    /\ eqb (mul rel (Binary64.sqrt_sum_squares [49%float])) abs = false.
Proof.
  eexists. exists 1%float, (div 1%float 49%float).
  split; [vm_compute; reflexivity|].
  split; [vm_compute; reflexivity|].
  split; [vm_compute; reflexivity|].
  split; vm_compute; reflexivity.
Qed.

End Binary64Examples.

(** ** The results of a run *)

Section TutorialResults.

Context {Fom Reductor Rom ParameterSpace RandomState : Type}.

Variable discretize_stationary_cg : StationaryProblemT -> R -> Fom.
Variable fom_solve : Fom -> Mu -> Vector.
Variable space : Fom -> R * R -> ParameterSpace.
Variable sample_uniformly : ParameterSpace -> nat -> list Mu.
Variable sample_randomly : ParameterSpace -> nat -> RandomState -> list Mu * RandomState.
Variable NeuralNetworkReductor : Fom -> list Mu -> list Mu -> R -> AnnMse -> Reductor.
Variable reduce : Reductor -> option Rom * Reductor.
Variable rom_solve : Rom -> Mu -> option Vector.
Variable reconstruct : Reductor -> Vector -> option Vector.
Variable clock : nat -> R.

Abbreviation Script := (M Reductor Rom RandomState).
Abbreviation step := (test_step (RandomState := RandomState)
                        fom_solve rom_solve reconstruct clock).
Abbreviation reduced := (reduced_solution rom_solve reconstruct).

(** One round of the test loop appends the full solution, the
    reconstructed reduced solution and one speedup. *)
Lemma test_step_result (fom : Fom) (reductor : Reductor) (rom : option Rom) (mu : Mu)
    (U U_red : VectorArray) (sp : list R) (w w' : World Reductor Rom RandomState)
    (st' : VectorArray * VectorArray * list R) :
  step fom reductor rom mu (U, U_red, sp) w = (Some st', w') ->
  exists v speedup,
    reduced reductor rom mu = Some v
    /\ st' = (U ++ [fom_solve fom mu], U_red ++ [v], sp ++ [speedup]).
Proof.
  unfold test_step, reduced_solution, do_fom_solve, do_rom_solve, do_reconstruct,
    time_time, py_div, bind, log, ret, raise, from_option.
  destruct rom as [r|]; simpl; [|discriminate].
  destruct (rom_solve r mu) as [c|]; simpl; [|discriminate].
  destruct (reconstruct reductor c) as [v|]; simpl; [|discriminate].
  destruct (Req_dec_T _ 0); simpl; [discriminate|].
  intros H. injection H as <- _. eauto.
Qed.

(** One round returns when the reduced solution is there and the clock
    has moved between the two readings around the reduced solve. *)
Lemma test_step_total (fom : Fom) (reductor : Reductor) (rom : option Rom) (mu : Mu)
    (st : VectorArray * VectorArray * list R) (w : World Reductor Rom RandomState)
    (v : Vector) :
  reduced reductor rom mu = Some v ->
  clock (3 + ticks w) <> clock (2 + ticks w) ->
  exists st' w', step fom reductor rom mu st w = (Some st', w')
                 /\ ticks w' = (4 + ticks w)%nat
                 /\ random_state w' = random_state w.
Proof.
  destruct st as [[U U_red] sp].
  unfold test_step, reduced_solution, do_fom_solve, do_rom_solve, do_reconstruct,
    time_time, py_div, bind, log, ret, raise, from_option.
  destruct rom as [r|]; simpl; [|discriminate].
  destruct (rom_solve r mu) as [c|]; simpl; [|discriminate].
  intros -> Hclock. simpl.
  destruct (Req_dec_T _ 0) as [Heq|Hne]; simpl.
  - exfalso. apply Hclock. lra.
  - eauto.
Qed.

Lemma test_loop_result (fom : Fom) (reductor : Reductor) (rom : option Rom)
    (test_set : list Mu) :
  forall (U U_red : VectorArray) (sp : list R) (w w' : World Reductor Rom RandomState)
         (st' : VectorArray * VectorArray * list R),
    for_each test_set (step fom reductor rom) (U, U_red, sp) w = (Some st', w') ->
    exists vs sps,
      Forall2 (fun mu v => reduced reductor rom mu = Some v) test_set vs
      /\ List.length sps = List.length test_set
      /\ st' = (U ++ map (fom_solve fom) test_set, U_red ++ vs, sp ++ sps).
Proof.
  induction test_set as [|mu test_set IH]; intros U U_red sp w w' st' Hrun.
  - simpl in Hrun. injection Hrun as <- _. exists [], [].
    rewrite !app_nil_r. auto.
  - cbn [for_each] in Hrun. unfold bind in Hrun at 1.
    destruct (step fom reductor rom mu (U, U_red, sp) w) as [[st1|] w1] eqn:Hstep;
      [|discriminate].
    destruct (test_step_result _ _ _ _ _ _ _ _ _ _ Hstep) as (v & s1 & Hv & ->).
    destruct (IH _ _ _ _ _ _ Hrun) as (vs & sps & Hvs & Hlen & ->).
    exists (v :: vs), (s1 :: sps).
    split; [constructor; assumption|].
    split; [simpl; congruence|].
    simpl. rewrite <- !app_assoc. reflexivity.
Qed.

Lemma test_loop_total (fom : Fom) (reductor : Reductor) (rom : option Rom)
    (test_set : list Mu) :
  (forall mu, In mu test_set -> exists v, reduced reductor rom mu = Some v) ->
  (forall n, clock (S n) <> clock n) ->
  forall (st : VectorArray * VectorArray * list R) (w : World Reductor Rom RandomState),
  exists st' w',
    for_each test_set (step fom reductor rom) st w = (Some st', w')
    /\ random_state w' = random_state w.
Proof.
  intros Hred Hclock.
  induction test_set as [|mu test_set IH]; intros st w.
  - simpl. unfold ret. eauto.
  - destruct (Hred mu (or_introl eq_refl)) as [v Hv].
    destruct (test_step_total fom reductor rom mu st w v Hv (Hclock _))
      as (st1 & w1 & Hstep & _ & Hrs).
    destruct (IH (fun m Hm => Hred m (or_intror Hm)) st1 w1) as (st' & w' & Hrun & Hrs').
    exists st', w'. cbn [for_each]. unfold bind at 1. rewrite Hstep.
    split; [exact Hrun | congruence].
Qed.

End TutorialResults.

(** A sequence returns only if its first part returns. *)
Lemma bind_inv {Reductor Rom S A B : Type} (m : M Reductor Rom S A)
    (k : A -> M Reductor Rom S B) (w w' : World Reductor Rom S) (b : B) :
  bind m k w = (Some b, w') ->
  exists a w1, m w = (Some a, w1) /\ k a w1 = (Some b, w').
Proof.
  unfold bind. destruct (m w) as [[a|] w1]; [|discriminate].
  intros H. exists a, w1. auto.
Qed.

Lemma bind_run {Reductor Rom S A B : Type} (m : M Reductor Rom S A)
    (k : A -> M Reductor Rom S B) (w w1 : World Reductor Rom S) (a : A) :
  m w = (Some a, w1) -> bind m k w = k a w1.
Proof.
  unfold bind. intros ->. reflexivity.
Qed.

Lemma from_option_inv {Reductor Rom S A : Type} (o : option A)
    (w w' : World Reductor Rom S) (a : A) :
  from_option o w = (Some a, w') -> o = Some a /\ w' = w.
Proof.
  destruct o; simpl; unfold ret, raise; intros H; inversion H; auto.
Qed.

Section TutorialRun.

Context {Fom Reductor Rom ParameterSpace RandomState : Type}.

Variable discretize_stationary_cg : StationaryProblemT -> R -> Fom.
Variable fom_solve : Fom -> Mu -> Vector.
Variable space : Fom -> R * R -> ParameterSpace.
Variable sample_uniformly : ParameterSpace -> nat -> list Mu.
Variable sample_randomly : ParameterSpace -> nat -> RandomState -> list Mu * RandomState.
Variable NeuralNetworkReductor : Fom -> list Mu -> list Mu -> R -> AnnMse -> Reductor.
Variable reduce : Reductor -> option Rom * Reductor.
Variable rom_solve : Rom -> Mu -> option Vector.
Variable reconstruct : Reductor -> Vector -> option Vector.
Variable clock : nat -> R.

Abbreviation run := (tutorial discretize_stationary_cg fom_solve space sample_uniformly
                       sample_randomly NeuralNetworkReductor reduce rom_solve
                       reconstruct clock).
Abbreviation reduced := (reduced_solution rom_solve reconstruct).
Abbreviation the_fom := (run_fom discretize_stationary_cg).
Abbreviation the_reduce := (run_reduce discretize_stationary_cg space sample_uniformly
                              sample_randomly NeuralNetworkReductor reduce).
Abbreviation State := (World Reductor Rom RandomState).

(** What each call of the script returns, and what it does to the random
    state. *)
Lemma do_discretize_inv (p : StationaryProblemT) (d : R) (w w' : State) (fom : Fom) :
  do_discretize discretize_stationary_cg p d w = (Some fom, w') ->
  fom = discretize_stationary_cg p d /\ random_state w' = random_state w.
Proof.
  unfold do_discretize, bind, log, ret. simpl. intros H. inversion H. auto.
Qed.

Lemma do_sample_uniformly_inv (ps : ParameterSpace) (n : nat) (w w' : State)
    (sample : list Mu) :
  do_sample_uniformly sample_uniformly ps n w = (Some sample, w') ->
  sample = sample_uniformly ps n /\ random_state w' = random_state w.
Proof.
  unfold do_sample_uniformly, bind, log, ret. simpl. intros H. inversion H. auto.
Qed.

Lemma do_sample_randomly_inv (ps : ParameterSpace) (n : nat) (w w' : State)
    (sample : list Mu) :
  do_sample_randomly sample_randomly ps n w = (Some sample, w') ->
  sample = fst (sample_randomly ps n (random_state w))
  /\ random_state w' = snd (sample_randomly ps n (random_state w)).
Proof.
  unfold do_sample_randomly.
  destruct (sample_randomly ps n (random_state w)) as [sm rs].
  intros H. inversion H. auto.
Qed.

Lemma do_reductor_inv (fom : Fom) (tr va : list Mu) (l2 : R) (a : AnnMse)
    (w w' : State) (r : Reductor) :
  do_reductor NeuralNetworkReductor fom tr va l2 a w = (Some r, w') ->
  r = NeuralNetworkReductor fom tr va l2 a /\ random_state w' = random_state w.
Proof.
  unfold do_reductor, bind, log, ret. simpl. intros H. inversion H. auto.
Qed.

Lemma do_reduce_inv (r : Reductor) (w w' : State) (res : option Rom * Reductor) :
  do_reduce reduce r w = (Some res, w') ->
  res = reduce r /\ random_state w' = random_state w.
Proof.
  unfold do_reduce. destruct (reduce r) as [rom r'].
  unfold bind, log, ret. simpl. intros H. inversion H. auto.
Qed.

Lemma do_fom_solve_inv (fom : Fom) (mu : Mu) (w w' : State) (u : Vector) :
  do_fom_solve fom_solve fom mu w = (Some u, w') ->
  u = fom_solve fom mu /\ random_state w' = random_state w.
Proof.
  unfold do_fom_solve, bind, log, ret. simpl. intros H. inversion H. auto.
Qed.

Lemma do_rom_solve_inv (rom : option Rom) (mu : Mu) (w w' : State) (u : Vector) :
  do_rom_solve rom_solve rom mu w = (Some u, w') ->
  (exists r, rom = Some r /\ rom_solve r mu = Some u)
  /\ random_state w' = random_state w.
Proof.
  unfold do_rom_solve. destruct rom as [r|]; [|discriminate].
  unfold bind, log. simpl.
  destruct (rom_solve r mu) as [v|] eqn:Hsolve; simpl; [|discriminate].
  unfold ret. intros H. inversion H. subst. split; eauto.
Qed.

Lemma do_reconstruct_inv (r : Reductor) (u : Vector) (w w' : State) (v : Vector) :
  do_reconstruct reconstruct r u w = (Some v, w') ->
  reconstruct r u = Some v /\ random_state w' = random_state w.
Proof.
  unfold do_reconstruct, bind, log. simpl.
  destruct (reconstruct r u) as [v'|]; simpl; [|discriminate].
  unfold ret. intros H. inversion H. subst. auto.
Qed.

Lemma do_visualize_inv (Us : VectorArray) (w w' : State) (x : unit) :
  do_visualize Us w = (Some x, w') -> random_state w' = random_state w.
Proof.
  unfold do_visualize, log. intros H. inversion H. reflexivity.
Qed.

(** The calls of the script return when the library returns. *)
Lemma do_discretize_run (p : StationaryProblemT) (d : R) (w : State) :
  exists w', do_discretize discretize_stationary_cg p d w
             = (Some (discretize_stationary_cg p d), w')
             /\ random_state w' = random_state w.
Proof. eexists. split; reflexivity. Qed.

Lemma do_sample_uniformly_run (ps : ParameterSpace) (n : nat) (w : State) :
  exists w', do_sample_uniformly sample_uniformly ps n w
             = (Some (sample_uniformly ps n), w')
             /\ random_state w' = random_state w.
Proof. eexists. split; reflexivity. Qed.

Lemma do_sample_randomly_run (ps : ParameterSpace) (n : nat) (w : State) :
  exists w', do_sample_randomly sample_randomly ps n w
             = (Some (fst (sample_randomly ps n (random_state w))), w')
             /\ random_state w' = snd (sample_randomly ps n (random_state w)).
Proof.
  unfold do_sample_randomly.
  destruct (sample_randomly ps n (random_state w)) as [sm rs].
  eexists. split; reflexivity.
Qed.

Lemma do_reductor_run (fom : Fom) (tr va : list Mu) (l2 : R) (a : AnnMse) (w : State) :
  exists w', do_reductor NeuralNetworkReductor fom tr va l2 a w
             = (Some (NeuralNetworkReductor fom tr va l2 a), w')
             /\ random_state w' = random_state w.
Proof. eexists. split; reflexivity. Qed.

Lemma do_reduce_run (r : Reductor) (w : State) :
  exists w', do_reduce reduce r w = (Some (reduce r), w')
             /\ random_state w' = random_state w.
Proof.
  unfold do_reduce. destruct (reduce r) as [rom r'].
  eexists. split; reflexivity.
Qed.

Lemma do_fom_solve_run (fom : Fom) (mu : Mu) (w : State) :
  exists w', do_fom_solve fom_solve fom mu w = (Some (fom_solve fom mu), w')
             /\ random_state w' = random_state w.
Proof. eexists. split; reflexivity. Qed.

(** [reconstruct(rom.solve(mu))] in the script returns the reduced
    solution when there is one. *)
Lemma do_reduced_run {B : Type} (r : Reductor) (rom : option Rom) (mu : Mu) (v : Vector)
    (k : Vector -> M Reductor Rom RandomState B) (w : State) :
  reduced r rom mu = Some v ->
  exists w', bind (do_rom_solve rom_solve rom mu)
               (fun u => bind (do_reconstruct reconstruct r u) k) w
             = k v w'
             /\ random_state w' = random_state w.
Proof.
  unfold reduced_solution, do_rom_solve, do_reconstruct.
  destruct rom as [m|]; [|discriminate].
  destruct (rom_solve m mu) as [u|]; [|discriminate].
  intros Hv. unfold bind, log, from_option, ret. simpl. rewrite Hv.
  eexists. split; reflexivity.
Qed.

Lemma same_shape_reduced (fom : Fom) (r : Reductor) (rom : option Rom)
    (test_set : list Mu) (vs : VectorArray) :
  Forall2 (fun mu v => reduced r rom mu = Some v) test_set vs ->
  (forall mu v, reduced r rom mu = Some v ->
                List.length v = List.length (fom_solve fom mu)) ->
  same_shape (map (fom_solve fom) test_set) vs = true.
Proof.
  intros Hvs Hdim. induction Hvs as [|mu v test_set vs Hv Hvs IH]; simpl.
  - reflexivity.
  - rewrite IH, andb_true_r. apply Nat.eqb_eq. symmetry. apply Hdim. exact Hv.
Qed.

(** The script returns when the clock moves between two readings,
    [reduce] returns a model, the reduced model and [reconstruct] return
    vectors of the dimension of the full solutions, and drawing one
    parameter gives one. *)
Lemma tutorial_total (problem : StationaryProblemT) (diameter : R) (w : State) :
  (forall n, clock (S n) <> clock n) ->
  (forall mu, exists v,
      reduced (snd (the_reduce problem diameter (random_state w)))
              (fst (the_reduce problem diameter (random_state w))) mu = Some v
      /\ List.length v = List.length (fom_solve (the_fom problem diameter) mu)) ->
  (forall rs, fst (sample_randomly (space (the_fom problem diameter) (0.1, 1)) 1 rs)
              <> []) ->
  exists res w', run problem diameter w = (Some res, w').
Proof.
  unfold run_reduce, run_fom. intros Hclock Hred Hdraw.
  set (fom := discretize_stationary_cg problem diameter) in *.
  set (ps := space fom (0.1, 1)) in *.
  unfold tutorial.
  destruct (do_discretize_run problem diameter w) as (w1 & H1 & Hrs1).
  rewrite (bind_run _ _ _ _ _ H1). fold fom. fold ps.
  destruct (do_sample_uniformly_run ps 100 w1) as (w2 & H2 & Hrs2).
  rewrite (bind_run _ _ _ _ _ H2).
  destruct (do_sample_randomly_run ps 20 w2) as (w3 & H3 & Hrs3).
  rewrite (bind_run _ _ _ _ _ H3).
  rewrite Hrs2, Hrs1.
  destruct (do_reductor_run fom (sample_uniformly ps 100)
              (fst (sample_randomly ps 20 (random_state w))) (1 / 100000)
              (ann_mse_tol (1 / 100000)) w3) as (w4 & H4 & Hrs4).
  rewrite (bind_run _ _ _ _ _ H4).
  destruct (do_reduce_run (NeuralNetworkReductor fom (sample_uniformly ps 100)
              (fst (sample_randomly ps 20 (random_state w))) (1 / 100000)
              (ann_mse_tol (1 / 100000))) w4) as (w5 & H5 & Hrs5).
  rewrite (bind_run _ _ _ _ _ H5).
  destruct (reduce _) as [rom r] eqn:Hreduce. cbn [fst snd] in Hred.
  destruct (do_sample_randomly_run ps 1 w5) as (w6 & H6 & Hrs6).
  rewrite (bind_run _ _ _ _ _ H6).
  destruct (fst (sample_randomly ps 1 (random_state w5))) as [|mu sample] eqn:Hsample.
  { exfalso. apply (Hdraw (random_state w5)). exact Hsample. }
  cbn [nth_error from_option]. unfold bind at 1, ret at 1.
  destruct (do_fom_solve_run fom mu w6) as (w7 & H7 & Hrs7).
  rewrite (bind_run _ _ _ _ _ H7).
  destruct (Hred mu) as (v & Hv & _).
  match goal with
  | |- context [bind (do_rom_solve rom_solve rom mu)
                  (fun u => bind (do_reconstruct reconstruct r u) ?k) ?w0] =>
    destruct (do_reduced_run r rom mu v k w0 Hv) as (w8 & H8 & Hrs8)
  end.
  rewrite H8. unfold bind at 1, do_visualize at 1, log at 1.
  match goal with
  | |- context [bind (do_sample_randomly sample_randomly ps 10) ?k ?w0] =>
    destruct (do_sample_randomly_run ps 10 w0) as (w9 & H9 & Hrs9);
    rewrite (bind_run _ k _ _ _ H9)
  end.
  set (test_set := fst (sample_randomly ps 10 _)) in *.
  assert (Hall : forall m, In m test_set -> exists u, reduced r rom m = Some u).
  { intros m _. destruct (Hred m) as (u & Hu & _). exists u. exact Hu. }
  destruct (test_loop_total fom_solve rom_solve reconstruct clock fom r rom test_set
              Hall Hclock ([], [], []) w9) as (st' & w10 & Hloop & _).
  rewrite (bind_run _ _ _ _ _ Hloop).
  destruct st' as [[U' U_red'] sp].
  destruct (test_loop_result _ _ _ _ _ _ _ _ _ _ _ _ _ _ Hloop) as (vs & sps & Hvs & _ & Heq).
  injection Heq as -> -> ->. cbn [app].
  destruct (error_cells_total (map (fom_solve fom) test_set) vs) as (abs & rel & Herr).
  { apply (same_shape_reduced fom r rom); [exact Hvs|].
    intros m u Hu. destruct (Hred m) as (u' & Hu' & Hlen). congruence. }
  rewrite Herr. cbn [from_option]. unfold bind at 1, ret.
  eauto.
Qed.

End TutorialRun.

Lemma example_clock_moves (n : nat) : Example.clock (S n) <> Example.clock n.
Proof.
  unfold Example.clock. rewrite S_INR. lra.
Qed.

(** The example library runs the script to its end. *)
Lemma example_run_returns :
  exists res w', example_run (start_world tt) = (Some res, w').
Proof.
  apply tutorial_total.
  - exact example_clock_moves.
  - intros mu. exists (mu_to_numpy mu). split; reflexivity.
  - intros rs. discriminate.
Qed.

(** ** The reductor: the training runs *)

Section ReductorTraining.

Variable train : Reductor.Samples -> Reductor.Samples -> nat -> NeuralNetwork.
Variables (target : option R) (training_data validation_data : Reductor.Samples).

Abbreviation trained := (train training_data validation_data).
Abbreviation runs := (Reductor.training_runs train target training_data validation_data).
Abbreviation meets := (fun net => Reductor.fulfils target net training_data).
Abbreviation val := (fun net => Reductor.mse net validation_data).

Lemma better_le_new (net : NeuralNetwork) (best : option NeuralNetwork) :
  val (Reductor.better net best validation_data) <= val net.
Proof.
  unfold Reductor.better. destruct best as [b|]; [|lra].
  destruct (Rlt_dec _ _); lra.
Qed.

Lemma better_le_old (net b : NeuralNetwork) :
  val (Reductor.better net (Some b) validation_data) <= val b.
Proof.
  unfold Reductor.better. destruct (Rlt_dec _ _); lra.
Qed.

Lemma better_is (net : NeuralNetwork) (best : option NeuralNetwork) :
  Reductor.better net best validation_data = net
  \/ best = Some (Reductor.better net best validation_data).
Proof.
  unfold Reductor.better. destruct best as [b|]; [|auto].
  destruct (Rlt_dec _ _); auto.
Qed.

(** The runs are made one after the other, from [run] on, and stop at the
    first network that fulfils the tolerance or when no restart is left. *)
Lemma training_runs_found (k : nat) :
  forall (run : nat) (best : option NeuralNetwork),
    match runs run k best with
    | (Some net, _, steps) =>
      exists j, (j <= k)%nat
                /\ net = trained (run + j)
                /\ meets net = true
                /\ (forall i, (i < j)%nat -> meets (trained (run + i)) = false)
                /\ steps = map Reductor.train_step (seq run (S j))
    | (None, _, steps) =>
      (forall i, (i <= k)%nat -> meets (trained (run + i)) = false)
      /\ steps = map Reductor.train_step (seq run (S k))
    end.
Proof.
  induction k as [|k IH]; intros run best; cbn [Reductor.training_runs].
  - destruct (Reductor.fulfils target (trained run) training_data) eqn:Hmeet.
    + exists 0%nat. rewrite Nat.add_0_r.
      split; [lia|]. split; [reflexivity|]. split; [exact Hmeet|].
      split; [intros i Hi; lia | reflexivity].
    + split; [|reflexivity]. intros i Hi. assert (i = 0)%nat by lia. subst.
      rewrite Nat.add_0_r. exact Hmeet.
  - destruct (Reductor.fulfils target (trained run) training_data) eqn:Hmeet.
    + exists 0%nat. rewrite Nat.add_0_r.
      split; [lia|]. split; [reflexivity|]. split; [exact Hmeet|].
      split; [intros i Hi; lia | reflexivity].
    + specialize (IH (S run)
                     (Some (Reductor.better (trained run) best validation_data))).
      destruct (runs (S run) k _) as [[[net|] b] steps].
      * destruct IH as (j & Hj & Hnet & Hm & Hbefore & Hsteps).
        exists (S j). rewrite <- Nat.add_succ_comm.
        split; [lia|]. split; [exact Hnet|]. split; [exact Hm|]. split.
        -- intros [|i] Hi; [rewrite Nat.add_0_r; exact Hmeet|].
           rewrite <- Nat.add_succ_comm. apply Hbefore. lia.
        -- rewrite Hsteps. reflexivity.
      * destruct IH as (Hnone & Hsteps). split.
        -- intros [|i] Hi; [rewrite Nat.add_0_r; exact Hmeet|].
           rewrite <- Nat.add_succ_comm. apply Hnone. lia.
        -- rewrite Hsteps. reflexivity.
Qed.

(** The network kept as the best is at least as good on the validation
    set as every network trained and as the one kept before, and it is one
    of these. *)
Lemma training_runs_best (k : nat) :
  forall (run : nat) (best : option NeuralNetwork),
    let '(_, b, steps) := runs run k best in
    let n := List.length steps in
    (forall i, (i < n)%nat -> val b <= val (trained (run + i)))
    /\ (forall b0, best = Some b0 -> val b <= val b0)
    /\ ((exists i, (i < n)%nat /\ b = trained (run + i)) \/ best = Some b).
Proof.
  induction k as [|k IH]; intros run best; cbn [Reductor.training_runs].
  - assert (Hone : forall i, (i < 1)%nat -> i = 0%nat) by (intros; lia).
    destruct (Reductor.fulfils target (trained run) training_data); cbn [List.length];
      (split; [intros i Hi; rewrite (Hone i Hi), Nat.add_0_r; apply better_le_new|];
       split; [intros b0 ->; apply better_le_old|];
       destruct (better_is (trained run) best) as [Hb|Hb]; [left|right; exact Hb];
       exists 0%nat; rewrite Nat.add_0_r; split; [lia | exact Hb]).
  - destruct (Reductor.fulfils target (trained run) training_data).
    + assert (Hone : forall i, (i < 1)%nat -> i = 0%nat) by (intros; lia).
      cbn [List.length].
      split; [intros i Hi; rewrite (Hone i Hi), Nat.add_0_r; apply better_le_new|].
      split; [intros b0 ->; apply better_le_old|].
      destruct (better_is (trained run) best) as [Hb|Hb]; [left|right; exact Hb].
      exists 0%nat. rewrite Nat.add_0_r. split; [lia | exact Hb].
    + specialize (IH (S run)
                     (Some (Reductor.better (trained run) best validation_data))).
      destruct (runs (S run) k _) as [[found b] steps].
      cbn [List.length]. cbv zeta in IH. destruct IH as (Hall & Hold & Hwhich).
      specialize (Hold _ eq_refl).
      split; [|split].
      * intros [|i] Hi.
        -- rewrite Nat.add_0_r.
           eapply Rle_trans; [exact Hold | apply better_le_new].
        -- rewrite <- Nat.add_succ_comm. apply Hall. lia.
      * intros b0 ->. eapply Rle_trans; [exact Hold | apply better_le_old].
      * destruct Hwhich as [(i & Hi & Hb) | Hb].
        -- left. exists (S i). rewrite <- Nat.add_succ_comm. split; [lia | exact Hb].
        -- injection Hb as Hb.
           destruct (better_is (trained run) best) as [Hnew|Hkept].
           ++ left. exists 0%nat. rewrite Nat.add_0_r. split; [lia | congruence].
           ++ right. congruence.
Qed.

End ReductorTraining.

(** ** The reductor: [reduce] and [reconstruct] *)

Section ReductorReduce.

Context {Fom : Type}.

Variable solve : Fom -> Mu -> Vector.
Variable pod : VectorArray -> R -> VectorArray * R.
Variable train : Reductor.Samples -> Reductor.Samples -> nat -> NeuralNetwork.
Variable restarts : nat.

Abbreviation ReductorT := (Reductor.ReductorT (Fom := Fom)).
Abbreviation reduce_steps := (Reductor.reduce_steps solve pod train restarts).
Abbreviation reduce := (Reductor.reduce solve pod train restarts).
Abbreviation snapshots := (Reductor.snapshots solve).
Abbreviation pod_basis := (Reductor.pod_basis solve pod).
Abbreviation mse_basis := (Reductor.mse_basis solve pod).
Abbreviation training_data := (Reductor.training_data solve pod).
Abbreviation validation_data := (Reductor.validation_data solve pod).
Abbreviation trained_on :=
  (fun r : ReductorT => train (training_data r) (validation_data r)).
Abbreviation training_runs_of :=
  (fun r : ReductorT =>
     Reductor.training_runs train (Reductor.tolerance r (mse_basis r))
       (training_data r) (validation_data r) 0 restarts None).

(** [reduce] written out: the steps of the first stage, then those of the
    second; the reductor keeps the basis and everything else it held. *)
Lemma reduce_steps_unfold (r : ReductorT) :
  reduce_steps r
  = (option_map (fun n => {| Reductor.neural_network := n |})
       (match Reductor.tolerance r (mse_basis r) with
        | Some _ => fst (fst (training_runs_of r))
        | None => Some (snd (fst (training_runs_of r)))
        end),
     {| Reductor.fom := Reductor.fom r;
        Reductor.training_set := Reductor.training_set r;
        Reductor.validation_set := Reductor.validation_set r;
        Reductor.l2_err := Reductor.l2_err r;
        Reductor.ann_mse := Reductor.ann_mse r;
        Reductor.reduced_basis := Some (pod_basis r) |},
     (map Reductor.solve_step (Reductor.training_set r)
        ++ [Reductor.pod_step (snapshots r)])
     ++ (map Reductor.solve_step (Reductor.validation_set r)
           ++ snd (training_runs_of r))).
Proof.
  unfold Reductor.reduce_steps, Reductor.build_basis, Reductor.train_network,
    Reductor.pod_basis, Reductor.mse_basis, Reductor.training_data,
    Reductor.validation_data, Reductor.pod_basis.
  destruct (pod (snapshots r) (Reductor.l2_err r)) as [basis mseb]. cbn [fst snd].
  destruct (Reductor.training_runs _ _ _ _ _ _ _) as [[found best] runs].
  reflexivity.
Qed.

(** The number of training runs: at least one, at most one more than the
    restarts. *)
Lemma training_runs_count (target : option R) (td vd : Reductor.Samples) (k : nat) :
  forall run best,
    exists n, (1 <= n <= S k)%nat
              /\ snd (Reductor.training_runs train target td vd run k best)
                 = map Reductor.train_step (seq run n).
Proof.
  intros run best.
  pose proof (training_runs_found train target td vd k run best) as H.
  destruct (Reductor.training_runs train target td vd run k best) as [[[net|] b] steps].
  - destruct H as (j & Hj & _ & _ & _ & ->). exists (S j). split; [lia | reflexivity].
  - destruct H as (_ & ->). exists (S k). split; [lia | reflexivity].
Qed.

(** A returned network is one of those trained. *)
Lemma training_runs_returned (r : ReductorT) (net : NeuralNetwork) :
  match Reductor.tolerance r (mse_basis r) with
  | Some _ => fst (fst (training_runs_of r))
  | None => Some (snd (fst (training_runs_of r)))
  end = Some net ->
  exists j, (j < List.length (snd (training_runs_of r)))%nat /\ net = trained_on r j.
Proof.
  pose proof (training_runs_found train (Reductor.tolerance r (mse_basis r))
                (training_data r) (validation_data r) restarts 0 None) as Hfound.
  pose proof (training_runs_best train (Reductor.tolerance r (mse_basis r))
                (training_data r) (validation_data r) restarts 0 None) as Hbest.
  destruct (training_runs_of r) as [[found best] steps]. cbn [fst snd].
  destruct (Reductor.tolerance r (mse_basis r)) as [tol|]; intros Hnet.
  - subst found. destruct Hfound as (j & Hj & -> & _ & _ & ->).
    exists j. rewrite length_map, length_seq. split; [lia | reflexivity].
  - injection Hnet as ->. cbv zeta in Hbest.
    destruct Hbest as (_ & _ & [(i & Hi & ->) | Hnone]); [|discriminate].
    exists i. auto.
Qed.

(** C2: [reduce] on a reductor constructed from the model, the training
    set and the validation set makes two stages, in this order.  First the
    snapshots of the training parameters are solved for and POD extracts
    the reduced basis from them.  Then the validation parameters are solved
    for and between one and [restarts + 1] networks are trained in a row,
    on samples that pair each parameter with the coefficients of its
    solution in the reduced basis.  The returned model holds one of the
    networks trained, the reductor keeps the basis, and reconstructing a
    solution of the returned model is the linear combination of that basis
    with the output of that network. *)
Theorem reduce_two_stages (fom : Fom) (training_set validation_set : list Mu)
    (l2_err : R) (ann_mse : AnnMse) :
  let r := Reductor.NeuralNetworkReductor fom training_set validation_set l2_err ann_mse in
  let rom := fst (fst (reduce_steps r)) in
  let r' := snd (fst (reduce_steps r)) in
  let steps := snd (reduce_steps r) in
  exists n, (1 <= n <= S restarts)%nat
    /\ steps = (map Reductor.solve_step training_set
                  ++ [Reductor.pod_step (map (solve fom) training_set)])
               ++ (map Reductor.solve_step validation_set
                     ++ map Reductor.train_step (seq 0 n))
    /\ Reductor.reduced_basis r' = Some (fst (pod (map (solve fom) training_set) l2_err))
    /\ training_data r
       = map (fun mu => (mu, inner (pod_basis r) (solve fom mu))) training_set
    /\ validation_data r
       = map (fun mu => (mu, inner (pod_basis r) (solve fom mu))) validation_set
    /\ (forall m, rom = Some m ->
          exists j, (j < n)%nat
            /\ Reductor.neural_network m = train (training_data r) (validation_data r) j
            /\ forall mu,
                 Reductor.reconstruct r' (Reductor.rom_solve m mu)
                 = lincomb (pod_basis r)
                     (forward (train (training_data r) (validation_data r) j)
                              (mu_to_numpy mu))).
Proof.
  intros r rom r' steps. subst rom r' steps.
  rewrite (reduce_steps_unfold r). cbn [fst snd].
  destruct (training_runs_count (Reductor.tolerance r (mse_basis r)) (training_data r)
              (validation_data r) restarts 0 None) as (n & Hn & Hsteps).
  exists n. split; [exact Hn|].
  split; [rewrite Hsteps; reflexivity|].
  split; [reflexivity|].
  split; [reflexivity|].
  split; [reflexivity|].
  intros m Hm.
  destruct (match Reductor.tolerance r (mse_basis r) with
            | Some _ => fst (fst (training_runs_of r))
            | None => Some (snd (fst (training_runs_of r)))
            end) as [net|] eqn:Hnet; [|discriminate].
  injection Hm as <-.
  destruct (training_runs_returned r net Hnet) as (j & Hj & ->).
  rewrite Hsteps, length_map, length_seq in Hj.
  exists j. split; [exact Hj|]. split; reflexivity.
Qed.

End ReductorReduce.

Lemma fulfils_tolerance (tol : R) (net : NeuralNetwork) (td : Reductor.Samples) :
  Reductor.fulfils (Some tol) net td = true <-> Reductor.mse net td <= tol.
Proof.
  unfold Reductor.fulfils. destruct (Rle_dec _ _); split; auto; discriminate.
Qed.

Lemma misses_tolerance (tol : R) (net : NeuralNetwork) (td : Reductor.Samples) :
  Reductor.fulfils (Some tol) net td = false <-> tol < Reductor.mse net td.
Proof.
  unfold Reductor.fulfils. destruct (Rle_dec _ _); split; intros H;
    try discriminate; try reflexivity; lra.
Qed.

Section ReductorOutcome.

Context {Fom : Type}.

Variable solve : Fom -> Mu -> Vector.
Variable pod : VectorArray -> R -> VectorArray * R.
Variable train : Reductor.Samples -> Reductor.Samples -> nat -> NeuralNetwork.
Variable restarts : nat.

Abbreviation reduce_steps := (Reductor.reduce_steps solve pod train restarts).
Abbreviation reduce := (Reductor.reduce solve pod train restarts).
Abbreviation training_data := (Reductor.training_data solve pod).
Abbreviation validation_data := (Reductor.validation_data solve pod).
Abbreviation mse_basis := (Reductor.mse_basis solve pod).
Abbreviation first_stage :=
  (fun (fom : Fom) (training_set : list Mu) =>
     map Reductor.solve_step training_set
       ++ [Reductor.pod_step (map (solve fom) training_set)]).

(** C3: with a prescribed tolerance [tol] for the mean squared error, the
    training stops at the first network that meets the tolerance: if run
    [j] is the first one among the first training and the [restarts]
    restarts whose network has a mean squared error of at most [tol], then
    [reduce] returns the model of that network and has made the runs 0 to
    [j] and no more.  If no run up to the last restart meets the tolerance,
    all runs are made and [reduce] returns no model.  So a returned model
    always meets the tolerance, and no model is returned exactly when no
    network meets it. *)
Theorem reduce_with_tolerance (fom : Fom) (training_set validation_set : list Mu)
    (l2_err tol : R) :
  let r := Reductor.NeuralNetworkReductor fom training_set validation_set l2_err
             (ann_mse_tol tol) in
  let td := training_data r in
  let net := train td (validation_data r) in
  (forall j, (j <= restarts)%nat ->
     Reductor.mse (net j) td <= tol ->
     (forall i, (i < j)%nat -> tol < Reductor.mse (net i) td) ->
     fst (reduce r) = Some {| Reductor.neural_network := net j |}
     /\ snd (reduce_steps r)
        = first_stage fom training_set
          ++ (map Reductor.solve_step validation_set
                ++ map Reductor.train_step (seq 0 (S j))))
  /\ ((forall j, (j <= restarts)%nat -> tol < Reductor.mse (net j) td) ->
      fst (reduce r) = None
      /\ snd (reduce_steps r)
         = first_stage fom training_set
           ++ (map Reductor.solve_step validation_set
                 ++ map Reductor.train_step (seq 0 (S restarts))))
  /\ (forall m, fst (reduce r) = Some m ->
        Reductor.mse (Reductor.neural_network m) td <= tol)
  /\ (fst (reduce r) = None ->
      forall j, (j <= restarts)%nat -> tol < Reductor.mse (net j) td).
Proof.
  intros r td net. unfold Reductor.reduce.
  rewrite (reduce_steps_unfold solve pod train restarts r). cbn [fst snd].
  change (Reductor.tolerance r (mse_basis r)) with (Some tol).
  pose proof (training_runs_found train (Some tol) td (validation_data r) restarts 0 None)
    as Hfound.
  fold td.
  destruct (Reductor.training_runs train (Some tol) td (validation_data r) 0 restarts None)
    as [[found best] steps]. cbn [fst snd].
  split; [|split; [|split]].
  - intros j Hj Hmeets Hbefore.
    destruct found as [n|].
    + destruct Hfound as (j' & Hj' & -> & Hm & Hmiss & ->).
      simpl in Hm, Hmiss. apply fulfils_tolerance in Hm.
      assert (j' = j).
      { destruct (Nat.lt_trichotomy j' j) as [Hlt | [Heq | Hgt]]; [|exact Heq|].
        - specialize (Hbefore j' Hlt). fold net in Hm. lra.
        - specialize (Hmiss j Hgt). apply misses_tolerance in Hmiss.
          fold net in Hmiss. lra. }
      subst j'. split; reflexivity.
    + destruct Hfound as (Hmiss & _). specialize (Hmiss j Hj).
      apply misses_tolerance in Hmiss. simpl in Hmiss. fold net in Hmiss. lra.
  - intros Hnone. destruct found as [n|].
    + destruct Hfound as (j' & Hj' & -> & Hm & _ & _).
      apply fulfils_tolerance in Hm. specialize (Hnone j' Hj').
      simpl in Hm. fold net in Hm. lra.
    + destruct Hfound as (_ & ->). split; reflexivity.
  - intros m Hm. destruct found as [n|]; [|discriminate].
    injection Hm as <-. cbn [Reductor.neural_network].
    destruct Hfound as (j' & _ & _ & Hm & _ & _).
    apply fulfils_tolerance in Hm. exact Hm.
  - intros Hnone j Hj. destruct found as [n|]; [discriminate|].
    destruct Hfound as (Hmiss & _). specialize (Hmiss j Hj).
    apply misses_tolerance in Hmiss. exact Hmiss.
Qed.

(** C5: with [ann_mse = None], [reduce] returns a model whatever the
    model, the sets, the POD routine and the training give.  The first
    training and all the restarts are made, each network from its own run
    (its own initial weights), and the returned network is the one among
    them with the smallest mean squared error on the validation samples. *)
Theorem reduce_without_tolerance (fom : Fom) (training_set validation_set : list Mu)
    (l2_err : R) :
  let r := Reductor.NeuralNetworkReductor fom training_set validation_set l2_err
             ann_mse_None in
  let vd := validation_data r in
  let net := train (training_data r) vd in
  exists j, (j <= restarts)%nat
    /\ fst (reduce r) = Some {| Reductor.neural_network := net j |}
    /\ (forall i, (i <= restarts)%nat ->
          Reductor.mse (net j) vd <= Reductor.mse (net i) vd)
    /\ snd (reduce_steps r)
       = first_stage fom training_set
         ++ (map Reductor.solve_step validation_set
               ++ map Reductor.train_step (seq 0 (S restarts))).
Proof.
  intros r vd net. unfold Reductor.reduce.
  rewrite (reduce_steps_unfold solve pod train restarts r). cbn [fst snd].
  change (Reductor.tolerance r (mse_basis r)) with (@None R).
  pose proof (training_runs_found train None (training_data r) vd restarts 0 None)
    as Hfound.
  pose proof (training_runs_best train None (training_data r) vd restarts 0 None)
    as Hbest.
  fold vd.
  destruct (Reductor.training_runs train None (training_data r) vd 0 restarts None)
    as [[found best] steps]. cbn [fst snd option_map].
  destruct found as [n|].
  { destruct Hfound as (j & _ & _ & Hm & _). discriminate Hm. }
  destruct Hfound as (_ & ->).
  cbv zeta in Hbest. rewrite length_map, length_seq in Hbest.
  destruct Hbest as (Hall & _ & [(j & Hj & ->) | Hnone]); [|discriminate].
  exists j. split; [lia|]. split; [reflexivity|]. split; [|reflexivity].
  intros i Hi. apply (Hall i). lia.
Qed.

End ReductorOutcome.

Lemma example_mse (w : R) :
  Reductor.mse (Example.network w) [(mu_of 1, [0 + 1 * 1])] = (w - 1) * (w - 1).
Proof.
  unfold Reductor.mse, np_average, Reductor.squared_error, forward, dot_product, rsum.
  simpl. unfold dot_product, rsum. simpl. field.
Qed.

(** On the example library with two restarts and the tolerance 1e-5: the
    training that fits at run 1 returns the model of that run, and the
    training that never fits returns no model. *)
Lemma reduce_with_tolerance_witness :
  fst (Reductor.reduce Example.fom_solve Example.pod Example.train 2
         (Reductor.NeuralNetworkReductor tt [mu_of 1] [mu_of 1] (1 / 100000)
            (ann_mse_tol (1 / 100000))))
  = Some {| Reductor.neural_network := Example.network 1 |}
  /\ fst (Reductor.reduce Example.fom_solve Example.pod Example.train_zero 2
            (Reductor.NeuralNetworkReductor tt [mu_of 1] [mu_of 1] (1 / 100000)
               (ann_mse_tol (1 / 100000))))
     = None.
Proof.
  split.
  - destruct (reduce_with_tolerance Example.fom_solve Example.pod Example.train 2 tt
                [mu_of 1] [mu_of 1] (1 / 100000) (1 / 100000)) as (Hfirst & _).
    apply (Hfirst 1%nat).
    + lia.
    + change (Reductor.mse (Example.network 1) [(mu_of 1, [0 + 1 * 1])] <= 1 / 100000).
      rewrite example_mse. lra.
    + intros i Hi. assert (i = 0)%nat by lia. subst i.
      change (1 / 100000 < Reductor.mse (Example.network 0) [(mu_of 1, [0 + 1 * 1])]).
      rewrite example_mse. lra.
  - destruct (reduce_with_tolerance Example.fom_solve Example.pod Example.train_zero 2 tt
                [mu_of 1] [mu_of 1] (1 / 100000) (1 / 100000)) as (_ & Hnone & _).
    apply Hnone. intros j Hj.
    change (1 / 100000 < Reductor.mse (Example.network 0) [(mu_of 1, [0 + 1 * 1])]).
    rewrite example_mse. lra.
Defined.

(** ** A run in which [reduce] returns no model *)

Section WithoutModel.

Context {Fom Reductor Rom ParameterSpace RandomState : Type}.

Variable discretize_stationary_cg : StationaryProblemT -> R -> Fom.
Variable fom_solve : Fom -> Mu -> Vector.
Variable space : Fom -> R * R -> ParameterSpace.
Variable sample_uniformly : ParameterSpace -> nat -> list Mu.
Variable sample_randomly : ParameterSpace -> nat -> RandomState -> list Mu * RandomState.
Variable NeuralNetworkReductor : Fom -> list Mu -> list Mu -> R -> AnnMse -> Reductor.
Variable rom_solve : Rom -> Mu -> option Vector.
Variable reconstruct : Reductor -> Vector -> option Vector.
Variable clock : nat -> R.

(** X2: when [reduce] returns no model, whatever it does to the reductor,
    the script stops before the first [rom.solve]: the run returns nothing,
    [reduce] was called and returned no model, and neither [rom.solve] nor
    [reconstruct] is called in the run. *)
Theorem tutorial_without_model (update : Reductor -> Reductor)
    (problem : StationaryProblemT) (diameter : R) (seed : RandomState) :
  let out := tutorial discretize_stationary_cg fom_solve space sample_uniformly
               sample_randomly NeuralNetworkReductor (fun r => (None, update r))
               rom_solve reconstruct clock problem diameter (start_world seed) in
  fst out = None
  /\ (forall rom mu u, ~ In (rom_solve_call rom mu u) (trace (snd out)))
  /\ (forall r u v, ~ In (reconstruct_call r u v) (trace (snd out)))
  /\ exists r, In (reduce_call r None (update r)) (trace (snd out)).
Proof.
  unfold tutorial, do_discretize, do_sample_uniformly, do_sample_randomly, do_reductor,
    do_reduce, do_fom_solve, do_rom_solve, bind, log, ret, raise, start_world.
  cbn [trace ticks random_state app].
  destruct (sample_randomly _ 20 seed) as [va rs1].
  cbn [trace ticks random_state app].
  destruct (sample_randomly _ 1 rs1) as [sample rs2].
  destruct sample as [|mu sample]; cbn [nth_error from_option trace ticks random_state
                                        app fst snd];
    unfold raise, ret; cbn [fst snd trace app].
  - split; [reflexivity|].
    split; [intros rom mu u Hin; simpl in Hin; intuition discriminate|].
    split; [intros r u v Hin; simpl in Hin; intuition discriminate|].
    eexists. simpl. do 4 right. left. reflexivity.
  - split; [reflexivity|].
    split; [intros rom mu0 u Hin; simpl in Hin; intuition discriminate|].
    split; [intros r u v Hin; simpl in Hin; intuition discriminate|].
    eexists. simpl. do 4 right. left. reflexivity.
Qed.

End WithoutModel.

(** ** Linear combinations, entry by entry *)

Lemma nth_vadd_scal (acc b : Vector) (c : R) (j : nat) :
  List.length b = List.length acc ->
  (j < List.length acc)%nat ->
  nth j (vadd acc (scal c b)) 0 = nth j acc 0 + c * nth j b 0.
Proof.
  intros Hlen Hj. unfold vadd, scal.
  rewrite (nth_zip_with Rplus acc (map (Rmult c) b) j 0 (c * 0) 0)
    by (rewrite ?length_map; lia).
  rewrite map_nth. reflexivity.
Qed.

Lemma length_vadd_scal (acc b : Vector) (c : R) :
  List.length b = List.length acc ->
  List.length (vadd acc (scal c b)) = List.length acc.
Proof.
  intros Hlen. unfold vadd, scal. rewrite length_zip_with, length_map. lia.
Qed.

(** The accumulated linear combination is, in every entry, the sum over
    the basis vectors of coefficient times the entry of the vector, when
    all vectors have the dimension of the accumulator. *)
Lemma lincomb_from_entry (basis : VectorArray) :
  forall (coefficients : list R) (acc : Vector) (j : nat),
    (forall b, In b basis -> List.length b = List.length acc) ->
    (j < List.length acc)%nat ->
    nth j (lincomb_from acc basis coefficients) 0
    = nth j acc 0 + lincomb_entry basis coefficients j.
Proof.
  induction basis as [|b basis IH]; intros coefficients acc j Hdim Hj.
  - simpl. ring.
  - destruct coefficients as [|c coefficients]; simpl; [ring|].
    assert (Hb : List.length b = List.length acc) by (apply Hdim; left; reflexivity).
    rewrite IH.
    + rewrite nth_vadd_scal by assumption. ring.
    + intros b' Hb'. rewrite length_vadd_scal by assumption. apply Hdim. right. exact Hb'.
    + rewrite length_vadd_scal by assumption. exact Hj.
Qed.

Lemma nth_zero_vector (dim j : nat) : nth j (zero_vector dim) 0 = 0.
Proof.
  unfold zero_vector. revert j. induction dim as [|dim IH]; intros [|j]; simpl; auto.
Qed.

(** [lincomb] returns the linear combination: with one coefficient per
    basis vector and basis vectors of one dimension, entry [j] of the
    result is the sum of coefficient times entry [j] of the basis vector. *)
Lemma lincomb_is_sum (basis : VectorArray) (coefficients : list R) (j : nat) :
  List.length basis = List.length coefficients ->
  (forall b, In b basis -> List.length b = va_dim basis) ->
  (j < va_dim basis)%nat ->
  exists v, lincomb basis coefficients = Some v
            /\ nth j v 0 = lincomb_entry basis coefficients j.
Proof.
  intros Hlen Hdim Hj. unfold lincomb. rewrite Hlen, Nat.eqb_refl.
  eexists. split; [reflexivity|].
  rewrite lincomb_from_entry.
  - rewrite nth_zero_vector. ring.
  - intros b Hb. unfold zero_vector. rewrite repeat_length. apply Hdim. exact Hb.
  - unfold zero_vector. rewrite repeat_length. exact Hj.
Qed.

(** ** The speedups and the errors of a run *)

Section TutorialInversion.

Context {Fom Reductor Rom ParameterSpace RandomState : Type}.

Variable discretize_stationary_cg : StationaryProblemT -> R -> Fom.
Variable fom_solve : Fom -> Mu -> Vector.
Variable space : Fom -> R * R -> ParameterSpace.
Variable sample_uniformly : ParameterSpace -> nat -> list Mu.
Variable sample_randomly : ParameterSpace -> nat -> RandomState -> list Mu * RandomState.
Variable NeuralNetworkReductor : Fom -> list Mu -> list Mu -> R -> AnnMse -> Reductor.
Variable reduce : Reductor -> option Rom * Reductor.
Variable rom_solve : Rom -> Mu -> option Vector.
Variable reconstruct : Reductor -> Vector -> option Vector.
Variable clock : nat -> R.

Abbreviation run := (tutorial discretize_stationary_cg fom_solve space sample_uniformly
                       sample_randomly NeuralNetworkReductor reduce rom_solve
                       reconstruct clock).
Abbreviation step := (test_step (RandomState := RandomState)
                        fom_solve rom_solve reconstruct clock).
Abbreviation reduced := (reduced_solution rom_solve reconstruct).
Abbreviation the_fom := (run_fom discretize_stationary_cg).
Abbreviation the_reduce := (run_reduce discretize_stationary_cg space sample_uniformly
                              sample_randomly NeuralNetworkReductor reduce).
Abbreviation the_single_sample :=
  (run_single_sample discretize_stationary_cg space sample_randomly).
Abbreviation the_test_set := (run_test_set discretize_stationary_cg space sample_randomly).
Abbreviation State := (World Reductor Rom RandomState).

(** Only [time.time()] advances the count of clock readings. *)
Lemma log_ticks (c : Call Reductor Rom) (w w' : State) (x : unit) :
  log c w = (Some x, w') -> ticks w' = ticks w.
Proof. unfold log. intros H. inversion H. reflexivity. Qed.

Lemma do_discretize_ticks (p : StationaryProblemT) (d : R) (w w' : State) (fom : Fom) :
  do_discretize discretize_stationary_cg p d w = (Some fom, w') -> ticks w' = ticks w.
Proof. unfold do_discretize, bind, log, ret. simpl. intros H. inversion H. auto. Qed.

Lemma do_sample_uniformly_ticks (ps : ParameterSpace) (n : nat) (w w' : State)
    (sample : list Mu) :
  do_sample_uniformly sample_uniformly ps n w = (Some sample, w') -> ticks w' = ticks w.
Proof. unfold do_sample_uniformly, bind, log, ret. simpl. intros H. inversion H. auto. Qed.

Lemma do_sample_randomly_ticks (ps : ParameterSpace) (n : nat) (w w' : State)
    (sample : list Mu) :
  do_sample_randomly sample_randomly ps n w = (Some sample, w') -> ticks w' = ticks w.
Proof.
  unfold do_sample_randomly.
  destruct (sample_randomly ps n (random_state w)) as [sm rs].
  intros H. inversion H. auto.
Qed.

Lemma do_reductor_ticks (fom : Fom) (tr va : list Mu) (l2 : R) (a : AnnMse)
    (w w' : State) (r : Reductor) :
  do_reductor NeuralNetworkReductor fom tr va l2 a w = (Some r, w') -> ticks w' = ticks w.
Proof. unfold do_reductor, bind, log, ret. simpl. intros H. inversion H. auto. Qed.

Lemma do_reduce_ticks (r : Reductor) (w w' : State) (res : option Rom * Reductor) :
  do_reduce reduce r w = (Some res, w') -> ticks w' = ticks w.
Proof.
  unfold do_reduce. destruct (reduce r) as [rom r'].
  unfold bind, log, ret. simpl. intros H. inversion H. auto.
Qed.

Lemma do_fom_solve_ticks (fom : Fom) (mu : Mu) (w w' : State) (u : Vector) :
  do_fom_solve fom_solve fom mu w = (Some u, w') -> ticks w' = ticks w.
Proof. unfold do_fom_solve, bind, log, ret. simpl. intros H. inversion H. auto. Qed.

Lemma do_rom_solve_ticks (rom : option Rom) (mu : Mu) (w w' : State) (u : Vector) :
  do_rom_solve rom_solve rom mu w = (Some u, w') -> ticks w' = ticks w.
Proof.
  unfold do_rom_solve. destruct rom as [r|]; [|discriminate].
  unfold bind, log. simpl.
  destruct (rom_solve r mu) as [v|]; simpl; [|discriminate].
  unfold ret. intros H. inversion H. auto.
Qed.

Lemma do_reconstruct_ticks (r : Reductor) (u : Vector) (w w' : State) (v : Vector) :
  do_reconstruct reconstruct r u w = (Some v, w') -> ticks w' = ticks w.
Proof.
  unfold do_reconstruct, bind, log. simpl.
  destruct (reconstruct r u) as [v'|]; simpl; [|discriminate].
  unfold ret. intros H. inversion H. auto.
Qed.

(** A run that returns, cell by cell: the objects it worked on, the single
    test, the loop over the test set and the error cells. *)
Lemma tutorial_inv (problem : StationaryProblemT) (diameter : R)
    (w w' : State) (res : Results) :
  run problem diameter w = (Some res, w') ->
  let fom := the_fom problem diameter in
  let rom := fst (the_reduce problem diameter (random_state w)) in
  let reductor := snd (the_reduce problem diameter (random_state w)) in
  exists (mu : Mu) (v : Vector) (w1 : State),
    nth_error (fst (the_single_sample problem diameter (random_state w))) 0 = Some mu
    /\ reduced reductor rom mu = Some v
    /\ ticks w1 = ticks w
    /\ for_each (the_test_set problem diameter (random_state w)) (step fom reductor rom)
         ([], [], []) w1
       = (Some (U_full res, U_reduced res, speedups res), w')
    /\ error_cells (U_full res) (U_reduced res)
       = Some (absolute_errors res, relative_errors res)
    /\ average_absolute_error res = np_average (absolute_errors res)
    /\ average_relative_error res = np_average (relative_errors res)
    /\ median_speedup res = np_median (speedups res).
Proof.
  unfold tutorial, run_test_set, run_single_sample, run_reduce, run_fom. intros Hrun.
  apply bind_inv in Hrun as (fom & w1 & H1 & Hrun).
  pose proof (do_discretize_ticks _ _ _ _ _ H1) as Ht1.
  apply do_discretize_inv in H1 as [-> Hrs1].
  apply bind_inv in Hrun as (tr & w2 & H2 & Hrun).
  pose proof (do_sample_uniformly_ticks _ _ _ _ _ H2) as Ht2.
  apply do_sample_uniformly_inv in H2 as [-> Hrs2].
  apply bind_inv in Hrun as (va & w3 & H3 & Hrun).
  pose proof (do_sample_randomly_ticks _ _ _ _ _ H3) as Ht3.
  apply do_sample_randomly_inv in H3 as [-> Hrs3].
  apply bind_inv in Hrun as (r & w4 & H4 & Hrun).
  pose proof (do_reductor_ticks _ _ _ _ _ _ _ _ H4) as Ht4.
  apply do_reductor_inv in H4 as [-> Hrs4].
  apply bind_inv in Hrun as ([rom r'] & w5 & H5 & Hrun).
  pose proof (do_reduce_ticks _ _ _ _ H5) as Ht5.
  apply do_reduce_inv in H5 as [Hred Hrs5].
  apply bind_inv in Hrun as (sample & w6 & H6 & Hrun).
  pose proof (do_sample_randomly_ticks _ _ _ _ _ H6) as Ht6.
  apply do_sample_randomly_inv in H6 as [-> Hrs6].
  apply bind_inv in Hrun as (mu & w7 & H7 & Hrun).
  apply from_option_inv in H7 as [Hmu ->].
  apply bind_inv in Hrun as (U & w8 & H8 & Hrun).
  pose proof (do_fom_solve_ticks _ _ _ _ _ H8) as Ht8.
  apply do_fom_solve_inv in H8 as [-> Hrs8].
  apply bind_inv in Hrun as (U_red & w9 & H9 & Hrun).
  pose proof (do_rom_solve_ticks _ _ _ _ _ H9) as Ht9.
  apply do_rom_solve_inv in H9 as [(m & -> & Hsolve) Hrs9].
  apply bind_inv in Hrun as (U_rec & w10 & H10 & Hrun).
  pose proof (do_reconstruct_ticks _ _ _ _ _ H10) as Ht10.
  apply do_reconstruct_inv in H10 as [Hrec Hrs10].
  apply bind_inv in Hrun as (x & w11 & H11 & Hrun).
  pose proof (log_ticks _ _ _ _ H11) as Ht11.
  apply do_visualize_inv in H11 as Hrs11.
  apply bind_inv in Hrun as (test_set & w12 & H12 & Hrun).
  pose proof (do_sample_randomly_ticks _ _ _ _ _ H12) as Ht12.
  apply do_sample_randomly_inv in H12 as [Htest Hrs12].
  apply bind_inv in Hrun as ([[U' U_red'] sp] & w13 & Hloop & Hrun).
  apply bind_inv in Hrun as ([abs rel] & w14 & Herr & Hrun).
  apply from_option_inv in Herr as [Herr ->].
  unfold ret in Hrun. injection Hrun as <- <-.
  cbn [U_full U_reduced speedups absolute_errors relative_errors average_absolute_error
       average_relative_error median_speedup].
  rewrite Hrs2, Hrs1 in *. rewrite <- Hred. cbn [fst snd].
  rewrite Hrs11, Hrs10, Hrs9, Hrs8, Hrs6, Hrs5, Hrs4, Hrs3 in Htest.
  exists mu, U_rec, w12.
  split; [rewrite <- Hrs3, <- Hrs4, <- Hrs5; exact Hmu|].
  split; [unfold reduced_solution; rewrite Hsolve; exact Hrec|].
  split; [congruence|].
  split; [rewrite <- Htest; exact Hloop|].
  repeat split; auto.
Qed.

(** One round of the test loop reads the clock four times; the speedup it
    appends is the time around the full solve over the time around the
    reduced solve, and the round returns only if the latter is not zero. *)
Lemma test_step_speedup (fom : Fom) (reductor : Reductor) (rom : option Rom) (mu : Mu)
    (U U_red : VectorArray) (sp : list R) (w w' : State)
    (st' : VectorArray * VectorArray * list R) :
  step fom reductor rom mu (U, U_red, sp) w = (Some st', w') ->
  ticks w' = (4 + ticks w)%nat
  /\ clock (3 + ticks w)%nat <> clock (2 + ticks w)%nat
  /\ snd st' = sp ++ [(clock (1 + ticks w)%nat - clock (ticks w))
                      / (clock (3 + ticks w)%nat - clock (2 + ticks w)%nat)].
Proof.
  unfold test_step, do_fom_solve, do_rom_solve, do_reconstruct,
    time_time, py_div, bind, log, ret, raise, from_option.
  destruct rom as [r|]; simpl; [|discriminate].
  destruct (rom_solve r mu) as [c|]; simpl; [|discriminate].
  destruct (reconstruct reductor c) as [v|]; simpl; [|discriminate].
  destruct (Req_dec_T _ 0) as [Heq|Hne]; simpl; [discriminate|].
  intros H. injection H as <- <-. simpl.
  split; [reflexivity|]. split; [|reflexivity].
  intros Hclock. apply Hne. rewrite Hclock. ring.
Qed.

Lemma test_loop_speedups (fom : Fom) (reductor : Reductor) (rom : option Rom)
    (test_set : list Mu) :
  forall (U U_red : VectorArray) (sp : list R) (w w' : State)
         (st' : VectorArray * VectorArray * list R),
    for_each test_set (step fom reductor rom) (U, U_red, sp) w = (Some st', w') ->
    ticks w' = (ticks w + 4 * List.length test_set)%nat
    /\ (forall i, (i < List.length test_set)%nat ->
          clock (ticks w + 4 * i + 3)%nat <> clock (ticks w + 4 * i + 2)%nat)
    /\ snd st' = sp ++ map (measured_speedup clock (ticks w))
                         (seq 0 (List.length test_set)).
Proof.
  induction test_set as [|mu test_set IH]; intros U U_red sp w w' st' Hrun.
  - simpl in Hrun. injection Hrun as <- <-. simpl.
    rewrite app_nil_r. repeat split; [lia | intros i Hi; lia].
  - cbn [for_each] in Hrun. apply bind_inv in Hrun as ([[U1 U_red1] sp1] & w1 & Hstep & Hrun).
    destruct (test_step_speedup _ _ _ _ _ _ _ _ _ _ Hstep) as (Ht & Hclock & Hsp).
    destruct (IH _ _ _ _ _ _ Hrun) as (Ht' & Hclock' & Hsp').
    cbn [snd] in Hsp. subst sp1. cbn [List.length].
    split; [lia|]. split.
    + intros [|i] Hi.
      * replace (ticks w + 4 * 0 + 3)%nat with (3 + ticks w)%nat by lia.
        replace (ticks w + 4 * 0 + 2)%nat with (2 + ticks w)%nat by lia.
        exact Hclock.
      * specialize (Hclock' i ltac:(lia)). rewrite Ht in Hclock'.
        replace (ticks w + 4 * S i + 3)%nat with (4 + ticks w + 4 * i + 3)%nat by lia.
        replace (ticks w + 4 * S i + 2)%nat with (4 + ticks w + 4 * i + 2)%nat by lia.
        exact Hclock'.
    + rewrite Hsp', <- app_assoc. f_equal. cbn [seq map app]. f_equal.
      * unfold measured_speedup.
        replace (ticks w + 4 * 0 + 1)%nat with (1 + ticks w)%nat by lia.
        replace (ticks w + 4 * 0 + 3)%nat with (3 + ticks w)%nat by lia.
        replace (ticks w + 4 * 0 + 2)%nat with (2 + ticks w)%nat by lia.
        replace (ticks w + 4 * 0)%nat with (ticks w) by lia.
        reflexivity.
      * rewrite <- seq_shift, map_map. apply map_ext. intros i.
        unfold measured_speedup. rewrite Ht.
        replace (4 + ticks w + 4 * i + 1)%nat with (ticks w + 4 * S i + 1)%nat by lia.
        replace (4 + ticks w + 4 * i + 3)%nat with (ticks w + 4 * S i + 3)%nat by lia.
        replace (4 + ticks w + 4 * i + 2)%nat with (ticks w + 4 * S i + 2)%nat by lia.
        replace (4 + ticks w + 4 * i)%nat with (ticks w + 4 * S i)%nat by lia.
        reflexivity.
Qed.

(** The calls of one round of the test loop: the clock, the full solve,
    the clock twice, the reduced solve, the reconstruction, the clock. *)
Lemma test_step_calls (fom : Fom) (reductor : Reductor) (r : Rom) (mu : Mu)
    (U U_red : VectorArray) (sp : list R) (w w' : State)
    (st' : VectorArray * VectorArray * list R) :
  step fom reductor (Some r) mu (U, U_red, sp) w = (Some st', w') ->
  exists c v,
    trace w' = trace w ++ round_calls fom_solve clock fom reductor r (ticks w) mu c v
    /\ snd (fst st') = U_red ++ [v].
Proof.
  unfold test_step, do_fom_solve, do_rom_solve, do_reconstruct,
    time_time, py_div, bind, log, ret, raise, from_option.
  simpl.
  destruct (rom_solve r mu) as [c|]; simpl; [|discriminate].
  destruct (reconstruct reductor c) as [v|]; simpl; [|discriminate].
  destruct (Req_dec_T _ 0) as [Heq|Hne]; simpl; [discriminate|].
  intros H. injection H as <- <-. exists c, v. simpl.
  split; [|reflexivity].
  unfold round_calls. rewrite <- !app_assoc. simpl.
  replace (ticks w + 1)%nat with (S (ticks w)) by lia.
  replace (ticks w + 2)%nat with (S (S (ticks w))) by lia.
  replace (ticks w + 3)%nat with (S (S (S (ticks w)))) by lia.
  reflexivity.
Qed.

Lemma test_loop_calls (fom : Fom) (reductor : Reductor) (r : Rom) (test_set : list Mu) :
  forall (U U_red : VectorArray) (sp : list R) (w w' : State)
         (st' : VectorArray * VectorArray * list R),
    for_each test_set (step fom reductor (Some r)) (U, U_red, sp) w = (Some st', w') ->
    exists cs vs,
      List.length cs = List.length test_set
      /\ List.length vs = List.length test_set
      /\ snd (fst st') = U_red ++ vs
      /\ trace w' = trace w ++ loop_calls fom_solve clock fom reductor r (ticks w)
                                test_set cs vs.
Proof.
  induction test_set as [|mu test_set IH]; intros U U_red sp w w' st' Hrun.
  - simpl in Hrun. unfold ret in Hrun. injection Hrun as <- <-.
    exists [], []. simpl. rewrite !app_nil_r. auto.
  - cbn [for_each] in Hrun.
    apply bind_inv in Hrun as ([[U1 U_red1] sp1] & w1 & Hstep & Hrun).
    destruct (test_step_calls _ _ _ _ _ _ _ _ _ _ Hstep) as (c & v & Htrace & HU).
    destruct (test_step_speedup _ _ _ _ _ _ _ _ _ _ Hstep) as (Ht & _ & _).
    cbn [fst snd] in HU. subst U_red1.
    destruct (IH _ _ _ _ _ _ Hrun) as (cs & vs & Hcs & Hvs & HU' & Htrace').
    exists (c :: cs), (v :: vs). cbn [List.length loop_calls].
    split; [congruence|]. split; [congruence|].
    split; [rewrite HU', <- app_assoc; reflexivity|].
    rewrite Htrace', Htrace, <- app_assoc, Ht.
    replace (4 + ticks w)%nat with (ticks w + 4)%nat by lia. reflexivity.
Qed.

(** X6: the speedups of a run that returns, and what they time.  The calls
    of the run end with the rounds of the test loop, one per test
    parameter, and each round is, in this order: a reading of the clock,
    [fom.solve(mu)], two readings of the clock, [rom.solve(mu)],
    [reductor.reconstruct] of what it returned, and a reading of the clock.
    The speedup of test parameter [i] is the time between the two readings
    around [fom.solve] over the time between the two readings around
    [reductor.reconstruct(rom.solve(mu))], and these two readings differ: a
    run in which the clock shows the same time before and after a reduced
    solve stops with Python's [ZeroDivisionError]. *)
Theorem tutorial_speedups (problem : StationaryProblemT) (diameter : R)
    (w w' : State) (res : Results) :
  run problem diameter w = (Some res, w') ->
  let fom := the_fom problem diameter in
  let reductor := snd (the_reduce problem diameter (random_state w)) in
  let test_set := the_test_set problem diameter (random_state w) in
  let n := List.length test_set in
  exists (rom : Rom) (before : list (Call Reductor Rom)) (coordinates : list Vector),
    fst (the_reduce problem diameter (random_state w)) = Some rom
    /\ List.length coordinates = n
    /\ List.length (U_reduced res) = n
    /\ trace w' = before ++ loop_calls fom_solve clock fom reductor rom (ticks w)
                              test_set coordinates (U_reduced res)
    /\ List.length (speedups res) = n
    /\ ticks w' = (ticks w + 4 * n)%nat
    /\ forall i, (i < n)%nat ->
         clock (ticks w + 4 * i + 3)%nat <> clock (ticks w + 4 * i + 2)%nat
         /\ nth i (speedups res) 0
            = (clock (ticks w + 4 * i + 1)%nat - clock (ticks w + 4 * i)%nat)
              / (clock (ticks w + 4 * i + 3)%nat - clock (ticks w + 4 * i + 2)%nat).
Proof.
  intros Hrun fom reductor test_set n.
  destruct (tutorial_inv _ _ _ _ _ Hrun) as (mu & v & w1 & _ & Hred & Ht & Hloop & _).
  fold fom reductor test_set in Hred, Hloop.
  destruct (fst (the_reduce problem diameter (random_state w))) as [r|] eqn:Hrom;
    [|discriminate Hred].
  destruct (test_loop_calls _ _ _ _ _ _ _ _ _ _ Hloop)
    as (cs & vs & Hcs & Hvs & HU & Htrace).
  destruct (test_loop_speedups _ _ _ _ _ _ _ _ _ _ Hloop) as (Ht' & Hclock & Hsp).
  cbn [fst snd app] in HU, Hsp. fold n in Hcs, Hvs, Ht', Hclock, Hsp. rewrite Ht in *.
  exists r, (trace w1), cs.
  split; [reflexivity|].
  split; [exact Hcs|].
  split; [rewrite HU; exact Hvs|].
  split; [rewrite HU; exact Htrace|].
  split; [rewrite Hsp, length_map, length_seq; reflexivity|].
  split; [exact Ht'|].
  intros i Hi. split; [apply Hclock; exact Hi|].
  rewrite Hsp.
  rewrite (nth_indep _ 0 (measured_speedup clock (ticks w) 0))
    by (rewrite length_map, length_seq; exact Hi).
  rewrite map_nth, seq_nth by exact Hi. reflexivity.
Qed.



End TutorialInversion.

(** ** Sorting and the median *)

Lemma In_insert_sorted (x y : R) (xs : list R) :
  In y (insert_sorted x xs) <-> y = x \/ In y xs.
Proof.
  induction xs as [|z xs IH]; simpl.
  - intuition.
  - destruct (Rle_dec x z); simpl; [intuition|]. rewrite IH. intuition.
Qed.

Lemma length_insert_sorted (x : R) (xs : list R) :
  List.length (insert_sorted x xs) = S (List.length xs).
Proof.
  induction xs as [|z xs IH]; simpl; [reflexivity|].
  destruct (Rle_dec x z); simpl; [reflexivity | rewrite IH; reflexivity].
Qed.

Lemma In_sort (y : R) (xs : list R) : In y (sort xs) <-> In y xs.
Proof.
  induction xs as [|x xs IH]; simpl; [reflexivity|].
  rewrite In_insert_sorted, IH. intuition.
Qed.

Lemma length_sort (xs : list R) : List.length (sort xs) = List.length xs.
Proof.
  induction xs as [|x xs IH]; simpl; [reflexivity|].
  rewrite length_insert_sorted, IH. reflexivity.
Qed.

Lemma ascending_insert_sorted (x : R) (xs : list R) :
  ascending xs -> ascending (insert_sorted x xs).
Proof.
  induction xs as [|z xs IH]; simpl.
  - intros _. split; [intros y []|exact I].
  - intros [Hz Hxs]. destruct (Rle_dec x z) as [Hle|Hgt]; simpl.
    + split; [|split; assumption].
      intros y [<-|Hy]; [exact Hle|]. specialize (Hz y Hy). lra.
    + split; [|apply IH; exact Hxs].
      intros y Hy. apply In_insert_sorted in Hy as [->|Hy]; [lra|apply Hz; exact Hy].
Qed.

Lemma ascending_sort (xs : list R) : ascending (sort xs).
Proof.
  induction xs as [|x xs IH]; simpl; [exact I|].
  apply ascending_insert_sorted. exact IH.
Qed.

Lemma ascending_nth (xs : list R) (i j : nat) :
  ascending xs -> (i <= j)%nat -> (j < List.length xs)%nat ->
  nth i xs 0 <= nth j xs 0.
Proof.
  revert i j. induction xs as [|x xs IH]; intros i j Hasc Hij Hj; simpl in *; [lia|].
  destruct Hasc as [Hx Hxs].
  destruct i as [|i], j as [|j]; try lia.
  - lra.
  - apply Hx. apply nth_In. lia.
  - apply IH; [exact Hxs | lia | lia].
Qed.

(** The median of a list that is not empty lies between two of its
    entries. *)
Lemma np_median_between (a : list R) :
  a <> [] ->
  exists lo hi, In lo a /\ In hi a /\ lo <= np_median a <= hi.
Proof.
  intros Ha. unfold np_median.
  assert (Hn : (0 < List.length a)%nat) by (destruct a; [contradiction | simpl; lia]).
  set (n := List.length a) in *.
  assert (Hhalf : (n / 2 < n)%nat) by (apply Nat.div_lt; lia).
  destruct (Nat.even n) eqn:Heven.
  - assert (Hpos : (0 < n / 2)%nat).
    { apply Nat.even_spec in Heven. destruct Heven as [k Hk].
      rewrite Hk, Nat.mul_comm, Nat.div_mul by lia. lia. }
    exists (nth (n / 2 - 1) (sort a) 0), (nth (n / 2) (sort a) 0).
    split; [apply In_sort, nth_In; rewrite length_sort; fold n; lia|].
    split; [apply In_sort, nth_In; rewrite length_sort; fold n; lia|].
    assert (Hle : nth (n / 2 - 1) (sort a) 0 <= nth (n / 2) (sort a) 0).
    { apply ascending_nth; [apply ascending_sort | lia |].
      rewrite length_sort. fold n. lia. }
    lra.
  - exists (nth (n / 2) (sort a) 0), (nth (n / 2) (sort a) 0).
    split; [apply In_sort, nth_In; rewrite length_sort; fold n; lia|].
    split; [apply In_sort, nth_In; rewrite length_sort; fold n; lia|].
    lra.
Qed.

Section Speedups.

Context {Fom Reductor Rom ParameterSpace RandomState : Type}.

Variable discretize_stationary_cg : StationaryProblemT -> R -> Fom.
Variable fom_solve : Fom -> Mu -> Vector.
Variable space : Fom -> R * R -> ParameterSpace.
Variable sample_uniformly : ParameterSpace -> nat -> list Mu.
Variable sample_randomly : ParameterSpace -> nat -> RandomState -> list Mu * RandomState.
Variable NeuralNetworkReductor : Fom -> list Mu -> list Mu -> R -> AnnMse -> Reductor.
Variable reduce : Reductor -> option Rom * Reductor.
Variable rom_solve : Rom -> Mu -> option Vector.
Variable reconstruct : Reductor -> Vector -> option Vector.
Variable clock : nat -> R.

Abbreviation run := (tutorial discretize_stationary_cg fom_solve space sample_uniformly
                       sample_randomly NeuralNetworkReductor reduce rom_solve
                       reconstruct clock).

(** X7: with a clock that shows a later time at every reading, every
    speedup of a run that returns is positive, and when the test set is not
    empty the median speedup that the last cell displays lies between two
    of the measured speedups and is positive. *)
Theorem tutorial_speedups_positive (problem : StationaryProblemT) (diameter : R)
    (w w' : World Reductor Rom RandomState) (res : Results) :
  (forall n, clock n < clock (S n)) ->
  run problem diameter w = (Some res, w') ->
  Forall (fun s => 0 < s) (speedups res)
  /\ (speedups res <> [] ->
      exists lo hi, In lo (speedups res) /\ In hi (speedups res)
                    /\ lo <= median_speedup res <= hi
                    /\ 0 < median_speedup res).
Proof.
  intros Hclock Hrun.
  destruct (tutorial_inv _ _ _ _ _ _ _ _ _ _ _ _ _ _ _ Hrun)
    as (_ & _ & w1 & _ & _ & _ & Hloop & _ & _ & _ & Hmed).
  destruct (test_loop_speedups _ _ _ _ _ _ _ _ _ _ _ _ _ _ Hloop) as (_ & _ & Hsp).
  cbn [snd app] in Hsp.
  assert (Hall : Forall (fun s => 0 < s) (speedups res)).
  { rewrite Hsp. apply Forall_forall. intros s Hs.
    apply in_map_iff in Hs as (i & <- & _). unfold measured_speedup.
    apply Rdiv_lt_0_compat.
    - pose proof (Hclock (ticks w1 + 4 * i)%nat) as H.
      replace (S (ticks w1 + 4 * i)) with (ticks w1 + 4 * i + 1)%nat in H by lia. lra.
    - pose proof (Hclock (ticks w1 + 4 * i + 2)%nat) as H.
      replace (S (ticks w1 + 4 * i + 2)) with (ticks w1 + 4 * i + 3)%nat in H by lia. lra. }
  split; [exact Hall|].
  intros Hne.
  destruct (np_median_between _ Hne) as (lo & hi & Hlo & Hhi & Hbetween).
  exists lo, hi. rewrite Hmed.
  split; [exact Hlo|]. split; [exact Hhi|]. split; [exact Hbetween|].
  rewrite Forall_forall in Hall. specialize (Hall lo Hlo). lra.
Qed.

End Speedups.

(** ** Errors that vanish *)

Lemma fold_left_Rplus (xs : list R) (a : R) : fold_left Rplus xs a = a + rsum xs.
Proof.
  unfold rsum. revert a. induction xs as [|x xs IH]; intros a; simpl.
  - ring.
  - rewrite IH, (IH (0 + x)). ring.
Qed.

Lemma rsum_cons (x : R) (xs : list R) : rsum (x :: xs) = x + rsum xs.
Proof.
  unfold rsum at 1. simpl. rewrite fold_left_Rplus. ring.
Qed.

Lemma rsum_nonneg (xs : list R) : Forall (fun x => 0 <= x) xs -> 0 <= rsum xs.
Proof.
  induction 1 as [|x xs Hx _ IH]; [unfold rsum; simpl; lra|].
  rewrite rsum_cons. lra.
Qed.

Lemma rsum_zero (xs : list R) :
  Forall (fun x => 0 <= x) xs -> rsum xs = 0 -> Forall (fun x => x = 0) xs.
Proof.
  induction 1 as [|x xs Hx Hxs IH]; intros Hsum; [constructor|].
  rewrite rsum_cons in Hsum. pose proof (rsum_nonneg xs Hxs) as Hpos.
  constructor; [lra | apply IH; lra].
Qed.

Lemma rsum_zeros (xs : list R) : Forall (fun x => x = 0) xs -> rsum xs = 0.
Proof.
  induction 1 as [|x xs Hx _ IH]; [reflexivity|].
  rewrite rsum_cons, Hx, IH. ring.
Qed.

Lemma squares_nonneg (v : Vector) : Forall (fun x => 0 <= x) (zip_with Rmult v v).
Proof.
  induction v as [|x v IH]; simpl; constructor; [nra | exact IH].
Qed.

Lemma l2_norm_nonneg (v : Vector) : 0 <= l2_norm v.
Proof. apply sqrt_pos. Qed.

(** The l2 norm of a vector is zero exactly when all its entries are. *)
Lemma l2_norm_zero (v : Vector) : l2_norm v = 0 <-> Forall (fun x => x = 0) v.
Proof.
  unfold l2_norm, dot_product. split.
  - intros H. apply sqrt_eq_0 in H; [|apply rsum_nonneg, squares_nonneg].
    apply rsum_zero in H; [|apply squares_nonneg].
    induction v as [|x v IH]; [constructor|].
    simpl in H. inversion H as [|? ? Hx Hv]; subst.
    constructor; [nra | apply IH; exact Hv].
  - intros H. rewrite rsum_zeros; [apply sqrt_0|].
    induction H as [|x v Hx _ IH]; simpl; constructor; [subst; ring | exact IH].
Qed.

(** The difference of two vectors of one length has only zero entries
    exactly when they are the same vector. *)
Lemma vsub_zero (u v : Vector) :
  List.length u = List.length v ->
  (Forall (fun x => x = 0) (vsub u v) <-> v = u).
Proof.
  unfold vsub. revert v. induction u as [|x u IH]; intros [|y v] Hlen; simpl in *;
    try discriminate.
  - split; [reflexivity | constructor].
  - injection Hlen as Hlen. split.
    + intros H. inversion H as [|? ? Hxy Hrest]; subst.
      apply (IH v Hlen) in Hrest. subst. f_equal. lra.
    + intros H. injection H as -> ->. constructor; [ring|].
      apply (IH u); reflexivity.
Qed.

Lemma absolute_errors_zero (U U_red : VectorArray) :
  same_shape U U_red = true ->
  (Forall (fun e => e = 0) (map l2_norm (zip_with vsub U U_red)) <-> U_red = U).
Proof.
  revert U_red. induction U as [|u U IH]; intros [|v U_red] Hshape; simpl in *;
    try discriminate.
  - split; [reflexivity | constructor].
  - apply andb_true_iff in Hshape as [Hlen Hshape]. apply Nat.eqb_eq in Hlen.
    split.
    + intros H. inversion H as [|? ? Hv Hrest]; subst.
      apply l2_norm_zero, (vsub_zero u v Hlen) in Hv.
      apply (IH U_red Hshape) in Hrest. congruence.
    + intros H. injection H as -> ->. constructor.
      * apply l2_norm_zero, vsub_zero; reflexivity.
      * apply (IH U Hshape). reflexivity.
Qed.

Section ExactOnTestSet.

Context {Fom Reductor Rom ParameterSpace RandomState : Type}.

Variable discretize_stationary_cg : StationaryProblemT -> R -> Fom.
Variable fom_solve : Fom -> Mu -> Vector.
Variable space : Fom -> R * R -> ParameterSpace.
Variable sample_uniformly : ParameterSpace -> nat -> list Mu.
Variable sample_randomly : ParameterSpace -> nat -> RandomState -> list Mu * RandomState.
Variable NeuralNetworkReductor : Fom -> list Mu -> list Mu -> R -> AnnMse -> Reductor.
Variable reduce : Reductor -> option Rom * Reductor.
Variable rom_solve : Rom -> Mu -> option Vector.
Variable reconstruct : Reductor -> Vector -> option Vector.
Variable clock : nat -> R.

Abbreviation run := (tutorial discretize_stationary_cg fom_solve space sample_uniformly
                       sample_randomly NeuralNetworkReductor reduce rom_solve
                       reconstruct clock).

(** X8: in a run that returns with a test set that is not empty, no
    absolute error is negative, and the average absolute error that the
    script displays is zero exactly when the array of reconstructed reduced
    solutions is the array of full solutions: averaging hides no error. *)
Theorem tutorial_zero_error_iff_exact (problem : StationaryProblemT) (diameter : R)
    (w w' : World Reductor Rom RandomState) (res : Results) :
  run problem diameter w = (Some res, w') ->
  U_full res <> [] ->
  Forall (fun e => 0 <= e) (absolute_errors res)
  /\ (average_absolute_error res = 0 <-> U_reduced res = U_full res).
Proof.
  intros Hrun Hne.
  destruct (tutorial_inv _ _ _ _ _ _ _ _ _ _ _ _ _ _ _ Hrun)
    as (_ & _ & _ & _ & _ & _ & _ & Herr & Havg & _).
  destruct (error_cells_spec _ _ _ _ Herr) as (_ & Habs & _ & Hla & _).
  assert (Hshape : same_shape (U_full res) (U_reduced res) = true).
  { unfold error_cells, va_sub in Herr.
    destruct (same_shape _ _); [reflexivity | discriminate]. }
  assert (Hnonneg : Forall (fun e => 0 <= e) (absolute_errors res)).
  { rewrite Habs. apply Forall_forall. intros e He.
    apply in_map_iff in He as (v & <- & _). apply l2_norm_nonneg. }
  split; [exact Hnonneg|].
  assert (Hn : INR (List.length (absolute_errors res)) <> 0).
  { apply not_0_INR. rewrite Hla. destruct (U_full res); [contradiction | discriminate]. }
  rewrite Havg. unfold np_average.
  rewrite <- (absolute_errors_zero _ _ Hshape), <- Habs. split.
  - intros H. apply rsum_zero; [exact Hnonneg|].
    apply (Rmult_eq_compat_r (INR (List.length (absolute_errors res)))) in H.
    rewrite Rmult_0_l in H. rewrite <- H. field. exact Hn.
  - intros H. rewrite (rsum_zeros _ H). field. exact Hn.
Qed.

End ExactOnTestSet.

(** ** What the clock does not change *)

Lemma Forall2_functional {A B : Type} (f : A -> option B) (xs : list A) (ys zs : list B) :
  Forall2 (fun x y => f x = Some y) xs ys ->
  Forall2 (fun x y => f x = Some y) xs zs ->
  ys = zs.
Proof.
  intros H. revert zs. induction H as [|x y xs ys Hy _ IH]; intros zs Hzs.
  - inversion Hzs. reflexivity.
  - inversion Hzs as [|? z ? zs' Hz Hrest]; subst. f_equal; [congruence | apply IH; exact Hrest].
Qed.

Section ClockIndependence.

Context {Fom Reductor Rom ParameterSpace RandomState : Type}.

Variable discretize_stationary_cg : StationaryProblemT -> R -> Fom.
Variable fom_solve : Fom -> Mu -> Vector.
Variable space : Fom -> R * R -> ParameterSpace.
Variable sample_uniformly : ParameterSpace -> nat -> list Mu.
Variable sample_randomly : ParameterSpace -> nat -> RandomState -> list Mu * RandomState.
Variable NeuralNetworkReductor : Fom -> list Mu -> list Mu -> R -> AnnMse -> Reductor.
Variable reduce : Reductor -> option Rom * Reductor.
Variable rom_solve : Rom -> Mu -> option Vector.
Variable reconstruct : Reductor -> Vector -> option Vector.

Abbreviation run_with := (tutorial discretize_stationary_cg fom_solve space sample_uniformly
                            sample_randomly NeuralNetworkReductor reduce rom_solve
                            reconstruct).

(** X9: the solutions and the errors of a run do not depend on the clock.
    Two runs of the script with the same library and the same random state
    at the start, timed by two different clocks and started after any
    number of clock readings, return, when both return, the same arrays of
    full and of reduced solutions, the same absolute and relative errors
    and the same averages; only the speedups can differ. *)
Theorem tutorial_errors_clock_independent (clock1 clock2 : nat -> R)
    (problem : StationaryProblemT) (diameter : R)
    (w1 w1' w2 w2' : World Reductor Rom RandomState) (res1 res2 : Results) :
  random_state w1 = random_state w2 ->
  run_with clock1 problem diameter w1 = (Some res1, w1') ->
  run_with clock2 problem diameter w2 = (Some res2, w2') ->
  U_full res1 = U_full res2
  /\ U_reduced res1 = U_reduced res2
  /\ absolute_errors res1 = absolute_errors res2
  /\ relative_errors res1 = relative_errors res2
  /\ average_absolute_error res1 = average_absolute_error res2
  /\ average_relative_error res1 = average_relative_error res2.
Proof.
  intros Hseed Hrun1 Hrun2.
  destruct (tutorial_inv _ _ _ _ _ _ _ _ _ _ _ _ _ _ _ Hrun1)
    as (_ & _ & u1 & _ & _ & _ & Hloop1 & Herr1 & Habs1 & Hrel1 & _).
  destruct (tutorial_inv _ _ _ _ _ _ _ _ _ _ _ _ _ _ _ Hrun2)
    as (_ & _ & u2 & _ & _ & _ & Hloop2 & Herr2 & Habs2 & Hrel2 & _).
  rewrite <- Hseed in Hloop2.
  destruct (test_loop_result _ _ _ _ _ _ _ _ _ _ _ _ _ _ Hloop1)
    as (vs1 & sps1 & Hvs1 & _ & Heq1).
  destruct (test_loop_result _ _ _ _ _ _ _ _ _ _ _ _ _ _ Hloop2)
    as (vs2 & sps2 & Hvs2 & _ & Heq2).
  injection Heq1 as HU1 HR1 _. injection Heq2 as HU2 HR2 _.
  assert (HU : U_full res1 = U_full res2) by congruence.
  assert (HR : U_reduced res1 = U_reduced res2).
  { rewrite HR1, HR2. f_equal. exact (Forall2_functional _ _ _ _ Hvs1 Hvs2). }
  rewrite HU, HR in Herr1. rewrite Herr1 in Herr2. injection Herr2 as Habs Hrel.
  repeat split; congruence.
Qed.

End ClockIndependence.

(** ** The offline phase runs once *)

Section KeepsOffline.

Context {Reductor Rom S : Type}.

Abbreviation Script := (M Reductor Rom S).

Lemma keeps_offline_ret {A : Type} (a : A) : keeps_offline (ret a : Script A).
Proof. intros w. reflexivity. Qed.

Lemma keeps_offline_raise {A : Type} : keeps_offline (raise : Script A).
Proof. intros w. reflexivity. Qed.

Lemma keeps_offline_log (c : Call Reductor Rom) :
  offline c = false -> keeps_offline (log c : Script unit).
Proof.
  intros Hc w. unfold log. cbn [snd trace].
  rewrite filter_app. simpl. rewrite Hc. apply app_nil_r.
Qed.

Lemma keeps_offline_bind {A B : Type} (m : Script A) (k : A -> Script B) :
  keeps_offline m -> (forall a, keeps_offline (k a)) -> keeps_offline (bind m k).
Proof.
  intros Hm Hk w. unfold bind. specialize (Hm w).
  destruct (m w) as [[a|] w1]; simpl in *.
  - rewrite (Hk a w1). exact Hm.
  - exact Hm.
Qed.

Lemma keeps_offline_from_option {A : Type} (o : option A) :
  keeps_offline (from_option o : Script A).
Proof. destruct o; [apply keeps_offline_ret | apply keeps_offline_raise]. Qed.

Lemma keeps_offline_for_each {A T : Type} (body : A -> T -> Script T) (xs : list A) :
  (forall x st, keeps_offline (body x st)) ->
  forall st, keeps_offline (for_each xs body st).
Proof.
  intros Hbody. induction xs as [|x xs IH]; intros st; simpl.
  - apply keeps_offline_ret.
  - apply keeps_offline_bind; [apply Hbody | exact IH].
Qed.

End KeepsOffline.

Section OfflineOnce.

Context {Fom Reductor Rom ParameterSpace RandomState : Type}.

Variable discretize_stationary_cg : StationaryProblemT -> R -> Fom.
Variable fom_solve : Fom -> Mu -> Vector.
Variable space : Fom -> R * R -> ParameterSpace.
Variable sample_uniformly : ParameterSpace -> nat -> list Mu.
Variable sample_randomly : ParameterSpace -> nat -> RandomState -> list Mu * RandomState.
Variable NeuralNetworkReductor : Fom -> list Mu -> list Mu -> R -> AnnMse -> Reductor.
Variable reduce : Reductor -> option Rom * Reductor.
Variable rom_solve : Rom -> Mu -> option Vector.
Variable reconstruct : Reductor -> Vector -> option Vector.
Variable clock : nat -> R.

Abbreviation Script := (M Reductor Rom RandomState).

Lemma keeps_offline_time_time : keeps_offline (time_time clock : Script R).
Proof.
  intros w. unfold time_time. cbn [snd trace].
  rewrite filter_app. apply app_nil_r.
Qed.

Lemma keeps_offline_sample_randomly (ps : ParameterSpace) (n : nat) :
  keeps_offline (do_sample_randomly sample_randomly ps n : Script (list Mu)).
Proof.
  intros w. unfold do_sample_randomly.
  destruct (sample_randomly ps n (random_state w)) as [sample rs].
  cbn [snd trace]. rewrite filter_app. apply app_nil_r.
Qed.

Lemma keeps_offline_fom_solve (fom : Fom) (mu : Mu) :
  keeps_offline (do_fom_solve fom_solve fom mu : Script Vector).
Proof.
  unfold do_fom_solve. apply keeps_offline_bind; [apply keeps_offline_log; reflexivity|].
  intros _. apply keeps_offline_ret.
Qed.

Lemma keeps_offline_rom_solve (rom : option Rom) (mu : Mu) :
  keeps_offline (do_rom_solve rom_solve rom mu : Script Vector).
Proof.
  unfold do_rom_solve. destruct rom; [|apply keeps_offline_raise].
  apply keeps_offline_bind; [apply keeps_offline_log; reflexivity|].
  intros _. apply keeps_offline_from_option.
Qed.

Lemma keeps_offline_reconstruct (r : Reductor) (u : Vector) :
  keeps_offline (do_reconstruct reconstruct r u : Script Vector).
Proof.
  unfold do_reconstruct. apply keeps_offline_bind; [apply keeps_offline_log; reflexivity|].
  intros _. apply keeps_offline_from_option.
Qed.

Lemma keeps_offline_test_step (fom : Fom) (r : Reductor) (rom : option Rom) (mu : Mu)
    (st : VectorArray * VectorArray * list R) :
  keeps_offline (test_step fom_solve rom_solve reconstruct clock fom r rom mu st : Script _).
Proof.
  unfold test_step. destruct st as [[U U_red] sp].
  apply keeps_offline_bind; [apply keeps_offline_time_time|]. intros tic.
  apply keeps_offline_bind; [apply keeps_offline_fom_solve|]. intros u.
  apply keeps_offline_bind; [apply keeps_offline_time_time|]. intros toc.
  apply keeps_offline_bind; [apply keeps_offline_time_time|]. intros tic'.
  apply keeps_offline_bind; [apply keeps_offline_rom_solve|]. intros u_red.
  apply keeps_offline_bind; [apply keeps_offline_reconstruct|]. intros u_recon.
  apply keeps_offline_bind; [apply keeps_offline_time_time|]. intros toc'.
  apply keeps_offline_bind.
  { unfold py_div. destruct (Req_dec_T _ 0);
      [apply keeps_offline_raise | apply keeps_offline_ret]. }
  intros speedup. apply keeps_offline_ret.
Qed.

(** X10: the offline phase runs at most once.  In every run of the script,
    whether it returns or stops with an exception, the calls that build the
    model and the reduced model are made at most once each and in this
    order: the discretization of the problem, then the construction of the
    reductor from the model, the training set and the validation set with
    [l2_err = 1e-5] and [ann_mse = 1e-5], then [reduce] on that reductor;
    the single test and the loop over the test set discretize, construct
    and reduce nothing. *)
Theorem tutorial_offline_once (problem : StationaryProblemT) (diameter : R)
    (w : World Reductor Rom RandomState) :
  let fom := discretize_stationary_cg problem diameter in
  let ps := space fom (0.1, 1) in
  let training_set := sample_uniformly ps 100 in
  let validation_set := fst (sample_randomly ps 20 (random_state w)) in
  let reductor := NeuralNetworkReductor fom training_set validation_set (1 / 100000)
                    (ann_mse_tol (1 / 100000)) in
  exists k,
    filter offline
      (trace (snd (tutorial discretize_stationary_cg fom_solve space sample_uniformly
                     sample_randomly NeuralNetworkReductor reduce rom_solve reconstruct
                     clock problem diameter w)))
    = filter offline (trace w)
      ++ firstn k
           [discretize_call problem diameter;
            reductor_call training_set validation_set (1 / 100000)
              (ann_mse_tol (1 / 100000)) reductor;
            reduce_call reductor (fst (reduce reductor)) (snd (reduce reductor))].
Proof.
  intros fom ps training_set validation_set reductor. exists 3%nat. cbn [firstn].
  unfold tutorial.
  unfold do_discretize at 1. unfold bind at 1 2. unfold log at 1, ret at 1.
  cbn [trace ticks random_state]. fold fom. fold ps.
  unfold do_sample_uniformly at 1. unfold bind at 1 2. unfold log at 1, ret at 1.
  cbn [trace ticks random_state]. fold training_set.
  unfold bind at 1. unfold do_sample_randomly at 1. cbn [random_state].
  subst validation_set reductor.
  destruct (sample_randomly ps 20 (random_state w)) as [va rs1].
  cbn [fst trace ticks random_state].
  unfold do_reductor at 1. unfold bind at 1 2. unfold log at 1, ret at 1.
  cbn [trace ticks random_state].
  unfold do_reduce at 1. unfold bind at 1.
  destruct (reduce _) as [rom r']. cbn [fst snd].
  unfold bind at 1. unfold log at 1, ret at 1. cbn [trace ticks random_state].
  match goal with
  | |- filter offline (trace (snd (?k ?w0))) = _ =>
    assert (Hrest : keeps_offline k)
  end.
  { apply keeps_offline_bind; [apply keeps_offline_sample_randomly|]. intros sample.
    apply keeps_offline_bind; [apply keeps_offline_from_option|]. intros mu.
    apply keeps_offline_bind; [apply keeps_offline_fom_solve|]. intros U.
    apply keeps_offline_bind; [apply keeps_offline_rom_solve|]. intros U_red.
    apply keeps_offline_bind; [apply keeps_offline_reconstruct|]. intros U_red_recon.
    apply keeps_offline_bind; [apply keeps_offline_log; reflexivity|]. intros _.
    apply keeps_offline_bind; [apply keeps_offline_sample_randomly|]. intros test_set.
    apply keeps_offline_bind;
      [apply keeps_offline_for_each; intros; apply keeps_offline_test_step|].
    intros [[U' U_red'] sp].
    apply keeps_offline_bind; [apply keeps_offline_from_option|]. intros [abs rel].
    apply keeps_offline_ret. }
  rewrite Hrest. cbn [trace].
  rewrite !filter_app. simpl. rewrite <- !app_assoc. reflexivity.
Qed.

End OfflineOnce.

(** ** The data functions of the heat problem *)

Lemma parse_left_half :
  ArrayExpr.parse "(x[...,0] <= 0.5) * 1."
  = Some (ArrayExpr.Mul
            (ArrayExpr.Compare ArrayExpr.Le
               (ArrayExpr.Index (ArrayExpr.Var "x")
                  [ArrayExpr.SEllipsis; ArrayExpr.SIndex 0])
               (ArrayExpr.Num 5 (-1)))
            (ArrayExpr.Num 1 0)).
Proof. vm_compute. reflexivity. Qed.

Lemma parse_right_half :
  ArrayExpr.parse "(0.5 < x[...,0]) * 1."
  = Some (ArrayExpr.Mul
            (ArrayExpr.Compare ArrayExpr.Lt
               (ArrayExpr.Num 5 (-1))
               (ArrayExpr.Index (ArrayExpr.Var "x")
                  [ArrayExpr.SEllipsis; ArrayExpr.SIndex 0]))
            (ArrayExpr.Num 1 0)).
Proof. vm_compute. reflexivity. Qed.

Lemma parse_left_end :
  ArrayExpr.parse "(x[...,0] < 1e-10) * 1."
  = Some (ArrayExpr.Mul
            (ArrayExpr.Compare ArrayExpr.Lt
               (ArrayExpr.Index (ArrayExpr.Var "x")
                  [ArrayExpr.SEllipsis; ArrayExpr.SIndex 0])
               (ArrayExpr.Num 1 (-10)))
            (ArrayExpr.Num 1 0)).
Proof. vm_compute. reflexivity. Qed.

Lemma parse_right_end :
  ArrayExpr.parse "(x[...,0] > (1 - 1e-10)) * 1."
  = Some (ArrayExpr.Mul
            (ArrayExpr.Compare ArrayExpr.Gt
               (ArrayExpr.Index (ArrayExpr.Var "x")
                  [ArrayExpr.SEllipsis; ArrayExpr.SIndex 0])
               (ArrayExpr.Sub (ArrayExpr.Num 1 0) (ArrayExpr.Num 1 (-10))))
            (ArrayExpr.Num 1 0)).
Proof. vm_compute. reflexivity. Qed.

Lemma literal_half : ArrayExpr.literal 5 (-1) = 0.5.
Proof. unfold ArrayExpr.literal. simpl. lra. Qed.

Lemma literal_one : ArrayExpr.literal 1 0 = 1.
Proof. unfold ArrayExpr.literal. simpl. lra. Qed.

Lemma literal_1e_10 : ArrayExpr.literal 1 (-10) = 1 / 10 ^ 10.
Proof. unfold ArrayExpr.literal. simpl. lra. Qed.

Lemma evaluate_left_half (x : R) (mu : Mu) :
  ArrayExpr.evaluate (ExpressionFunction "(x[...,0] <= 0.5) * 1." 1 []) [x] mu
  = Some (if Rle_dec x 0.5 then 1 else 0).
Proof.
  cbn [ArrayExpr.evaluate List.length Nat.eqb]. rewrite parse_left_half.
  cbn [ArrayExpr.eval ArrayExpr.arith ArrayExpr.index ArrayExpr.as_num ArrayExpr.holds
       String.eqb Ascii.eqb Bool.eqb Z.leb Z.compare Z.to_nat nth_error option_map].
  rewrite literal_half, literal_one.
  destruct (Rle_dec x 0.5); f_equal; ring.
Qed.

Lemma evaluate_right_half (x : R) (mu : Mu) :
  ArrayExpr.evaluate (ExpressionFunction "(0.5 < x[...,0]) * 1." 1 []) [x] mu
  = Some (if Rlt_dec 0.5 x then 1 else 0).
Proof.
  cbn [ArrayExpr.evaluate List.length Nat.eqb]. rewrite parse_right_half.
  cbn [ArrayExpr.eval ArrayExpr.arith ArrayExpr.index ArrayExpr.as_num ArrayExpr.holds
       String.eqb Ascii.eqb Bool.eqb Z.leb Z.compare Z.to_nat nth_error option_map].
  rewrite literal_half, literal_one.
  destruct (Rlt_dec 0.5 x); f_equal; ring.
Qed.

Lemma evaluate_left_end (x : R) (mu : Mu) :
  ArrayExpr.evaluate (ExpressionFunction "(x[...,0] < 1e-10) * 1." 1 []) [x] mu
  = Some (if Rlt_dec x (1 / 10 ^ 10) then 1 else 0).
Proof.
  cbn [ArrayExpr.evaluate List.length Nat.eqb]. rewrite parse_left_end.
  cbn [ArrayExpr.eval ArrayExpr.arith ArrayExpr.index ArrayExpr.as_num ArrayExpr.holds
       String.eqb Ascii.eqb Bool.eqb Z.leb Z.compare Z.to_nat nth_error option_map].
  rewrite literal_1e_10, literal_one.
  destruct (Rlt_dec x (1 / 10 ^ 10)); f_equal; ring.
Qed.

Lemma evaluate_right_end (x : R) (mu : Mu) :
  ArrayExpr.evaluate (ExpressionFunction "(x[...,0] > (1 - 1e-10)) * 1." 1 []) [x] mu
  = Some (if Rlt_dec (1 - 1 / 10 ^ 10) x then 1 else 0).
Proof.
  cbn [ArrayExpr.evaluate List.length Nat.eqb]. rewrite parse_right_end.
  cbn [ArrayExpr.eval ArrayExpr.arith ArrayExpr.index ArrayExpr.as_num ArrayExpr.holds
       String.eqb Ascii.eqb Bool.eqb Z.leb Z.compare Z.to_nat nth_error option_map].
  rewrite literal_1e_10, literal_one.
  destruct (Rlt_dec (1 - 1 / 10 ^ 10) x); f_equal; ring.
Qed.

(** X15: the diffusion coefficient of the heat problem.  At every point
    [x] of the line and for every value [m] of the parameter ['diffusion'],
    the [LincombFunction] of the two indicator expressions evaluates: it is
    1 on the left half, up to and including 0.5, and [m] on the right half;
    so it is positive everywhere when [m] is. *)
Theorem heat_diffusion_piecewise (x m : R) :
  exists v,
    ArrayExpr.evaluate
      (HeatProblem.diffusion (HeatProblem.stationary_part HeatProblem.p))
      [x] [("diffusion", [m])] = Some v
    /\ (x <= 0.5 -> v = 1)
    /\ (0.5 < x -> v = m)
    /\ (0 < m -> 0 < v).
Proof.
  cbn [HeatProblem.diffusion HeatProblem.stationary_part HeatProblem.p].
  cbn [ArrayExpr.evaluate].
  fold (ArrayExpr.evaluate (ExpressionFunction "(x[...,0] <= 0.5) * 1." 1 []) [x]
          [("diffusion", [m])]).
  rewrite evaluate_left_half.
  fold (ArrayExpr.evaluate (ExpressionFunction "(0.5 < x[...,0]) * 1." 1 []) [x]
          [("diffusion", [m])]).
  rewrite evaluate_right_half.
  cbn [evaluate_coefficient mu_get String.eqb Ascii.eqb Bool.eqb].
  eexists. split; [reflexivity|].
  destruct (Rle_dec x 0.5), (Rlt_dec 0.5 x); repeat split; intros; try lra.
Qed.

(** X16: where the heat enters and where the output is taken.  At every
    point [x], the Robin coefficient is 1, the Robin data is 1 left of
    [1e-10] and 0 elsewhere, and the weight of the output ['l2_boundary']
    is 1 right of [1 - 1e-10] and 0 elsewhere.  So at the left end of the
    domain the data is 1 and the weight 0, at the right end the data is 0
    and the weight 1, and at no point are both different from zero. *)
Theorem heat_input_left_output_right (x : R) (mu : Mu) :
  let problem := HeatProblem.stationary_part HeatProblem.p in
  exists g o weight,
    interval (HeatProblem.domain problem) = (0, 1)
    /\ HeatProblem.outputs problem = [("l2_boundary", weight)]
    /\ ArrayExpr.evaluate (fst (HeatProblem.robin_data problem)) [x] mu = Some 1
    /\ ArrayExpr.evaluate (snd (HeatProblem.robin_data problem)) [x] mu = Some g
    /\ ArrayExpr.evaluate weight [x] mu = Some o
    /\ g = (if Rlt_dec x (1 / 10 ^ 10) then 1 else 0)
    /\ o = (if Rlt_dec (1 - 1 / 10 ^ 10) x then 1 else 0)
    /\ (x = 0 -> g = 1 /\ o = 0)
    /\ (x = 1 -> g = 0 /\ o = 1)
    /\ g * o = 0.
Proof.
  cbn [HeatProblem.stationary_part HeatProblem.p HeatProblem.robin_data
       HeatProblem.outputs HeatProblem.domain interval fst snd].
  do 3 eexists.
  split; [reflexivity|]. split; [reflexivity|]. split; [reflexivity|].
  split; [apply evaluate_left_end|]. split; [apply evaluate_right_end|].
  split; [reflexivity|]. split; [reflexivity|].
  assert (Heps : 0 < 1 / 10 ^ 10 < 1 / 2).
  { split; [apply Rdiv_lt_0_compat; [lra | apply pow_lt; lra]|].
    apply Rmult_lt_reg_r with (10 ^ 10); [apply pow_lt; lra|].
    unfold Rdiv. rewrite Rmult_assoc, Rinv_l by (apply pow_nonzero; lra).
    simpl. lra. }
  destruct (Rlt_dec x (1 / 10 ^ 10)), (Rlt_dec (1 - 1 / 10 ^ 10) x);
    repeat split; intros; try lra.
Qed.

(** ** The function [reduction_errors] and the cells of the heat notebook *)

Section HeatScript.

Import Heat.

Context {Lti Reductor Num : Type}.

Abbreviation Script := (M Lti Reductor Num).
Abbreviation Trace := (list (Call Lti Reductor Num)).

Lemma heat_bind_inv {A B : Type} (m : Script A) (k : A -> Script B) (t t' : Trace) (b : B) :
  bind m k t = (Some b, t') ->
  exists a t1, m t = (Some a, t1) /\ k a t1 = (Some b, t').
Proof.
  unfold bind. destruct (m t) as [[a|] t1]; [|discriminate].
  intros H. exists a, t1. auto.
Qed.

Lemma heat_bind_run {A B : Type} (m : Script A) (k : A -> Script B) (t t1 : Trace) (a : A) :
  m t = (Some a, t1) -> bind m k t = k a t1.
Proof. unfold bind. intros ->. reflexivity. Qed.

Lemma heat_call_inv {A : Type} (c : Call Lti Reductor Num) (o : option A) (t t' : Trace)
    (a : A) :
  bind (log c) (fun _ => from_option o) t = (Some a, t') -> o = Some a /\ t' = t ++ [c].
Proof.
  unfold bind, log. destruct o as [x|]; simpl; unfold ret, raise; intros H; inversion H.
  auto.
Qed.

Lemma heat_call_run {A : Type} (c : Call Lti Reductor Num) (o : option A) (t : Trace) (a : A) :
  o = Some a -> bind (log c) (fun _ => from_option o) t = (Some a, t ++ [c]).
Proof. intros ->. reflexivity. Qed.

End HeatScript.

Section ReductionErrors.

Import Heat.

Context {Lti Reductor Num : Type}.

Variable HAVE_SLYCOT : bool.
Variable construct : ReductorClass -> Lti -> Num -> Kwargs -> option Reductor.
Variable reduce : Reductor -> nat -> option Lti.
Variable sub : Lti -> Lti -> option Lti.
Variable norm : Norm -> Lti -> Num -> option Num.
Variable truediv : Num -> Num -> option Num.

Variables (lti : Lti) (r : nat) (reductor : ReductorClass) (kwargs : Kwargs).

Abbreviation Trace := (list (Call Lti Reductor Num)).
Abbreviation error_of := (reduction_error construct reduce sub norm truediv lti r reductor kwargs).
Abbreviation step :=
  (reduction_errors_step HAVE_SLYCOT construct reduce sub norm truediv lti r reductor kwargs).

Lemma relative_error_inv (which : Norm) (rom_mu : Lti) (mu : Num) (t t' : Trace) (e : Num) :
  relative_error sub norm truediv which lti rom_mu mu t = (Some e, t') ->
  exists err a b,
    sub lti rom_mu = Some err /\ norm which err mu = Some a /\ norm which lti mu = Some b
    /\ truediv a b = Some e.
Proof.
  unfold relative_error, do_sub, do_norm. intros H.
  apply heat_bind_inv in H as (err & t1 & H1 & H).
  apply heat_call_inv in H1 as [Herr ->].
  apply heat_bind_inv in H as (a & t2 & H2 & H).
  apply heat_call_inv in H2 as [Ha ->].
  apply heat_bind_inv in H as (b & t3 & H3 & H).
  apply heat_call_inv in H3 as [Hb ->].
  exists err, a, b. repeat split; try assumption.
  destruct (truediv a b); simpl in H; unfold ret, raise in H; inversion H. reflexivity.
Qed.

Lemma relative_error_run (which : Norm) (rom_mu err : Lti) (mu a b e : Num) (t : Trace) :
  sub lti rom_mu = Some err -> norm which err mu = Some a -> norm which lti mu = Some b ->
  truediv a b = Some e ->
  exists t', relative_error sub norm truediv which lti rom_mu mu t = (Some e, t').
Proof.
  intros Herr Ha Hb He. unfold relative_error, do_sub, do_norm.
  rewrite (heat_bind_run _ _ _ _ _ (heat_call_run _ _ t _ Herr)).
  rewrite (heat_bind_run _ _ _ _ _ (heat_call_run _ _ _ _ Ha)).
  rewrite (heat_bind_run _ _ _ _ _ (heat_call_run _ _ _ _ Hb)).
  rewrite He. eexists. reflexivity.
Qed.

(** The entries that one round of the loop appends to the list of the
    H-infinity errors. *)
Lemma reduction_step_inv (mu : Num) (h2 hinf hankel : list Num) (t t' : Trace)
    (st' : list Num * list Num * list Num) :
  step mu (h2, hinf, hankel) t = (Some st', t') ->
  exists e2 ek,
    error_of h2_norm mu = Some e2 /\ error_of hankel_norm mu = Some ek
    /\ if HAVE_SLYCOT
       then exists ei, error_of hinf_norm mu = Some ei
                       /\ st' = (h2 ++ [e2], hinf ++ [ei], hankel ++ [ek])
       else st' = (h2 ++ [e2], hinf, hankel ++ [ek]).
Proof.
  unfold reduction_errors_step, reduction_error, do_reductor, do_reduce. intros H.
  apply heat_bind_inv in H as (red & t1 & H1 & H).
  apply heat_call_inv in H1 as [-> ->].
  apply heat_bind_inv in H as (rom_mu & t2 & H2 & H).
  apply heat_call_inv in H2 as [-> ->].
  apply heat_bind_inv in H as (e2 & t3 & H3 & H).
  apply relative_error_inv in H3 as (err2 & a2 & b2 & Herr2 & Ha2 & Hb2 & He2).
  apply heat_bind_inv in H as (hinf' & t4 & H4 & H).
  apply heat_bind_inv in H as (ek & t5 & H5 & H).
  apply relative_error_inv in H5 as (errk & ak & bk & Herrk & Hak & Hbk & Hek).
  rewrite Herr2 in Herrk |- *. injection Herrk as <-.
  unfold ret in H. injection H as <- _.
  exists e2, ek. rewrite Ha2, Hb2, Hak, Hbk.
  split; [exact He2|]. split; [exact Hek|].
  destruct HAVE_SLYCOT.
  - apply heat_bind_inv in H4 as (ei & t6 & H6 & H4).
    apply relative_error_inv in H6 as (erri & ai & bi & Herri & Hai & Hbi & Hei).
    rewrite Herr2 in Herri. injection Herri as <-. unfold ret in H4. injection H4 as <- _.
    exists ei. rewrite Hai, Hbi. split; [exact Hei | reflexivity].
  - unfold ret in H4. injection H4 as <- _. reflexivity.
Qed.

Lemma reduction_error_inv (which : Norm) (mu e : Num) :
  error_of which mu = Some e ->
  exists red rom_mu err a b,
    construct reductor lti mu kwargs = Some red /\ reduce red r = Some rom_mu
    /\ sub lti rom_mu = Some err /\ norm which err mu = Some a
    /\ norm which lti mu = Some b /\ truediv a b = Some e.
Proof.
  unfold reduction_error.
  destruct (construct reductor lti mu kwargs) as [red|]; [|discriminate].
  destruct (reduce red r) as [rom_mu|] eqn:Hrom; [|discriminate].
  destruct (sub lti rom_mu) as [err|] eqn:Herr; [|discriminate].
  destruct (norm which err mu) as [a|] eqn:Ha; [|discriminate].
  destruct (norm which lti mu) as [b|] eqn:Hb; [|discriminate].
  intros H. exists red, rom_mu, err, a, b. repeat split; assumption.
Qed.

Lemma reduction_step_run (mu : Num) (h2 hinf hankel : list Num) (t : Trace) (e2 ek : Num) :
  error_of h2_norm mu = Some e2 -> error_of hankel_norm mu = Some ek ->
  (if HAVE_SLYCOT then exists ei, error_of hinf_norm mu = Some ei else True) ->
  exists st' t', step mu (h2, hinf, hankel) t = (Some st', t').
Proof.
  intros H2 Hk Hi.
  apply reduction_error_inv in H2 as (red & rom_mu & err & a2 & b2 & Hred & Hrom & Herr & Ha2 & Hb2 & He2).
  apply reduction_error_inv in Hk as (red' & rom' & err' & ak & bk & Hred' & Hrom' & Herr' & Hak & Hbk & Hek).
  rewrite Hred in Hred'. injection Hred' as <-.
  rewrite Hrom in Hrom'. injection Hrom' as <-.
  rewrite Herr in Herr'. injection Herr' as <-.
  unfold reduction_errors_step, do_reductor, do_reduce.
  rewrite (heat_bind_run _ _ _ _ _ (heat_call_run _ _ t _ Hred)).
  rewrite (heat_bind_run _ _ _ _ _ (heat_call_run _ _ _ _ Hrom)).
  destruct (relative_error_run h2_norm rom_mu err mu a2 b2 e2
              ((t ++ [reductor_call reductor lti mu kwargs (construct reductor lti mu kwargs)])
               ++ [reduce_call red r (reduce red r)]) Herr Ha2 Hb2 He2) as [t3 H3].
  rewrite (heat_bind_run _ _ _ _ _ H3).
  destruct HAVE_SLYCOT.
  - destruct Hi as [ei Hi].
    apply reduction_error_inv in Hi as (red' & rom' & err' & ai & bi & Hred' & Hrom' & Herr' & Hai & Hbi & Hei).
    rewrite Hred in Hred'. injection Hred' as <-.
    rewrite Hrom in Hrom'. injection Hrom' as <-.
    rewrite Herr in Herr'. injection Herr' as <-.
    destruct (relative_error_run hinf_norm rom_mu err mu ai bi ei t3 Herr Hai Hbi Hei)
      as [t4 H4].
    unfold bind at 1. unfold bind at 1. rewrite H4. unfold ret at 1.
    destruct (relative_error_run hankel_norm rom_mu err mu ak bk ek t4 Herr Hak Hbk Hek)
      as [t5 H5].
    rewrite (heat_bind_run _ _ _ _ _ H5). unfold ret. eauto.
  - unfold bind at 1. unfold ret at 1.
    destruct (relative_error_run hankel_norm rom_mu err mu ak bk ek t3 Herr Hak Hbk Hek)
      as [t5 H5].
    rewrite (heat_bind_run _ _ _ _ _ H5). unfold ret. eauto.
Qed.

Lemma reduction_loop_inv (mu_fine : list Num) :
  forall (h2 hinf hankel : list Num) (t t' : Trace) (st' : list Num * list Num * list Num),
    for_each mu_fine step (h2, hinf, hankel) t = (Some st', t') ->
    exists a b c,
      st' = (h2 ++ a, hinf ++ b, hankel ++ c)
      /\ Forall2 (fun mu e => error_of h2_norm mu = Some e) mu_fine a
      /\ (if HAVE_SLYCOT
          then Forall2 (fun mu e => error_of hinf_norm mu = Some e) mu_fine b
          else b = [])
      /\ Forall2 (fun mu e => error_of hankel_norm mu = Some e) mu_fine c.
Proof.
  induction mu_fine as [|mu mu_fine IH]; intros h2 hinf hankel t t' st' Hrun.
  - simpl in Hrun. unfold ret in Hrun. injection Hrun as <- _.
    exists [], [], []. rewrite !app_nil_r.
    repeat split; try constructor. destruct HAVE_SLYCOT; constructor.
  - cbn [for_each] in Hrun.
    apply heat_bind_inv in Hrun as (st1 & t1 & Hstep & Hrun).
    apply reduction_step_inv in Hstep as (e2 & ek & He2 & Hek & Hi).
    destruct HAVE_SLYCOT.
    + destruct Hi as (ei & Hei & ->).
      apply IH in Hrun as (a & b & c & -> & Ha & Hb & Hc).
      exists (e2 :: a), (ei :: b), (ek :: c). rewrite <- !app_assoc.
      repeat split; try constructor; assumption.
    + subst st1.
      apply IH in Hrun as (a & b & c & -> & Ha & Hb & Hc).
      exists (e2 :: a), b, (ek :: c). rewrite <- !app_assoc.
      repeat split; try constructor; assumption.
Qed.

Lemma reduction_loop_run (mu_fine : list Num) :
  forall (a b c : list Num),
    Forall2 (fun mu e => error_of h2_norm mu = Some e) mu_fine a ->
    (if HAVE_SLYCOT
     then Forall2 (fun mu e => error_of hinf_norm mu = Some e) mu_fine b
     else b = []) ->
    Forall2 (fun mu e => error_of hankel_norm mu = Some e) mu_fine c ->
    forall (h2 hinf hankel : list Num) (t : Trace),
    exists t', for_each mu_fine step (h2, hinf, hankel) t
               = (Some (h2 ++ a, hinf ++ b, hankel ++ c), t').
Proof.
  induction mu_fine as [|mu mu_fine IH]; intros a b c Ha Hb Hc h2 hinf hankel t.
  - inversion Ha; subst. inversion Hc; subst.
    assert (b = []) as -> by (destruct HAVE_SLYCOT; [inversion Hb; reflexivity | exact Hb]).
    rewrite !app_nil_r. eexists. reflexivity.
  - inversion Ha as [|? e2 ? a' He2 Ha']; subst.
    inversion Hc as [|? ek ? c' Hek Hc']; subst.
    cbn [for_each].
    assert (Hi : if HAVE_SLYCOT then exists ei, error_of hinf_norm mu = Some ei else True).
    { destruct HAVE_SLYCOT; [|exact I]. inversion Hb; subst. eauto. }
    destruct (reduction_step_run mu h2 hinf hankel t e2 ek He2 Hek Hi) as (st1 & t1 & Hstep).
    rewrite (heat_bind_run _ _ _ _ _ Hstep).
    apply reduction_step_inv in Hstep as (e2' & ek' & He2' & Hek' & Hst).
    rewrite He2 in He2'. injection He2' as <-.
    rewrite Hek in Hek'. injection Hek' as <-.
    destruct HAVE_SLYCOT.
    + destruct Hst as (ei & Hei & ->).
      inversion Hb as [|? ei' ? b' Hei' Hb']; subst.
      rewrite Hei in Hei'. injection Hei' as <-.
      destruct (IH a' b' c' Ha' Hb' Hc' (h2 ++ [e2]) (hinf ++ [ei]) (hankel ++ [ek]) t1)
        as [t' Hrun].
      exists t'. rewrite Hrun, <- !app_assoc. reflexivity.
    + subst st1 b.
      destruct (IH a' [] c' Ha' eq_refl Hc' (h2 ++ [e2]) hinf (hankel ++ [ek]) t1)
        as [t' Hrun].
      exists t'. rewrite Hrun, <- !app_assoc. reflexivity.
Qed.

(** X11: what [reduction_errors] returns.  A call returns the three lists
    [h2_err_mu], [hinf_err_mu], [hankel_err_mu] exactly when the first and
    the last hold, for each value of [mu_fine] in order, the relative error
    of the reduced model in the H2 norm and in the Hankel norm, and the
    second holds the relative errors in the H-infinity norm when SLYCOT is
    there and is empty when it is not. *)
Theorem reduction_errors_returns_errors (mu_fine : list Num) (t : Trace)
    (h2_err_mu hinf_err_mu hankel_err_mu : list Num) :
  (exists t',
     reduction_errors HAVE_SLYCOT construct reduce sub norm truediv lti r mu_fine
       reductor kwargs t
     = (Some (h2_err_mu, hinf_err_mu, hankel_err_mu), t'))
  <->
  Forall2 (fun mu e => error_of h2_norm mu = Some e) mu_fine h2_err_mu
  /\ (if HAVE_SLYCOT
      then Forall2 (fun mu e => error_of hinf_norm mu = Some e) mu_fine hinf_err_mu
      else hinf_err_mu = [])
  /\ Forall2 (fun mu e => error_of hankel_norm mu = Some e) mu_fine hankel_err_mu.
Proof.
  unfold reduction_errors. split.
  - intros [t' Hrun].
    apply reduction_loop_inv in Hrun as (a & b & c & Heq & Ha & Hb & Hc).
    cbn [app] in Heq. injection Heq as -> -> ->. auto.
  - intros (Ha & Hb & Hc).
    exact (reduction_loop_run mu_fine _ _ _ Ha Hb Hc [] [] [] t).
Qed.

End ReductionErrors.

Section HeatLogic.

Import Heat.

Context {Lti Reductor Num : Type}.

Variable p : Call Lti Reductor Num -> bool.

Abbreviation Script := (M Lti Reductor Num).

Lemma keeps_ret {A : Type} (a : A) : keeps p (ret a : Script A).
Proof. intros t. reflexivity. Qed.

Lemma keeps_raise {A : Type} : keeps p (raise : Script A).
Proof. intros t. reflexivity. Qed.

Lemma keeps_log (c : Call Lti Reductor Num) : p c = false -> keeps p (log c).
Proof.
  intros Hc t. unfold log. cbn [snd]. rewrite filter_app. simpl. rewrite Hc.
  apply app_nil_r.
Qed.

Lemma keeps_bind {A B : Type} (m : Script A) (k : A -> Script B) :
  keeps p m -> (forall a, keeps p (k a)) -> keeps p (bind m k).
Proof.
  intros Hm Hk t. unfold bind. specialize (Hm t).
  destruct (m t) as [[a|] t1]; simpl in *; [rewrite (Hk a t1)|]; exact Hm.
Qed.

Lemma keeps_from_option {A : Type} (o : option A) : keeps p (from_option o : Script A).
Proof. destruct o; [apply keeps_ret | apply keeps_raise]. Qed.

Lemma keeps_for_each {A T : Type} (body : A -> T -> Script T) (xs : list A) :
  (forall x st, keeps p (body x st)) -> forall st, keeps p (for_each xs body st).
Proof.
  intros Hbody. induction xs as [|x xs IH]; intros st; simpl.
  - apply keeps_ret.
  - apply keeps_bind; [apply Hbody | exact IH].
Qed.

Lemma keeps_comprehension {A B : Type} (f : A -> Script B) (xs : list A) :
  (forall x, keeps p (f x)) -> keeps p (comprehension xs f).
Proof.
  intros Hf. induction xs as [|x xs IH]; simpl.
  - apply keeps_ret.
  - apply keeps_bind; [apply Hf|]. intros y.
    apply keeps_bind; [exact IH|]. intros ys. apply keeps_ret.
Qed.

Lemma adds_ret {A : Type} (a : A) : adds p 0 (ret a : Script A).
Proof. intros t a' t' H. unfold ret in H. injection H as _ <-. lia. Qed.

Lemma adds_log (c : Call Lti Reductor Num) : adds p (if p c then 1 else 0) (log c).
Proof.
  intros t a t' H. unfold log in H. inversion H; subst.
  unfold count. rewrite filter_app, length_app. simpl. destruct (p c); reflexivity.
Qed.

Lemma adds_bind {A B : Type} (n1 n2 : nat) (m : Script A) (k : A -> Script B) :
  adds p n1 m -> (forall a, adds p n2 (k a)) -> adds p (n1 + n2) (bind m k).
Proof.
  intros Hm Hk t b t' H. unfold bind in H.
  destruct (m t) as [[a|] t1] eqn:Hmt; [|discriminate].
  rewrite (Hk a _ _ _ H), (Hm _ _ _ Hmt). lia.
Qed.

Lemma adds_from_option {A : Type} (o : option A) : adds p 0 (from_option o : Script A).
Proof.
  destruct o; [apply adds_ret|]. intros t a t' H. discriminate.
Qed.

Lemma adds_for_each {A T : Type} (n : nat) (body : A -> T -> Script T) (xs : list A) :
  (forall x st, adds p n (body x st)) ->
  forall st, adds p (n * List.length xs) (for_each xs body st).
Proof.
  intros Hbody. induction xs as [|x xs IH]; intros st; simpl.
  - rewrite Nat.mul_0_r. apply adds_ret.
  - replace (n * S (List.length xs))%nat with (n + n * List.length xs)%nat by lia.
    apply adds_bind; [apply Hbody | exact IH].
Qed.

End HeatLogic.

Section HeatCalls.

Import Heat.

Context {Lti Reductor Num : Type}.

Variable HAVE_SLYCOT : bool.
Variable construct : ReductorClass -> Lti -> Num -> Kwargs -> option Reductor.
Variable reduce : Reductor -> nat -> option Lti.
Variable sub : Lti -> Lti -> option Lti.
Variable norm : Norm -> Lti -> Num -> option Num.
Variable truediv : Num -> Num -> option Num.
Variable logspace : Z -> Z -> nat -> list Num.

Abbreviation Script := (M Lti Reductor Num).
Abbreviation CallKind := (Call Lti Reductor Num -> bool).

(** A library call adds its one call. *)
Lemma adds_call {A : Type} (p : CallKind) (c : Call Lti Reductor Num) (o : option A) :
  adds p (if p c then 1 else 0) (bind (log c) (fun _ => from_option o)).
Proof.
  replace (if p c then 1 else 0)%nat with ((if p c then 1 else 0) + 0)%nat by lia.
  apply adds_bind; [apply adds_log | intros _; apply adds_from_option].
Qed.

Lemma keeps_call {A : Type} (p : CallKind) (c : Call Lti Reductor Num) (o : option A) :
  p c = false -> keeps p (bind (log c) (fun _ => from_option o)).
Proof.
  intros Hc. apply keeps_bind; [apply keeps_log; exact Hc|].
  intros _. apply keeps_from_option.
Qed.

Lemma adds_relative_error (p : CallKind) (which : Norm) (lti rom_mu : Lti) (mu : Num)
    (n_sub n_norm : nat) :
  (forall a b c, (if p (sub_call a b c) then 1 else 0)%nat = n_sub) ->
  (forall a b c, (if p (norm_call which a b c) then 1 else 0)%nat = n_norm) ->
  adds p (n_sub + 2 * n_norm) (relative_error sub norm truediv which lti rom_mu mu).
Proof.
  intros Hsub Hnorm. unfold relative_error, do_sub, do_norm.
  replace (n_sub + 2 * n_norm)%nat with (n_sub + (n_norm + (n_norm + 0)))%nat by lia.
  apply adds_bind; [rewrite <- (Hsub lti rom_mu (sub lti rom_mu)); apply adds_call|].
  intros err.
  apply adds_bind; [rewrite <- (Hnorm err mu (norm which err mu)); apply adds_call|].
  intros a.
  apply adds_bind; [rewrite <- (Hnorm lti mu (norm which lti mu)); apply adds_call|].
  intros b. apply adds_from_option.
Qed.

(** One round of the loop of [reduction_errors]: with [n_reductor],
    [n_reduce], [n_sub] and [n_norm] the weights (0 or 1) of the four kinds
    of calls in the count. *)
Lemma adds_reduction_errors_step (p : CallKind) (lti : Lti) (r : nat)
    (reductor : ReductorClass) (kwargs : Kwargs) (mu : Num)
    (st : list Num * list Num * list Num) (n_reductor n_reduce n_sub n_norm : nat) :
  (forall a b c d e, (if p (reductor_call a b c d e) then 1 else 0)%nat = n_reductor) ->
  (forall a b c, (if p (reduce_call a b c) then 1 else 0)%nat = n_reduce) ->
  (forall a b c, (if p (sub_call a b c) then 1 else 0)%nat = n_sub) ->
  (forall w a b c, (if p (norm_call w a b c) then 1 else 0)%nat = n_norm) ->
  adds p (n_reductor + n_reduce + (if HAVE_SLYCOT then 3 else 2) * (n_sub + 2 * n_norm))
    (reduction_errors_step HAVE_SLYCOT construct reduce sub norm truediv lti r reductor
       kwargs mu st).
Proof.
  intros Hreductor Hreduce Hsub Hnorm.
  unfold reduction_errors_step, do_reductor, do_reduce. destruct st as [[h2 hinf] hankel].
  set (k := (n_sub + 2 * n_norm)%nat).
  replace (n_reductor + n_reduce + (if HAVE_SLYCOT then 3 else 2) * k)%nat
    with (n_reductor + (n_reduce + (k + ((if HAVE_SLYCOT then k else 0) + (k + 0)))))%nat
    by (destruct HAVE_SLYCOT; lia).
  apply adds_bind; [rewrite <- (Hreductor reductor lti mu kwargs
                                  (construct reductor lti mu kwargs)); apply adds_call|].
  intros red.
  apply adds_bind; [rewrite <- (Hreduce red r (reduce red r)); apply adds_call|].
  intros rom_mu.
  apply adds_bind; [apply adds_relative_error; [exact Hsub | apply Hnorm]|].
  intros e2.
  apply adds_bind.
  { destruct HAVE_SLYCOT; [|apply adds_ret].
    replace k with (k + 0)%nat by lia.
    apply adds_bind; [apply adds_relative_error; [exact Hsub | apply Hnorm]|].
    intros ei. apply adds_ret. }
  intros hinf'.
  apply adds_bind; [apply adds_relative_error; [exact Hsub | apply Hnorm]|].
  intros ek. apply adds_ret.
Qed.

(** X13: the calls that [reduction_errors] costs.  A call that returns has
    constructed one reductor and called its [reduce] once for each value of
    [mu_fine], has formed the error system [lti - rom_mu] anew for each
    norm, and has computed two norms for each relative error, the norm of
    [lti] among them: with SLYCOT three error systems and six norms per
    parameter value, without it two and four. *)
Theorem reduction_errors_cost (lti : Lti) (r : nat) (mu_fine : list Num)
    (reductor : ReductorClass) (kwargs : Kwargs)
    (t t' : list (Call Lti Reductor Num)) (errors : list Num * list Num * list Num) :
  reduction_errors HAVE_SLYCOT construct reduce sub norm truediv lti r mu_fine reductor
    kwargs t = (Some errors, t') ->
  let n := List.length mu_fine in
  count is_reductor t' = (count is_reductor t + n)%nat
  /\ count is_reduce t' = (count is_reduce t + n)%nat
  /\ count is_sub t' = (count is_sub t + (if HAVE_SLYCOT then 3 else 2) * n)%nat
  /\ count is_norm t' = (count is_norm t + (if HAVE_SLYCOT then 6 else 4) * n)%nat.
Proof.
  intros Hrun n. unfold reduction_errors in Hrun.
  assert (Hloop : forall (p : CallKind) (a b c d : nat),
    (forall x1 x2 x3 x4 x5, (if p (reductor_call x1 x2 x3 x4 x5) then 1 else 0)%nat = a) ->
    (forall x1 x2 x3, (if p (reduce_call x1 x2 x3) then 1 else 0)%nat = b) ->
    (forall x1 x2 x3, (if p (sub_call x1 x2 x3) then 1 else 0)%nat = c) ->
    (forall x0 x1 x2 x3, (if p (norm_call x0 x1 x2 x3) then 1 else 0)%nat = d) ->
    count p t' = (count p t
                  + (a + b + (if HAVE_SLYCOT then 3 else 2) * (c + 2 * d)) * n)%nat).
  { intros p a b c d Ha Hb Hc Hd.
    refine (adds_for_each p _ _ mu_fine _ _ t errors t' Hrun).
    intros mu st. apply adds_reduction_errors_step; assumption. }
  split; [rewrite (Hloop is_reductor 1 0 0 0)%nat by reflexivity; destruct HAVE_SLYCOT; lia|].
  split; [rewrite (Hloop is_reduce 0 1 0 0)%nat by reflexivity; destruct HAVE_SLYCOT; lia|].
  split; [rewrite (Hloop is_sub 0 0 1 0)%nat by reflexivity; destruct HAVE_SLYCOT; lia|].
  rewrite (Hloop is_norm 0 0 0 1)%nat by reflexivity. destruct HAVE_SLYCOT; lia.
Qed.

End HeatCalls.

Section WithoutSlycot.

Import Heat.

Context {Lti Reductor Num : Type}.

Variable construct : ReductorClass -> Lti -> Num -> Kwargs -> option Reductor.
Variable reduce : Reductor -> nat -> option Lti.
Variable sub : Lti -> Lti -> option Lti.
Variable norm : Norm -> Lti -> Num -> option Num.
Variable truediv : Num -> Num -> option Num.
Variable logspace : Z -> Z -> nat -> list Num.

Abbreviation Script := (M Lti Reductor Num).

Lemma no_hinf_norm_relative_error (which : Norm) (lti rom_mu : Lti) (mu : Num) :
  which <> hinf_norm ->
  keeps is_hinf_norm (relative_error sub norm truediv which lti rom_mu mu : Script Num).
Proof.
  intros Hwhich. unfold relative_error, do_sub, do_norm.
  apply keeps_bind; [apply keeps_call; reflexivity|]. intros err.
  apply keeps_bind; [apply keeps_call; destruct which; try reflexivity; congruence|]. intros a.
  apply keeps_bind; [apply keeps_call; destruct which; try reflexivity; congruence|]. intros b.
  apply keeps_from_option.
Qed.

Lemma no_hinf_norm_reduction_errors (lti : Lti) (r : nat) (mu_fine : list Num)
    (reductor : ReductorClass) (kwargs : Kwargs) :
  keeps is_hinf_norm
    (reduction_errors false construct reduce sub norm truediv lti r mu_fine reductor kwargs).
Proof.
  unfold reduction_errors. apply keeps_for_each. intros mu [[h2 hinf] hankel].
  unfold reduction_errors_step, do_reductor, do_reduce.
  apply keeps_bind; [apply keeps_call; reflexivity|]. intros red.
  apply keeps_bind; [apply keeps_call; reflexivity|]. intros rom_mu.
  apply keeps_bind; [apply no_hinf_norm_relative_error; discriminate|]. intros e2.
  apply keeps_bind; [apply keeps_ret|]. intros hinf'.
  apply keeps_bind; [apply no_hinf_norm_relative_error; discriminate|]. intros ek.
  apply keeps_ret.
Qed.

Lemma no_hinf_norm_plot (x y : list Num) (label : string) :
  keeps is_hinf_norm (do_plot x y label : Script unit).
Proof.
  unfold do_plot. destruct (_ =? _)%nat; [apply keeps_log; reflexivity | apply keeps_raise].
Qed.

Lemma no_hinf_norm_semilogy (x y : list Num) (fmt label : string) :
  keeps is_hinf_norm (do_semilogy x y fmt label : Script unit).
Proof.
  unfold do_semilogy.
  destruct (_ =? _)%nat; [apply keeps_log; reflexivity | apply keeps_raise].
Qed.

Lemma no_hinf_norm_errors_plot_cell (mu_fine : list Num)
    (errors : list Num * list Num * list Num) (title : string) :
  keeps is_hinf_norm (errors_plot_cell false mu_fine errors title : Script unit).
Proof.
  unfold errors_plot_cell. destruct errors as [[h2 hinf] hankel].
  apply keeps_bind; [apply keeps_log; reflexivity|]. intros _.
  apply keeps_bind; [apply no_hinf_norm_semilogy|]. intros _.
  apply keeps_bind; [apply keeps_ret|]. intros _.
  apply keeps_bind; [apply no_hinf_norm_semilogy|]. intros _.
  apply keeps_bind; [apply keeps_log; reflexivity|]. intros _.
  apply keeps_bind; [apply keeps_log; reflexivity|]. intros _.
  apply keeps_bind; [apply keeps_log; reflexivity|]. intros _.
  apply keeps_log; reflexivity.
Qed.

(** X12: without SLYCOT the H-infinity norm is never computed.  When
    [config.HAVE_SLYCOT] is false, no run of [reduction_errors] (for any
    model, order, parameter values, reductor class and keyword arguments),
    of the cell that plots the system norms, or of the cells that compare
    the four reductors calls [hinf_norm], whether the run returns or stops
    with an exception. *)
Theorem without_slycot_no_hinf_norm (lti : Lti) :
  (forall r mu_fine reductor kwargs,
      keeps is_hinf_norm
        (reduction_errors false construct reduce sub norm truediv lti r mu_fine reductor
           kwargs))
  /\ keeps is_hinf_norm (system_norms_cell false norm logspace lti : Script unit)
  /\ keeps is_hinf_norm
       (model_reduction_cells false construct reduce sub norm truediv logspace lti).
Proof.
  split; [intros; apply no_hinf_norm_reduction_errors|]. split.
  - unfold system_norms_cell.
    apply keeps_bind; [apply keeps_log; reflexivity|]. intros _.
    apply keeps_bind.
    { apply keeps_comprehension. intros mu. apply keeps_call. reflexivity. }
    intros h2.
    apply keeps_bind; [apply no_hinf_norm_plot|]. intros _.
    apply keeps_bind; [apply keeps_ret|]. intros _.
    apply keeps_bind.
    { apply keeps_comprehension. intros mu. apply keeps_call. reflexivity. }
    intros hankel.
    apply keeps_bind; [apply no_hinf_norm_plot|]. intros _.
    apply keeps_bind; [apply keeps_log; reflexivity|]. intros _.
    apply keeps_bind; [apply keeps_log; reflexivity|]. intros _.
    apply keeps_bind; [apply keeps_log; reflexivity|]. intros _.
    apply keeps_log; reflexivity.
  - unfold model_reduction_cells.
    apply keeps_bind; [apply no_hinf_norm_reduction_errors|]. intros e1.
    apply keeps_bind; [apply no_hinf_norm_errors_plot_cell|]. intros _.
    apply keeps_bind; [apply no_hinf_norm_reduction_errors|]. intros e2.
    apply keeps_bind; [apply no_hinf_norm_errors_plot_cell|]. intros _.
    apply keeps_bind; [apply no_hinf_norm_reduction_errors|]. intros e3.
    apply keeps_bind; [apply no_hinf_norm_errors_plot_cell|]. intros _.
    apply keeps_bind; [apply no_hinf_norm_reduction_errors|]. intros e4.
    apply no_hinf_norm_errors_plot_cell.
Qed.

End WithoutSlycot.

Section ModelReductionCells.

Import Heat.

Context {Lti Reductor Num : Type}.

Variable HAVE_SLYCOT : bool.
Variable construct : ReductorClass -> Lti -> Num -> Kwargs -> option Reductor.
Variable reduce : Reductor -> nat -> option Lti.
Variable sub : Lti -> Lti -> option Lti.
Variable norm : Norm -> Lti -> Num -> option Num.
Variable truediv : Num -> Num -> option Num.
Variable logspace : Z -> Z -> nat -> list Num.

Abbreviation Trace := (list (Call Lti Reductor Num)).
Abbreviation error_of := (reduction_error construct reduce sub norm truediv).
Abbreviation errors :=
  (reduction_errors HAVE_SLYCOT construct reduce sub norm truediv).

Lemma Forall2_length_eq {A B : Type} (P : A -> B -> Prop) (xs : list A) (ys : list B) :
  Forall2 P xs ys -> List.length xs = List.length ys.
Proof. induction 1; simpl; congruence. Qed.

Lemma Forall2_total {A B : Type} (f : A -> option B) (xs : list A) :
  (forall x, In x xs -> f x <> None) ->
  exists ys, Forall2 (fun x y => f x = Some y) xs ys.
Proof.
  induction xs as [|x xs IH]; intros H.
  - exists []. constructor.
  - destruct IH as [ys Hys]; [intros y Hy; apply H; right; exact Hy|].
    destruct (f x) as [y|] eqn:Hfx; [|exfalso; apply (H x); [left; reflexivity | exact Hfx]].
    exists (y :: ys). constructor; assumption.
Qed.

(** [reduction_errors] returns when every relative error it needs is
    there, with lists that the plot of the errors accepts. *)
Lemma reduction_errors_total (lti : Lti) (r : nat) (mu_fine : list Num)
    (reductor : ReductorClass) (kwargs : Kwargs) (t : Trace) :
  (forall which mu, In mu mu_fine -> (which = hinf_norm -> HAVE_SLYCOT = true) ->
                    error_of lti r reductor kwargs which mu <> None) ->
  exists h2 hinf hankel t',
    errors lti r mu_fine reductor kwargs t = (Some (h2, hinf, hankel), t')
    /\ List.length mu_fine = List.length h2
    /\ List.length mu_fine = List.length hankel
    /\ (HAVE_SLYCOT = true -> List.length mu_fine = List.length hinf).
Proof.
  intros Herr.
  destruct (Forall2_total (error_of lti r reductor kwargs h2_norm) mu_fine) as [h2 Hh2].
  { intros mu Hmu. apply Herr; [exact Hmu | discriminate]. }
  destruct (Forall2_total (error_of lti r reductor kwargs hankel_norm) mu_fine)
    as [hankel Hhankel].
  { intros mu Hmu. apply Herr; [exact Hmu | discriminate]. }
  assert (Hhinf : exists hinf,
             (if HAVE_SLYCOT
              then Forall2 (fun mu e => error_of lti r reductor kwargs hinf_norm mu = Some e)
                     mu_fine hinf
              else hinf = [])
             /\ (HAVE_SLYCOT = true -> List.length mu_fine = List.length hinf)).
  { destruct HAVE_SLYCOT.
    - destruct (Forall2_total (error_of lti r reductor kwargs hinf_norm) mu_fine)
        as [hinf Hhinf].
      { intros mu Hmu. apply Herr; [exact Hmu | reflexivity]. }
      exists hinf. split; [exact Hhinf|]. intros _. exact (Forall2_length_eq _ _ _ Hhinf).
    - exists []. split; [reflexivity | discriminate]. }
  destruct Hhinf as (hinf & Hhinf & Hlen).
  destruct (reduction_loop_run HAVE_SLYCOT construct reduce sub norm truediv lti r
              reductor kwargs mu_fine h2 hinf hankel Hh2 Hhinf Hhankel [] [] [] t)
    as [t' Hrun].
  exists h2, hinf, hankel, t'. split; [exact Hrun|].
  split; [exact (Forall2_length_eq _ _ _ Hh2)|].
  split; [exact (Forall2_length_eq _ _ _ Hhankel) | exact Hlen].
Qed.

Lemma errors_plot_cell_total (mu_fine h2 hinf hankel : list Num) (title : string)
    (t : Trace) :
  List.length mu_fine = List.length h2 ->
  List.length mu_fine = List.length hankel ->
  (HAVE_SLYCOT = true -> List.length mu_fine = List.length hinf) ->
  exists t', errors_plot_cell HAVE_SLYCOT mu_fine (h2, hinf, hankel) title t = (Some tt, t').
Proof.
  intros H2 Hk Hi. unfold errors_plot_cell, do_semilogy.
  rewrite <- H2, <- Hk, Nat.eqb_refl.
  destruct HAVE_SLYCOT.
  - rewrite <- (Hi eq_refl), Nat.eqb_refl. eexists. reflexivity.
  - eexists. reflexivity.
Qed.

Lemma comprehension_total {A : Type} (f : A -> option Num)
    (c : A -> option Num -> Call Lti Reductor Num) (xs : list A) :
  (forall x, In x xs -> f x <> None) ->
  forall t, exists ys t',
    comprehension xs (fun x => bind (log (c x (f x))) (fun _ => from_option (f x))) t
    = (Some ys, t')
    /\ List.length xs = List.length ys.
Proof.
  induction xs as [|x xs IH]; intros H t.
  - exists [], t. split; reflexivity.
  - cbn [comprehension].
    destruct (f x) as [y|] eqn:Hfx; [|exfalso; apply (H x); [left; reflexivity | exact Hfx]].
    rewrite (heat_bind_run _ _ _ _ _ (heat_call_run (c x (Some y)) (Some y) t y eq_refl)).
    destruct (IH (fun z Hz => H z (or_intror Hz)) (t ++ [c x (Some y)]))
      as (ys & t' & Hrun & Hlen).
    rewrite (heat_bind_run _ _ _ _ _ Hrun). unfold ret.
    exists (y :: ys), t'. split; [reflexivity | simpl; congruence].
Qed.

Lemma do_plot_total (x y : list Num) (label : string) (t : Trace) :
  List.length x = List.length y ->
  do_plot x y label t = (Some tt, t ++ [plot_call x y label]).
Proof. intros H. unfold do_plot. rewrite H, Nat.eqb_refl. reflexivity. Qed.

Lemma system_norms_cell_total (lti : Lti) (t : Trace) :
  (forall which mu, In mu (logspace (-1) 1 20) -> (which = hinf_norm -> HAVE_SLYCOT = true) ->
                    norm which lti mu <> None) ->
  exists t', system_norms_cell HAVE_SLYCOT norm logspace lti t = (Some tt, t').
Proof.
  intros Hnorm. unfold system_norms_cell, do_norm.
  unfold bind at 1. unfold log at 1.
  set (mu_fine := logspace (-1)%Z 1%Z 20%nat) in *.
  destruct (comprehension_total (norm h2_norm lti) (norm_call h2_norm lti) mu_fine
              (fun mu Hmu => Hnorm h2_norm mu Hmu ltac:(discriminate))
              (t ++ [subplots_call])) as (h2 & t1 & H1 & Hl1).
  rewrite (heat_bind_run _ _ _ _ _ H1).
  rewrite (heat_bind_run _ _ _ _ _ (do_plot_total _ _ _ _ Hl1)).
  assert (Hinf : exists t2,
    (if HAVE_SLYCOT
     then bind (comprehension mu_fine
                  (fun mu => bind (log (norm_call hinf_norm lti mu (norm hinf_norm lti mu)))
                               (fun _ => from_option (norm hinf_norm lti mu))))
            (fun hinf_norm_mu => do_plot mu_fine hinf_norm_mu "$\mathcal{H}_\infty$-norm")
     else ret tt) (t1 ++ [plot_call mu_fine h2 "$\mathcal{H}_2$-norm"]) = (Some tt, t2)).
  { destruct HAVE_SLYCOT; [|eexists; reflexivity].
    destruct (comprehension_total (norm hinf_norm lti) (norm_call hinf_norm lti) mu_fine
                (fun mu Hmu => Hnorm hinf_norm mu Hmu (fun _ => eq_refl))
                (t1 ++ [plot_call mu_fine h2 "$\mathcal{H}_2$-norm"]))
      as (hinf & t2 & H2 & Hl2).
    rewrite (heat_bind_run _ _ _ _ _ H2), (do_plot_total _ _ _ _ Hl2). eexists. reflexivity. }
  destruct Hinf as [t2 H2]. rewrite (heat_bind_run _ _ _ _ _ H2).
  destruct (comprehension_total (norm hankel_norm lti) (norm_call hankel_norm lti) mu_fine
              (fun mu Hmu => Hnorm hankel_norm mu Hmu ltac:(discriminate)) t2)
    as (hankel & t3 & H3 & Hl3).
  rewrite (heat_bind_run _ _ _ _ _ H3).
  rewrite (heat_bind_run _ _ _ _ _ (do_plot_total _ _ _ _ Hl3)).
  eexists. reflexivity.
Qed.

(** X14: the plots get lists of matching lengths.  When the norms and the
    relative errors that the cells need are there (the H-infinity ones only
    if SLYCOT is), the cell that plots the system norms and then the cells
    that compare the four reductors run to their end: no call of [ax.plot]
    or [ax.semilogy] raises for arguments of different lengths, with SLYCOT
    and without it, where the list of the H-infinity errors is empty and is
    not plotted. *)
Theorem notebook_plots_match (lti : Lti) (t : Trace) :
  (forall which mu, In mu (logspace (-1) 1 20) -> (which = hinf_norm -> HAVE_SLYCOT = true) ->
                    norm which lti mu <> None) ->
  (forall reductor kwargs which mu,
      In (reductor, kwargs)
         [(BTReductor, []); (IRKAReductor, []); (TSIAReductor, []);
          (OneSidedIRKAReductor, [("version", "V")])] ->
      In mu (logspace (-1) 1 10) -> (which = hinf_norm -> HAVE_SLYCOT = true) ->
      error_of lti 5 reductor kwargs which mu <> None) ->
  exists t1 t2,
    system_norms_cell HAVE_SLYCOT norm logspace lti t = (Some tt, t1)
    /\ model_reduction_cells HAVE_SLYCOT construct reduce sub norm truediv logspace lti t1
       = (Some tt, t2).
Proof.
  intros Hnorm Herr.
  destruct (system_norms_cell_total lti t Hnorm) as [t1 H1].
  exists t1. unfold model_reduction_cells.
  set (mu_fine := logspace (-1)%Z 1%Z 10%nat) in *.
  assert (Hpair : forall reductor kwargs title t0,
    In (reductor, kwargs)
       [(BTReductor, []); (IRKAReductor, []); (TSIAReductor, []);
        (OneSidedIRKAReductor, [("version", "V")])] ->
    exists t', bind (errors lti 5 mu_fine reductor kwargs)
                 (fun e => errors_plot_cell HAVE_SLYCOT mu_fine e title) t0 = (Some tt, t')).
  { intros reductor kwargs title t0 Hin.
    destruct (reduction_errors_total lti 5 mu_fine reductor kwargs t0)
      as (h2 & hinf & hankel & t' & Hrun & Hl2 & Hlk & Hli).
    { intros which mu. apply Herr. exact Hin. }
    rewrite (heat_bind_run _ _ _ _ _ Hrun).
    apply errors_plot_cell_total; assumption. }
  destruct (Hpair BTReductor [] "Balanced truncation errors" t1) as [ta Ha];
    [simpl; auto|].
  destruct (Hpair IRKAReductor [] "IRKA errors" ta) as [tb Hb]; [simpl; auto|].
  destruct (Hpair TSIAReductor [] "TSIA errors" tb) as [tc Hc]; [simpl; auto|].
  destruct (Hpair OneSidedIRKAReductor [("version", "V")] "One-sided IRKA errors" tc)
    as [td Hd]; [simpl; auto|].
  exists td. split; [exact H1|].
  unfold bind in Ha, Hb, Hc, Hd |- *.
  destruct (errors lti 5 mu_fine BTReductor [] t1) as [[e1|] u1]; [|discriminate].
  rewrite Ha.
  destruct (errors lti 5 mu_fine IRKAReductor [] ta) as [[e2|] u2]; [|discriminate].
  rewrite Hb.
  destruct (errors lti 5 mu_fine TSIAReductor [] tb) as [[e3|] u3]; [|discriminate].
  rewrite Hc. exact Hd.
Qed.

End ModelReductionCells.

Section FrequencyResponse.

Import Heat.

Context {Lti Reductor Num : Type}.

Variable logspace : Z -> Z -> nat -> list Num.
Variable freq_resp : Lti -> list Num -> Num -> option (list (list (list Num))).
Variable matrix_norm : list (list Num) -> Num.
Variable zero : Num.

Abbreviation Trace := (list (Call Lti Reductor Num)).
Abbreviation Matrix := (Array2 (Num := Num)).
Abbreviation fill_column := (fun (lti : Lti) (w : list Num) =>
  fun '(i, mu) (lti_w_mu : Matrix) =>
    bind (do_freq_resp (Reductor := Reductor) freq_resp lti w mu)
      (fun resp => from_option (set_column zero lti_w_mu i (map matrix_norm resp)))).

Lemma nth_map_norm (resp : list (list (list Num))) (j : nat) (rj : list (list Num)) :
  nth_error resp j = Some rj -> nth j (map matrix_norm resp) zero = matrix_norm rj.
Proof.
  revert j. induction resp as [|r resp IH]; intros [|j] H; simpl in *; try discriminate.
  - congruence.
  - apply IH. exact H.
Qed.

Lemma fill_columns (lti : Lti) (w : list Num) (mus : list Num) :
  forall (k : nat) (M : Matrix) (t : Trace),
    nrows M = List.length w ->
    (k + List.length mus <= ncols M)%nat ->
    (forall mu, In mu mus ->
                exists resp, freq_resp lti w mu = Some resp
                             /\ List.length resp = List.length w) ->
    exists M' t',
      for_each (enumerate_from k mus) (fill_column lti w) M t = (Some M', t')
      /\ nrows M' = nrows M /\ ncols M' = ncols M
      /\ (forall i j, (i < k)%nat -> entry M' j i = entry M j i)
      /\ (forall i mu resp j rj,
             nth_error mus i = Some mu -> freq_resp lti w mu = Some resp ->
             nth_error resp j = Some rj -> entry M' j (k + i) = matrix_norm rj).
Proof.
  induction mus as [|mu mus IH]; intros k M t Hrows Hcols Hresp.
  - exists M, t. simpl. unfold ret. repeat split; auto.
    intros [|i] ? ? ? ? H; discriminate.
  - destruct (Hresp mu (or_introl eq_refl)) as (resp & Hfr & Hlen).
    cbn [enumerate_from for_each]. unfold bind at 1. unfold bind at 1.
    unfold do_freq_resp at 1. unfold bind at 1, log at 1.
    rewrite Hfr. cbn [from_option]. unfold ret at 1.
    unfold set_column.
    cbn [List.length] in Hcols.
    assert (Hk : (k <? ncols M)%nat = true) by (apply Nat.ltb_lt; lia).
    rewrite Hk, length_map, Hlen, Hrows, Nat.eqb_refl. cbn [from_option]. unfold ret at 1.
    match goal with
    | |- context [for_each _ _ ?M1 ?t1] =>
      destruct (IH (S k) M1 t1) as (M' & t' & Hrun & Hr & Hc & Hold & Hnew)
    end.
    + reflexivity.
    + cbn [ncols]. lia.
    + intros m Hm. apply Hresp. right. exact Hm.
    + exists M', t'. split; [exact Hrun|]. cbn [nrows ncols entry] in *.
      split; [congruence|]. split; [exact Hc|]. split.
      * intros i j Hi. rewrite Hold by lia.
        destruct (Nat.eqb_spec i k); [lia | reflexivity].
      * intros [|i] m r j rj Hm Hr' Hj.
        -- simpl in Hm. injection Hm as <-. rewrite Hfr in Hr'. injection Hr' as <-.
           rewrite Nat.add_0_r, Hold by lia. rewrite Nat.eqb_refl.
           apply nth_map_norm. exact Hj.
        -- simpl in Hm. replace (k + S i)%nat with (S k + i)%nat by lia.
           exact (Hnew i m r j rj Hm Hr' Hj).
Qed.

(** X17: the matrix of the frequency response.  The cell reads the
    frequencies from the name [w] and sizes the matrix by its own
    [w_list].  When [lti.freq_resp] returns one matrix per frequency of
    [w]: if [w] has as many entries as [w_list], as after the cell of the
    magnitude plots, which sets it by the same call of [np.logspace], the
    cell returns a matrix with one row per frequency and one column per
    parameter value, and the entry in row [j] and column [i] is the norm
    of the response at frequency [j] for parameter value [i], so no entry
    keeps its initial zero; if [w] has another number of entries, and not
    just one, the first assignment of a column raises. *)
Theorem frequency_response_matrix (lti : Lti) (w : list Num) (t : Trace) :
  let w_list := logspace (-1) 3 100 in
  let mu_list := logspace (-1) 1 20 in
  let cell := frequency_response_cell (Reductor := Reductor) logspace freq_resp
                matrix_norm zero lti w in
  (forall mu, In mu mu_list ->
              exists resp, freq_resp lti w mu = Some resp
                           /\ List.length resp = List.length w) ->
  (List.length w = List.length w_list ->
   exists M t',
     cell t = (Some M, t')
     /\ nrows M = List.length w_list
     /\ ncols M = List.length mu_list
     /\ forall i mu resp j rj,
          nth_error mu_list i = Some mu -> freq_resp lti w mu = Some resp ->
          nth_error resp j = Some rj -> entry M j i = matrix_norm rj)
  /\ (List.length w <> List.length w_list -> List.length w <> 1%nat -> mu_list <> [] ->
      fst (cell t) = None).
Proof.
  intros w_list mu_list cell Hresp. subst cell. unfold frequency_response_cell.
  fold w_list mu_list. split.
  - intros Hw.
    destruct (fill_columns lti w mu_list 0
                (np_zeros zero (List.length w_list) (List.length mu_list)) t)
      as (M & t' & Hrun & Hr & Hc & _ & Hnew).
    + cbn [np_zeros nrows]. congruence.
    + cbn [np_zeros ncols]. lia.
    + exact Hresp.
    + exists M, t'. split; [exact Hrun|]. split; [exact Hr|]. split; [exact Hc|].
      intros i mu resp j rj. exact (Hnew i mu resp j rj).
  - intros Hw Hone Hne.
    destruct mu_list as [|mu mus] eqn:Hmus; [contradiction|].
    destruct (Hresp mu (or_introl eq_refl)) as (resp & Hfr & Hlen).
    cbn [enumerate_from for_each]. unfold bind at 1. unfold bind at 1.
    unfold do_freq_resp at 1. unfold bind at 1, log at 1.
    rewrite Hfr. cbn [from_option]. unfold ret at 1.
    unfold set_column. cbn [np_zeros ncols nrows List.length Nat.ltb Nat.leb].
    rewrite length_map, Hlen.
    destruct (Nat.eqb_spec (List.length w) (List.length w_list)); [contradiction|].
    destruct (Nat.eqb_spec (List.length w) 1); [contradiction|].
    reflexivity.
Qed.

End FrequencyResponse.

(** ** Runs of the example libraries *)

(** A clock whose readings lie further and further apart. *)
Lemma square_clock_moves (n : nat) : INR (S n * S n) <> INR (n * n).
Proof. intros H. apply INR_eq in H. lia. Qed.

Lemma example_run_square_clock_returns :
  exists res w',
    tutorial Example.discretize Example.fom_solve Example.space Example.sample_uniformly
      Example.sample_randomly Example.reductor Example.reduce Example.rom_solve
      Example.reconstruct (fun n => INR (n * n)) V1.problem V1.diameter (start_world tt)
    = (Some res, w').
Proof.
  apply tutorial_total.
  - exact square_clock_moves.
  - intros mu. exists (mu_to_numpy mu). split; reflexivity.
  - intros rs. discriminate.
Qed.

(** A run of the example library with the clock that reads 0, 1, 4, 9, ...:
    ten speedups after forty readings, and the first speedup is the time
    1 - 0 around the full solve over the time 9 - 4 around the reduced
    solve. *)
Lemma tutorial_speedups_witness :
  exists res w',
    tutorial Example.discretize Example.fom_solve Example.space Example.sample_uniformly
      Example.sample_randomly Example.reductor Example.reduce Example.rom_solve
      Example.reconstruct (fun n => INR (n * n)) V1.problem V1.diameter (start_world tt)
    = (Some res, w')
    /\ List.length (speedups res) = 10%nat
    /\ ticks w' = 40%nat
    /\ nth 0 (speedups res) 0 = 1 / 5.
Proof.
  destruct example_run_square_clock_returns as (res & w' & Hrun).
  exists res, w'. split; [exact Hrun|].
  destruct (tutorial_speedups Example.discretize Example.fom_solve Example.space
              Example.sample_uniformly Example.sample_randomly Example.reductor
              Example.reduce Example.rom_solve Example.reconstruct
              (fun n => INR (n * n)) V1.problem V1.diameter (start_world tt) w' res Hrun)
    as (rom & before & cs & _ & _ & _ & _ & Hlen & Ht & Hsp).
  split; [exact Hlen|]. split; [exact Ht|].
  destruct (Hsp 0%nat) as [_ H0]; [simpl; lia|].
  rewrite H0. simpl. lra.
Defined.


Lemma example_clock_increases (n : nat) : Example.clock n < Example.clock (S n).
Proof. unfold Example.clock. rewrite S_INR. lra. Qed.

(** The clock of the example library counts its readings, so every
    speedup of the run is positive. *)
Lemma tutorial_speedups_positive_witness :
  exists res w',
    example_run (start_world tt) = (Some res, w')
    /\ Forall (fun s => 0 < s) (speedups res).
Proof.
  destruct example_run_returns as (res & w' & Hrun).
  exists res, w'. split; [exact Hrun|].
  exact (proj1 (tutorial_speedups_positive Example.discretize Example.fom_solve
                  Example.space Example.sample_uniformly Example.sample_randomly
                  Example.reductor Example.reduce Example.rom_solve Example.reconstruct
                  Example.clock V1.problem V1.diameter (start_world tt) w' res
                  example_clock_increases Hrun)).
Defined.

(** The run of the example library has full solutions. *)
Lemma example_run_full_solutions :
  exists res w',
    example_run (start_world tt) = (Some res, w') /\ U_full res <> [].
Proof.
  destruct example_run_returns as (res & w' & Hrun).
  exists res, w'. split; [exact Hrun|].
  destruct (tutorial_inv _ _ _ _ _ _ _ _ _ _ _ _ _ _ _ Hrun)
    as (_ & _ & w1 & _ & _ & _ & Hloop & _).
  destruct (test_loop_result _ _ _ _ _ _ _ _ _ _ _ _ _ _ Hloop)
    as (vs & sps & _ & _ & Heq).
  injection Heq as -> _ _. discriminate.
Qed.

(** In the run of the example library the reduced model reproduces the
    full solutions, and the average absolute error is zero. *)
Lemma tutorial_zero_error_iff_exact_witness :
  exists res w',
    example_run (start_world tt) = (Some res, w')
    /\ (average_absolute_error res = 0 <-> U_reduced res = U_full res).
Proof.
  destruct example_run_full_solutions as (res & w' & Hrun & Hne).
  exists res, w'. split; [exact Hrun|].
  exact (proj2 (tutorial_zero_error_iff_exact Example.discretize Example.fom_solve
                  Example.space Example.sample_uniformly Example.sample_randomly
                  Example.reductor Example.reduce Example.rom_solve Example.reconstruct
                  Example.clock V1.problem V1.diameter (start_world tt) w' res Hrun Hne)).
Defined.

(** A clock that runs twice as fast. *)
Lemma fast_clock_moves (n : nat) : 2 * INR (S n) <> 2 * INR n.
Proof. rewrite S_INR. lra. Qed.

Lemma example_run_fast_clock_returns :
  exists res w',
    tutorial Example.discretize Example.fom_solve Example.space Example.sample_uniformly
      Example.sample_randomly Example.reductor Example.reduce Example.rom_solve
      Example.reconstruct (fun n => 2 * INR n) V1.problem V1.diameter (start_world tt)
    = (Some res, w').
Proof.
  apply tutorial_total.
  - exact fast_clock_moves.
  - intros mu. exists (mu_to_numpy mu). split; reflexivity.
  - intros rs. discriminate.
Qed.

(** The run of the example library and the run with a clock twice as fast
    have the same errors. *)
Lemma tutorial_errors_clock_independent_witness :
  exists res1 w1 res2 w2,
    example_run (start_world tt) = (Some res1, w1)
    /\ tutorial Example.discretize Example.fom_solve Example.space
         Example.sample_uniformly Example.sample_randomly Example.reductor
         Example.reduce Example.rom_solve Example.reconstruct (fun n => 2 * INR n)
         V1.problem V1.diameter (start_world tt) = (Some res2, w2)
    /\ absolute_errors res1 = absolute_errors res2.
Proof.
  destruct example_run_returns as (res1 & w1 & Hrun1).
  destruct example_run_fast_clock_returns as (res2 & w2 & Hrun2).
  exists res1, w1, res2, w2. split; [exact Hrun1|]. split; [exact Hrun2|].
  destruct (tutorial_errors_clock_independent Example.discretize Example.fom_solve
              Example.space Example.sample_uniformly Example.sample_randomly
              Example.reductor Example.reduce Example.rom_solve Example.reconstruct
              Example.clock (fun n => 2 * INR n) V1.problem V1.diameter
              (start_world tt) w1 (start_world tt) w2 res1 res2 eq_refl Hrun1 Hrun2)
    as (_ & _ & Habs & _).
  exact Habs.
Defined.

(** [reduction_errors] on the example library without SLYCOT, for two
    parameter values: two reductions and eight norms. *)
Lemma reduction_errors_cost_witness :
  exists errors t',
    Heat.reduction_errors false HeatExample.construct HeatExample.reduce HeatExample.sub
      HeatExample.norm HeatExample.truediv tt 5 [1%nat; 2%nat] Heat.BTReductor [] []
    = (Some errors, t')
    /\ Heat.count Heat.is_reduce t' = 2%nat
    /\ Heat.count Heat.is_norm t' = 8%nat.
Proof.
  eexists. eexists. split; [reflexivity|].
  destruct (reduction_errors_cost false HeatExample.construct HeatExample.reduce
              HeatExample.sub HeatExample.norm HeatExample.truediv tt 5 [1%nat; 2%nat]
              Heat.BTReductor [] [] _ _ eq_refl) as (_ & Hreduce & _ & Hnorm).
  split; [exact Hreduce | exact Hnorm].
Defined.

(** The cells of the heat notebook on the example library without SLYCOT,
    where the H-infinity norm raises: all plots get lists of matching
    lengths. *)
Lemma notebook_plots_match_witness :
  exists t1 t2,
    Heat.system_norms_cell (Reductor := unit) false HeatExample.norm HeatExample.logspace
      tt [] = (Some tt, t1)
    /\ Heat.model_reduction_cells false HeatExample.construct HeatExample.reduce
         HeatExample.sub HeatExample.norm HeatExample.truediv HeatExample.logspace tt t1
       = (Some tt, t2).
Proof.
  apply (notebook_plots_match false HeatExample.construct HeatExample.reduce
           HeatExample.sub HeatExample.norm HeatExample.truediv HeatExample.logspace tt []).
  - intros which mu _ Hslycot.
    destruct which; simpl; try discriminate. specialize (Hslycot eq_refl). discriminate.
  - intros reductor kwargs which mu _ _ Hslycot.
    destruct which; simpl; try discriminate. specialize (Hslycot eq_refl). discriminate.
Defined.

(** The frequency response cell on the example library, after the cell of
    the magnitude plots has set [w]: a matrix of 100 rows and 20 columns. *)
Lemma frequency_response_matrix_witness :
  exists M t',
    Heat.frequency_response_cell (Reductor := unit) HeatExample.logspace
      HeatExample.freq_resp HeatExample.matrix_norm 0%nat tt
      (HeatExample.logspace (-1) 3 100) []
    = (Some M, t')
    /\ Heat.nrows M = 100%nat
    /\ Heat.ncols M = 20%nat.
Proof.
  destruct (frequency_response_matrix (Reductor := unit) HeatExample.logspace
              HeatExample.freq_resp HeatExample.matrix_norm 0%nat tt
              (HeatExample.logspace (-1) 3 100) []) as [Hfill _].
  - intros mu _. eexists. split; [reflexivity|]. apply length_map.
  - destruct (Hfill eq_refl) as (M & t' & Hrun & Hr & Hc & _).
    exists M, t'. split; [exact Hrun|]. split; [exact Hr | exact Hc].
Defined.
